(** * The aggregation pipeline of the backbone [/search] handler

    A shallow embedding of the handler that scores provider snippets,
    caps them per provider, thresholds them, fetches full metadata through
    a bounded pool of workers, ranks the results and optionally prepends a
    merged record (backbone [server.js]), together with
    [AudiotekaProvider.mapWithConcurrency] and the similarity adjustment of
    [LubimyCzytacProvider.searchBooks], and of the helpers of the two
    providers that work on strings and lists ([cleanCoverUrl],
    [parseDuration], [stripHtmlTags], the ordering of the matches).

    Conventions of the embedding.
    - A JavaScript value is a [jsval]; the records that flow through the
      handler (snippets, candidates, enriched and merged results) are
      objects, modelled as finite maps from property names to values, so
      that [{...m, similarity: s}] is an insert and [item[field]] a lookup.
    - JavaScript numbers are exact rationals ([Q]): rounding of IEEE
      doubles, NaN and the infinities are not represented.  Where the code
      can produce NaN (a subtraction with a non-number) the embedding
      returns [None].
    - Objects and arrays have no identity here.  [===] between two of them
      is reference equality in JavaScript and is [false] in [strictEq].
    - Functions of the JavaScript runtime and of the string-similarity
      package ([toLowerCase], [trim], [compareTwoStrings], ...) are the
      fields of the class [Runtime]; every theorem holds for every
      runtime.  [asciiRuntime] is one instance, used to run examples.
    - A call that may throw returns an [option]; [None] is the exception. *)

From Stdlib Require Import QArith Qcanon Qminmax Qabs Qround Lqa ZArith.
From Stdlib Require Import String Ascii List.
From Stdlib Require Import Permutation Sorted.
From stdpp Require Import base gmap strings list sorting pretty.

Set Warnings "-register-all".

Local Open Scope string_scope.
Local Open Scope list_scope.

(** ** JavaScript values *)

Inductive jsval : Type :=
  | JUndefined
  | JNull
  | JBool (b : bool)
  | JNum (q : Q)
  | JStr (s : string)
  | JArr (l : list jsval)
  | JObj (o : list (string * jsval)).

(** An object that flows through the pipeline. *)
Abbreviation item := (gmap string jsval).

(** [m.f], [m[f]]: a missing property reads as [undefined]. *)
Definition get (m : item) (f : string) : jsval :=
  match m !! f with
  | Some v => v
  | None => JUndefined
  end.

(** [ToBoolean]. *)
Definition truthy (v : jsval) : bool :=
  match v with
  | JUndefined | JNull => false
  | JBool b => b
  | JNum q => negb (Qeq_bool q 0)
  | JStr s => negb (String.eqb s "")
  | JArr _ | JObj _ => true
  end.

(** [a || b]. *)
Definition orElse (a b : jsval) : jsval := if truthy a then a else b.

Definition isArray (v : jsval) : bool :=
  match v with JArr _ => true | _ => false end.

Definition isString (v : jsval) : bool :=
  match v with JStr _ => true | _ => false end.

Definition isNumber (v : jsval) : bool :=
  match v with JNum _ => true | _ => false end.

(** [typeof v === 'object'] for a truthy [v]. *)
Definition isObject (v : jsval) : bool :=
  match v with JArr _ | JObj _ => true | _ => false end.

(** [a === b]. *)
Definition strictEq (a b : jsval) : bool :=
  match a, b with
  | JUndefined, JUndefined => true
  | JNull, JNull => true
  | JBool x, JBool y => Bool.eqb x y
  | JNum x, JNum y => Qeq_bool x y
  | JStr x, JStr y => String.eqb x y
  | _, _ => false
  end.

(** [v.length] of an array, [0] otherwise (the handler reads [length] only
    behind a truthiness or [Array.isArray] test). *)
Definition arrLength (v : jsval) : nat :=
  match v with
  | JArr l => length l
  | JStr s => String.length s
  | _ => 0
  end.

Definition elems (v : jsval) : list jsval :=
  match v with JArr l => l | _ => [] end.

(** [o[k]] on a nested object; the keys looked up are never array indices. *)
Fixpoint assocGet (o : list (string * jsval)) (k : string) : jsval :=
  match o with
  | [] => JUndefined
  | (k', v) :: o' => if String.eqb k k' then v else assocGet o' k
  end.

Definition getProp (v : jsval) (k : string) : jsval :=
  match v with
  | JObj o => assocGet o k
  | _ => JUndefined
  end.

(** [o[k] = v] on an object literal: overwrite in place or append. *)
Fixpoint assocSet (o : list (string * jsval)) (k : string) (v : jsval)
  : list (string * jsval) :=
  match o with
  | [] => [(k, v)]
  | (k', v') :: o' =>
      if String.eqb k k' then (k', v) :: o' else (k', v') :: assocSet o' k v
  end.

(** [Object.entries(v)] and [Object.keys(v).length]. *)
Definition entries (v : jsval) : list (string * jsval) :=
  match v with
  | JObj o => o
  | JArr l => imap (fun i x => (pretty i, x)) l
  | _ => []
  end.

Definition keysCount (v : jsval) : nat :=
  match v with
  | JObj o => length o
  | JArr l => length l
  | JStr s => String.length s
  | _ => 0
  end.

(** [v || 0] for a similarity or priority that is a number or missing. *)
Definition numOrZero (v : jsval) : Q :=
  match v with JNum q => q | _ => 0%Q end.

(** [a - b] between numbers; [None] stands for NaN, which is what a
    missing operand gives. *)
Definition jsSub (a b : jsval) : option Q :=
  match a, b with
  | JNum x, JNum y => Some (x - y)%Q
  | _, _ => None
  end.

(** The functions of the JavaScript runtime and of the string-similarity
    package that the handler calls. *)
Class Runtime := {
  toLowerCase : string -> string;
  trim : string -> string;
  numberToString : Q -> string;
  (** [s.split(/\s*(?:,|;| and )\s*/)] *)
  splitAuthors : string -> list string;
  (** [new Date(v).getFullYear()], [None] for NaN *)
  getFullYear : jsval -> option Q;
  (** [stringSimilarity.compareTwoStrings] *)
  compareTwoStrings : string -> string -> Q;
}.

Section Values.
Context {rt : Runtime}.

(** [String(v)], [v.toString()]. *)
Fixpoint toStr (v : jsval) : string :=
  match v with
  | JUndefined => "undefined"
  | JNull => "null"
  | JBool true => "true"
  | JBool false => "false"
  | JNum q => numberToString q
  | JStr s => s
  | JArr l =>
      String.concat ","
        ((fix each (l : list jsval) : list string :=
            match l with
            | [] => []
            | JUndefined :: l' => "" :: each l'
            | JNull :: l' => "" :: each l'
            | x :: l' => toStr x :: each l'
            end) l)
  | JObj _ => "[object Object]"
  end.

(** An element of [Array.prototype.join]: nullish elements print as [""]. *)
Definition elemStr (v : jsval) : string :=
  match v with
  | JUndefined | JNull => ""
  | _ => toStr v
  end.

(** [v.join(sep)]: a [TypeError] when [v] is a truthy value without [join]. *)
Definition join (sep : string) (v : jsval) : option string :=
  match v with
  | JArr l => Some (String.concat sep (map elemStr l))
  | _ => None
  end.

End Values.

(** ** Configuration ([config.json], read through [lib/config]) *)

Record ProviderConfig := {
  priority : option Q;       (* [None]: not a number *)
  maxResults : option Q;     (* [None]: not a number *)
  concurrency : option nat;  (* [None]: missing *)
}.

Record GlobalConfig := {
  titleWeight : option Q;          (* 0-100; [None]: not a number *)
  similarityThreshold : option Q;  (* 0-100; [None]: not a number *)
  allowBooks : option bool;        (* [None]: undefined *)
  allowAudiobooks : option bool;   (* [None]: undefined *)
  mergeBestResults : bool;
  mergePreferences : gmap string string;  (* field -> provider id *)
}.

Record Config := {
  global : GlobalConfig;
  providers : gmap string ProviderConfig;
}.

Definition nonEmpty (s : string) : bool := negb (String.eqb s "").

(** ** Scoring (the [scored] step of [GET /search]) *)

Section Scoring.
Context {rt : Runtime}.
Variable config : Config.

(** The loop that normalizes [m.authors] on every snippet before scoring. *)
Definition normalizeAuthorEntry (a : jsval) : string :=
  match a with
  | JStr s => trim s
  | _ => if truthy a then trim (toStr a) else ""
  end.

Definition normalizeSnippet (m : item) : item :=
  match get m "authors" with
  | JArr l =>
      <["authors" :=
          JArr (map JStr
                  (List.filter nonEmpty (map normalizeAuthorEntry l)))]> m
  | _ =>
      match get m "author" with
      | JStr s =>
          if nonEmpty s
          then <["authors" :=
                   JArr (map JStr
                           (List.filter nonEmpty
                              (map trim (splitAuthors s))))]> m
          else <["authors" := JArr []]> m
      | _ => <["authors" := JArr []]> m
      end
  end.

Definition cleanedQuery (q : string) : string := toLowerCase (trim q).

(** [author ? author.trim().toLowerCase() : ''] *)
Definition cleanedAuthor (author : option string) : string :=
  match author with
  | Some a => if nonEmpty a then toLowerCase (trim a) else ""
  | None => ""
  end.

(** The handler's local [titleWeight], a fraction. *)
Definition titleWeightFraction : Q :=
  match titleWeight (global config) with
  | Some w => (w / 100)%Q
  | None => (6 # 10)%Q
  end.

Definition authorWeight : Q := (1 - titleWeightFraction)%Q.

(** [(a||'').toLowerCase()]: a [TypeError] on a truthy non-string. *)
Definition lowerOrThrow (a : jsval) : option string :=
  match orElse a (JStr "") with
  | JStr s => Some (toLowerCase s)
  | _ => None
  end.

(** [Math.max(x, ...xs)]. *)
Definition mathMax (x : Q) (xs : list Q) : Q := fold_left Qmax xs x.

Definition authorSims (ca : string) (authors : list jsval) : option (list Q) :=
  mapM (fun a => s ← lowerOrThrow a; Some (compareTwoStrings s ca)) authors.

Definition combinedSimilarity (q : string) (author : option string) (m : item)
  : option Q :=
  let title := toLowerCase (toStr (orElse (get m "title") (JStr ""))) in
  let titleSimilarity := compareTwoStrings title (cleanedQuery q) in
  if nonEmpty (cleanedAuthor author)
     && isArray (get m "authors")
     && negb (Nat.eqb (arrLength (get m "authors")) 0)
  then
    sims ← authorSims (cleanedAuthor author) (elems (get m "authors"));
    match sims with
    | x :: xs =>
        Some (titleSimilarity * titleWeightFraction
              + mathMax x xs * authorWeight)%Q
    | [] => None
    end
  else Some titleSimilarity.

(** One step of [combined.map(m => ...)]: [{ ...m, similarity }]. *)
Definition scoreSnippet (q : string) (author : option string) (m : item)
  : option item :=
  s ← combinedSimilarity q author m;
  Some (<["similarity" := JNum s]> m).

Definition scored (q : string) (author : option string) (combined : list item)
  : option (list item) :=
  mapM (scoreSnippet q author) (map normalizeSnippet combined).

(** The scorer as section 4.1 words it, on the normalized author list. *)
Definition authorStrings (m : item) : list string :=
  omap (fun a => match a with JStr s => Some s | _ => None end)
       (elems (get m "authors")).

Definition titleSimOf (q : string) (m : item) : Q :=
  compareTwoStrings
    (toLowerCase (toStr (orElse (get m "title") (JStr ""))))
    (toLowerCase (trim q)).

Definition scoreSpec (q : string) (author : option string) (m : item) : Q :=
  let a := cleanedAuthor author in
  match authorStrings m with
  | [] => titleSimOf q m
  | x :: xs =>
      if nonEmpty a
      then (titleSimOf q m * titleWeightFraction
            + mathMax (compareTwoStrings (toLowerCase x) a)
                (map (fun y => compareTwoStrings (toLowerCase y) a) xs)
              * (1 - titleWeightFraction))%Q
      else titleSimOf q m
  end.

(** The same with the query and the author taken as they come, neither
    trimmed: the emptiness test is on the author string itself. *)
Definition scoreUntrimmed (q : string) (author : option string) (m : item)
  : Q :=
  let a := default "" author in
  let titleSim :=
    compareTwoStrings
      (toLowerCase (toStr (orElse (get m "title") (JStr ""))))
      (toLowerCase q) in
  match authorStrings m with
  | [] => titleSim
  | x :: xs =>
      if nonEmpty a
      then (titleSim * titleWeightFraction
            + mathMax (compareTwoStrings (toLowerCase x) (toLowerCase a))
                (map (fun y =>
                        compareTwoStrings (toLowerCase y) (toLowerCase a))
                     xs)
              * (1 - titleWeightFraction))%Q
      else titleSim
  end.

End Scoring.

(** The similarity adjustment of [LubimyCzytacProvider.searchBooks]
    ([adjustedMetadata]): [!match.identifiers?.isbn || isbn === ''] . *)
Definition missingIsbn (m : item) : bool :=
  let isbn :=
    match get m "identifiers" with
    | JUndefined | JNull => JUndefined
    | ids => getProp ids "isbn"
    end in
  negb (truthy isbn) || strictEq isbn (JStr "").

Definition adjustedSimilarity (s : Q) (m : item) : Q :=
  if missingIsbn m then (s * (99 # 100))%Q else s.

(** ** [Array.prototype.sort]

    The sort is stable (ECMAScript 2019); a comparator result that is NaN
    counts as [0], a negative one puts the first argument first.  For a
    consistent comparator the stable sorted arrangement is unique, so the
    insertion sort below returns what any conforming engine returns. *)

Section JsSort.
Context {A : Type}.
Variable comparator : A -> A -> option Q.

(** [SortCompare]: NaN counts as [+0]. *)
Definition sortCompare (a b : A) : Q :=
  match comparator a b with
  | Some v => v
  | None => 0%Q
  end.

(** [x] comes from the left of everything in [s]: it stays in front of the
    first element it does not have to follow. *)
Fixpoint insertSorted (x : A) (s : list A) : list A :=
  match s with
  | [] => [x]
  | y :: s' =>
      if Qle_bool (sortCompare x y) 0 then x :: y :: s'
      else y :: insertSorted x s'
  end.

Fixpoint jsSort (l : list A) : list A :=
  match l with
  | [] => []
  | x :: l' => insertSorted x (jsSort l')
  end.

(** [a] may stand before [b]. *)
Definition before (a b : A) : Prop := (sortCompare a b <= 0)%Q.

End JsSort.

(** ** Candidate selection (type filter, per-provider cap, threshold) *)

(** [(m.type === 'audiobook' || (m.format && m.format === 'audiobook'))] *)
Definition isAudio (m : item) : bool :=
  strictEq (get m "type") (JStr "audiobook")
  || (truthy (get m "format") && strictEq (get m "format") (JStr "audiobook")).

(** [(acc[k] = acc[k] || []).push(m)] on an object whose keys are listed in
    insertion order.  (JavaScript lists keys that are canonical array
    indices first; provider names are directory names, and nothing below
    depends on the order of the groups.) *)
Fixpoint groupPush (acc : list (string * list item)) (k : string) (m : item)
  : list (string * list item) :=
  match acc with
  | [] => [(k, [m])]
  | (k', g) :: acc' =>
      if String.eqb k k' then (k', g ++ [m]) :: acc'
      else (k', g) :: groupPush acc' k m
  end.

Section Selection.
Context {rt : Runtime}.
Variable config : Config.

(** The property key [m._provider] is converted to. *)
Definition providerKey (m : item) : string := toStr (get m "_provider").

(** [l.reduce((acc, m) => { (acc[m._provider] ||= []).push(m); ... }, {})] *)
Definition groupByProvider (l : list item) : list (string * list item) :=
  fold_left (fun acc m => groupPush acc (providerKey m) m) l [].

Definition typeFilter (l : list item) : list item :=
  let allowB := default true (allowBooks (global config)) in
  let allowA := default true (allowAudiobooks (global config)) in
  List.filter
    (fun m =>
       if isAudio m && negb allowA then false
       else if negb (isAudio m) && negb allowB then false
       else true)
    l.

(** [Math.max(0, Math.min(100, thresholdPct)) / 100] *)
Definition threshold : Q :=
  let thresholdPct := default 0%Q (similarityThreshold (global config)) in
  (Qmax 0 (Qmin 100 thresholdPct) / 100)%Q.

Definition providerCfg (providerName : string) : ProviderConfig :=
  default {| priority := None; maxResults := None; concurrency := None |}
          (providers config !! providerName).

Definition maxOf (providerName : string) : Q :=
  default 0%Q (maxResults (providerCfg providerName)).

(** [(a, b) => (b.similarity || 0) - (a.similarity || 0)] *)
Definition bySimilarityDesc (a b : item) : option Q :=
  Some (numOrZero (get b "similarity") - numOrZero (get a "similarity"))%Q.

(** [sorted.slice(0, max)] for [max > 0]: the end index is truncated. *)
Definition sliceTo (max : Q) (l : list item) : list item :=
  take (Z.to_nat (Qfloor max)) l.

Definition capGroup (g : string * list item) : string * list item :=
  let sorted := jsSort bySimilarityDesc (snd g) in
  (fst g,
   if negb (Qle_bool (maxOf (fst g)) 0) then sliceTo (maxOf (fst g)) sorted
   else sorted).

Definition cappedByProvider (filtered : list item)
  : list (string * list item) :=
  map capGroup (groupByProvider filtered).

Definition capped (filtered : list item) : list item :=
  concat (map snd (cappedByProvider filtered)).

(** [typeof m.similarity === 'number' ? m.similarity >= threshold : false] *)
Definition aboveThreshold (m : item) : bool :=
  match get m "similarity" with
  | JNum s => Qle_bool threshold s
  | _ => false
  end.

Definition candidates (filtered : list item) : list item :=
  List.filter aboveThreshold (capped filtered).

Definition byProvider (filtered : list item) : list (string * list item) :=
  groupByProvider (candidates filtered).

(** What provider [p] contributes. *)
Definition fromProvider (p : string) (l : list item) : list item :=
  List.filter (fun m => String.eqb (providerKey m) p) l.

(** The capped list of a group. *)
Definition capList (p : string) (g : list item) : list item :=
  snd (capGroup (p, g)).

(** Every group holds items of its own key only. *)
Definition keyed (acc : list (string * list item)) : Prop :=
  Forall (fun kg => Forall (fun m => providerKey m = fst kg) (snd kg)) acc.

End Selection.

(** ** [AudiotekaProvider.mapWithConcurrency]

    The workers are asynchronous functions sharing the cursor [i] and the
    array [results].  Between two [await]s a worker runs alone, so a run is
    an interleaving of worker steps.  The steps here are finer than those
    of the event loop (the write after an [await] and the next read of the
    cursor are two steps), which only adds interleavings. *)

Inductive worker : Type :=
  | Pulling                (* at the top of [while (true)] *)
  | Awaiting (idx : nat)   (* suspended in [await iteratorFn(items[idx])] *)
  | Returned.              (* left through [return] *)

Record pool (B : Type) : Type := {
  results : list (option B);  (* [None]: a slot never written *)
  cursor : nat;               (* [i] *)
  workers : list worker;
  calls : list nat;           (* the indices handed to [iteratorFn], in order *)
}.
Arguments results {B} _.
Arguments cursor {B} _.
Arguments workers {B} _.
Arguments calls {B} _.

Definition isReturned (w : worker) : bool :=
  match w with Returned => true | _ => false end.

Section Pool.
Context {A B : Type}.
Variable items : list A.
(** [None]: the call throws, or the promise it returns rejects. *)
Variable iteratorFn : A -> option B.
Variable null : B.

(** What the [try]/[catch] around the call stores in [results[idx]]. *)
Definition stored (x : A) : B :=
  match iteratorFn x with
  | Some v => v
  | None => null
  end.

(** [new Array(items.length)], [i = 0],
    [Array(Math.min(limit, items.length)).fill().map(async () => ...)] *)
Definition poolInit (limit : nat) : pool B :=
  {| results := replicate (length items) None;
     cursor := 0;
     workers := replicate (Nat.min limit (length items)) Pulling;
     calls := [] |}.

(** Worker [k] runs up to its next suspension point. *)
Definition stepWorker (k : nat) (st : pool B) : option (pool B) :=
  match workers st !! k with
  | Some Pulling =>
      let idx := cursor st in
      if (idx <? length items)%nat
      then Some {| results := results st;
                   cursor := S idx;
                   workers := <[k := Awaiting idx]> (workers st);
                   calls := calls st ++ [idx] |}
      else Some {| results := results st;
                   cursor := S idx;
                   workers := <[k := Returned]> (workers st);
                   calls := calls st |}
  | Some (Awaiting idx) =>
      match items !! idx with
      | Some x =>
          Some {| results := <[idx := Some (stored x)]> (results st);
                  cursor := cursor st;
                  workers := <[k := Pulling]> (workers st);
                  calls := calls st |}
      | None => None
      end
  | Some Returned | None => None
  end.

Definition poolStep (st st' : pool B) : Prop :=
  exists k, stepWorker k st = Some st'.

(** [Promise.all(workers)] resolves. *)
Definition poolDone (st : pool B) : bool := forallb isReturned (workers st).

(** One scheduler: always resume the first worker that has not returned. *)
Fixpoint firstRunnable (ws : list worker) : option nat :=
  match ws with
  | [] => None
  | Returned :: ws' => S <$> firstRunnable ws'
  | _ :: _ => Some 0%nat
  end.

Fixpoint runPool (fuel : nat) (st : pool B) : pool B :=
  match fuel with
  | O => st
  | S fuel' =>
      match firstRunnable (workers st) with
      | Some k =>
          match stepWorker k st with
          | Some st' => runPool fuel' st'
          | None => st
          end
      | None => st
      end
  end.

Definition workerWeight (w : worker) : nat :=
  match w with
  | Awaiting _ => 2
  | Pulling => 1
  | Returned => 0
  end.

(** A bound on the number of steps left. *)
Definition poolMeasure (st : pool B) : nat :=
  2 * (length items - cursor st) + list_sum (map workerWeight (workers st)).

Definition mapWithConcurrency (limit : nat) : list (option B) :=
  results (runPool (poolMeasure (poolInit limit)) (poolInit limit)).

End Pool.

(** ** Enrichment (the [fullFetchPromises] step) *)

(** A loaded provider.  [getFullMetadata m] is [None] when the call throws,
    [Some None] when it returns a falsy value, [Some (Some r)] when it
    returns the record [r]. *)
Record Instance := {
  hasMapWithConcurrency : bool;
  getFullMetadata : option (item -> option (option item));
}.

Section Enrichment.
Context {rt : Runtime}.
Variable config : Config.
Variable loaded : list (string * Instance).  (* the global [providers] *)

Definition needsFetch (m : item) : bool := negb (truthy (get m "_fullFetched")).
Definition alreadyFetched (m : item) : bool := truthy (get m "_fullFetched").

(** The iterator handed to [mapWithConcurrency]: it has its own
    [try]/[catch] and returns [null] on failure, so it never throws. *)
Definition fetchOrNull (inst : Instance) (m : item) : option (option item) :=
  match getFullMetadata inst with
  | Some fetch =>
      match fetch m with
      | Some r => Some r
      | None => Some None
      end
  | None => Some (Some m)
  end.

(** The sequential fallback loop. *)
Fixpoint fetchSequential (inst : Instance) (toFetch : list item) : list item :=
  match toFetch with
  | [] => []
  | m :: rest =>
      match getFullMetadata inst with
      | Some fetch =>
          match fetch m with
          | Some (Some full) => full :: fetchSequential inst rest
          | Some None | None => fetchSequential inst rest
          end
      | None => m :: fetchSequential inst rest
      end
  end.

Definition limitFor (providerName : string) : nat :=
  match providers config !! providerName with
  | Some pc =>
      match concurrency pc with
      | Some (S n) => S n
      | Some O | None => 5
      end
  | None => 5
  end.

(** One [async ([providerName, matches]) => ...].  The [catch] around
    [mapWithConcurrency] is not reached: the iterator catches what the
    fetch throws, and the pool itself does not throw. *)
Definition enrichGroup (g : string * list item) : list item :=
  let providerName := fst g in
  let matches := snd g in
  match List.find (fun p => String.eqb (fst p) providerName) loaded with
  | None => []
  | Some (_, inst) =>
      let toFetch := List.filter needsFetch matches in
      if hasMapWithConcurrency inst then
        let results :=
          mapWithConcurrency toFetch (fetchOrNull inst) None
                             (limitFor providerName) in
        (* [results.filter(Boolean)] skips empty slots and [null]s *)
        let fetched := omap (fun slot => slot ≫= id) results in
        List.filter alreadyFetched matches ++ fetched
      else
        List.filter alreadyFetched matches ++ fetchSequential inst toFetch
  end.

(** [(await Promise.all(fullFetchPromises)).flat()] *)
Definition fullResultsOf (groups : list (string * list item)) : list item :=
  concat (map enrichGroup groups).

End Enrichment.

(** ** Ranking ([fullResults.sort]) *)

Definition audioFlag (m : item) : Z := if isAudio m then 1%Z else 0%Z.

(** [typeof m._providerPriority === 'number' ? m._providerPriority : 0] *)
Definition priorityOf (m : item) : Q := numOrZero (get m "_providerPriority").

Definition compareResults (a b : item) : option Q :=
  if negb (strictEq (get b "similarity") (get a "similarity"))
  then jsSub (get b "similarity") (get a "similarity")
  else if negb (Z.eqb (audioFlag b) (audioFlag a))
  then Some (inject_Z (audioFlag b - audioFlag a))
  else Some (priorityOf b - priorityOf a)%Q.

Definition rank (fullResults : list item) : list item :=
  jsSort compareResults fullResults.

(** The three keys of a result, similarity and priority in lowest terms. *)
Definition rankKey (m : item) : Qc * bool * Qc :=
  (Q2Qc (numOrZero (get m "similarity")), isAudio m, Q2Qc (priorityOf m)).

(** The order of the three-key comparator: higher similarity first, then
    audiobooks, then higher priority. *)
Definition keyBefore (k1 k2 : Qc * bool * Qc) : Prop :=
  (k2.1.1 < k1.1.1)%Qc
  \/ (k1.1.1 = k2.1.1
      /\ ((k1.1.2 = true /\ k2.1.2 = false)
          \/ (k1.1.2 = k2.1.2 /\ (k2.2 <= k1.2)%Qc))).

Definition hasKey (k : Qc * bool * Qc) (m : item) : bool :=
  bool_decide (rankKey m = k).

(** ** The merge engine (the [mergeBestResults] block) *)

(** [v.length] as a value. *)
Definition lengthOf (v : jsval) : jsval :=
  match v with
  | JArr l => JNum (inject_Z (Z.of_nat (length l)))
  | JStr s => JNum (inject_Z (Z.of_nat (String.length s)))
  | JObj o => assocGet o "length"
  | _ => JUndefined
  end.

(** [Set.prototype.add] and [Array.from(new Set(l))], insertion ordered;
    the members are strings wherever the result is read. *)
Definition setAdd (s : list jsval) (v : jsval) : list jsval :=
  if existsb (strictEq v) s then s else s ++ [v].

Definition setOf (l : list jsval) : list jsval := fold_left setAdd l [].

Definition EPS : Q := (1 # 1000000)%Q.

Definition countedFields : list string :=
  ["title"; "authors"; "narrator"; "description"; "cover"; "type"; "url";
   "id"; "languages"; "publisher"; "publishedDate"; "series"; "genres";
   "tags"; "identifiers"].

Definition countNonEmpty (it : item) : Z :=
  Z.of_nat (length (List.filter (fun f => truthy (get it f)) countedFields)).

(** The comparator of [sortedGroup]. *)
Definition byPriorityThenFields (a b : item) : option Q :=
  if negb (Qeq_bool (priorityOf b) (priorityOf a))
  then Some (priorityOf b - priorityOf a)%Q
  else Some (inject_Z (countNonEmpty b - countNonEmpty a)).

Definition hasField (it : item) (field : string) : bool :=
  if String.eqb field "language"
  then isArray (get it "languages") && truthy (lengthOf (get it "languages"))
  else if String.eqb field "identifiers"
  then truthy (get it "identifiers")
       && negb (Nat.eqb (keysCount (get it "identifiers")) 0)
  else
    let v := get it field in
    if isArray v then negb (Nat.eqb (arrLength v) 0)
    else negb (strictEq v JUndefined) && negb (strictEq v JNull)
         && negb (strictEq v (JStr "")).

Definition firstElem (v : jsval) : jsval :=
  match v with
  | JArr (x :: _) => x
  | _ => JUndefined
  end.

Definition getFieldValue (it : item) (field : string) : jsval :=
  if String.eqb field "language"
  then if isArray (get it "languages") && truthy (lengthOf (get it "languages"))
       then firstElem (get it "languages") else JUndefined
  else get it field.

Definition singleFields : list string :=
  ["narrator"; "publisher"; "language"; "subtitle"; "duration"; "url";
   "source"].

Definition mergedFields : list string :=
  ["narrator"; "description"; "cover"; "languages"; "identifiers"; "genres";
   "tags"].

Section Merge.
Context {rt : Runtime}.
Variable config : Config.

(** [prefs && prefs[field]], when truthy. *)
Definition preferred (field : string) : option string :=
  match mergePreferences (global config) !! field with
  | Some p => if nonEmpty p then Some p else None
  | None => None
  end.

Definition sortedGroupOf (topGroup : list item) : list item :=
  jsSort byPriorityThenFields topGroup.

(** [sortedGroup.find(i => i._provider === p && test(i))] *)
Definition findFrom (sortedGroup : list item) (p : string)
    (test : item -> bool) : option item :=
  List.find (fun i => strictEq (get i "_provider") (JStr p) && test i)
            sortedGroup.

(** Each pick returns the pair [{ value, source }]. *)
Definition pickFallback (sortedGroup : list item) (test : item -> bool)
    (value : item -> jsval) : jsval * jsval :=
  match List.find test sortedGroup with
  | Some contributor => (value contributor, get contributor "_provider")
  | None => (JUndefined, JNull)
  end.

Definition pickWith (sortedGroup : list item) (prefKey : string)
    (test : item -> bool) (value : item -> jsval) : jsval * jsval :=
  match preferred prefKey with
  | Some p =>
      match findFrom sortedGroup p test with
      | Some it => (value it, JStr p)
      | None => pickFallback sortedGroup test value
      end
  | None => pickFallback sortedGroup test value
  end.

Definition pickFieldAndSource (sortedGroup : list item) (field : string)
  : jsval * jsval :=
  pickWith sortedGroup field
           (fun i => hasField i field) (fun i => getFieldValue i field).

Definition pickIdentifierAndSource (sortedGroup : list item) (key : string)
  : jsval * jsval :=
  pickWith sortedGroup "identifiers"
           (fun i => truthy (get i "identifiers")
                     && truthy (getProp (get i "identifiers") key))
           (fun i => getProp (get i "identifiers") key).

Definition yearString (it : item) : jsval :=
  match getFullYear (get it "publishedDate") with
  | Some y => if Qeq_bool y 0 then JStr "" else JStr (numberToString y)
  | None => JStr ""
  end.

Definition hasYear (it : item) : bool :=
  truthy (get it "publishedDate")
  && match getFullYear (get it "publishedDate") with
     | Some y => negb (Qeq_bool y 0)
     | None => false
     end.

Definition pickPublishedYearAndSource (sortedGroup : list item)
  : jsval * jsval :=
  match preferred "publishedYear" with
  | Some p =>
      match findFrom sortedGroup p
                     (fun i => truthy (get i "publishedDate")) with
      | Some it => (yearString it, JStr p)
      | None => pickFallback sortedGroup hasYear yearString
      end
  | None => pickFallback sortedGroup hasYear yearString
  end.

Definition hasLanguages (it : item) : bool :=
  isArray (get it "languages") && truthy (lengthOf (get it "languages")).

Definition pickLanguageAndSource (sortedGroup : list item) : jsval * jsval :=
  pickWith sortedGroup "language" hasLanguages
           (fun i => firstElem (get i "languages")).

(** [coverPick], then the audiobook cover when the pick gave nothing:
    the pair [(coverValue, coverSource)]. *)
Definition coverPick (sortedGroup : list item) : jsval * jsval :=
  let pick := pickFieldAndSource sortedGroup "cover" in
  if truthy (fst pick) then pick
  else
    match List.find (fun i => isAudio i && truthy (get i "cover"))
                    sortedGroup with
    | Some audioCandidate =>
        (get audioCandidate "cover", get audioCandidate "_provider")
    | None => pick
    end.

(** [merged.series] and [merged.seriesIndex]. *)
Definition seriesFromPreferred (sortedGroup : list item) : jsval * jsval :=
  match preferred "series" with
  | Some p =>
      match findFrom sortedGroup p (fun i => truthy (get i "series")) with
      | Some it =>
          (if isArray (get it "series") then firstElem (get it "series")
           else orElse (get it "series") (JStr ""),
           get it "seriesIndex")
      | None => (JStr "", JNull)
      end
  | None => (JStr "", JNull)
  end.

(** What one array [it.series] adds to [seriesSet]: in
    [for (const s of it.series) if (s) add(s);
     else if (it.series) add(it.series)]
    the [else] belongs to [if (s)]. *)
Definition seriesAdds (v : jsval) : list jsval :=
  match v with
  | JArr l => map (fun s => if truthy s then s else v) l
  | _ => []
  end.

Definition nextSeriesIndex (seriesIndex : jsval) (it : item) : jsval :=
  if negb (truthy seriesIndex)
     && negb (strictEq (get it "seriesIndex") JUndefined)
     && negb (strictEq (get it "seriesIndex") JNull)
  then get it "seriesIndex" else seriesIndex.

Definition nullish (v : jsval) : bool :=
  strictEq v JUndefined || strictEq v JNull.

Definition seriesPick (sortedGroup : list item) : jsval * jsval :=
  let '(chosen0, index0) := seriesFromPreferred sortedGroup in
  let index0 := if strictEq index0 JUndefined then JNull else index0 in
  if truthy chosen0 then (chosen0, index0)
  else
    (match concat (map (fun it => seriesAdds (get it "series"))
                       sortedGroup) with
     | s :: _ => s
     | [] => JStr ""
     end,
     fold_left nextSeriesIndex sortedGroup index0).

(** [normalize] and [pickListPrefOrUnion]. *)
Definition normalize (s : jsval) : string :=
  toLowerCase (trim (toStr (orElse s (JStr "")))).

Definition hasList (field : string) (it : item) : bool :=
  isArray (get it field) && truthy (lengthOf (get it field)).

Definition pickListPrefOrUnion (sortedGroup : list item) (field : string)
  : jsval :=
  let union :=
    JArr (setOf (map JStr
      (List.filter nonEmpty
         (map normalize
              (concat (map (fun it => elems (get it field)) sortedGroup)))))) in
  match preferred field with
  | Some p =>
      match findFrom sortedGroup p (hasList field) with
      | Some it => get it field
      | None => union
      end
  | None => union
  end.

(** The providers listed under [_mergedFieldSources] for a list field. *)
Definition listSources (sortedGroup : list item) (field : string)
    (test : jsval -> bool) : jsval :=
  match preferred field with
  | Some p => JStr p
  | None =>
      JArr (setOf (map (fun i => get i "_provider")
                       (List.filter (fun i => test (get i field)) sortedGroup)))
  end.

Definition listPresent (v : jsval) : bool :=
  (truthy v && truthy (lengthOf v)) || (isString v && truthy v).

Definition seriesPresent (v : jsval) : bool :=
  truthy v && (if isArray v then truthy (lengthOf v) else truthy v).

(** The loop over [singleFields] that fills [_mergedFieldSources]. *)
Definition singlePresent (f : string) (i : item) : bool :=
  truthy (get i f)
  || (String.eqb f "language" && truthy (get i "languages")
      && truthy (lengthOf (get i "languages"))).

Definition singleSource (sortedGroup : list item) (f : string) : option jsval :=
  let fallback :=
    match List.find (singlePresent f) sortedGroup with
    | Some contributor => Some (get contributor "_provider")
    | None => None
    end in
  match preferred f with
  | Some p =>
      match findFrom sortedGroup p (singlePresent f) with
      | Some _ => Some (JStr p)
      | None => fallback
      end
  | None => fallback
  end.

Definition mergedFieldSources (sortedGroup : list item)
  : list (string * jsval) :=
  fold_left
    (fun o f =>
       match singleSource sortedGroup f with
       | Some src => assocSet o f src
       | None => o
       end)
    singleFields
    [("genres", listSources sortedGroup "genres" listPresent);
     ("tags", listSources sortedGroup "tags" listPresent);
     ("series", listSources sortedGroup "series" seriesPresent)].

(** [identifiers]: key by key, the first truthy value wins. *)
Definition mergeIdentifiers (sortedGroup : list item) : list (string * jsval) :=
  fold_left
    (fun identifiers kv =>
       if negb (truthy (assocGet identifiers (fst kv))) && truthy (snd kv)
       then assocSet identifiers (fst kv) (snd kv)
       else identifiers)
    (concat (map (fun it =>
                    if truthy (get it "identifiers")
                       && isObject (get it "identifiers")
                    then entries (get it "identifiers") else [])
                 sortedGroup))
    [].

(** [topGroup.map(i =>
      ({ provider: i._provider, id: i.id || i._id || null }))] *)
Definition mergedFromEntry (i : item) : jsval :=
  JObj [("provider", get i "_provider");
        ("id", orElse (orElse (get i "id") (get i "_id")) JNull)].

Definition mergedFrom (topGroup : list item) : list jsval :=
  map mergedFromEntry topGroup.

(** [(Math.max(...topGroup.map(priority)) || 0) + 1] *)
(* the tie group has at least two members *)
Definition mergedPriority (topGroup : list item) : Q :=
  match map priorityOf topGroup with
  | x :: xs => (mathMax x xs + 1)%Q
  | [] => 1%Q
  end.

(** The object [merged] as it stands before the redundancy test;
    properties are assigned in the order of the source. *)
Definition mergedRecord (topGroup : list item) (topSim : Q) : item :=
  let sortedGroup := sortedGroupOf topGroup in
  let pick f := fst (pickFieldAndSource sortedGroup f) in
  let ident k := fst (pickIdentifierAndSource sortedGroup k) in
  let url := orElse (pick "url") (JStr "") in
  let source := orElse (pick "source") JNull in
  let '(chosenSeries, seriesIndex) := seriesPick sortedGroup in
  fold_left (fun m kv => <[fst kv := snd kv]> m)
    [("title", orElse (pick "title") (JStr ""));
     ("subtitle", orElse (pick "subtitle") (JStr ""));
     ("authors", orElse (pick "authors") (JArr []));
     ("narrator", orElse (pick "narrator") (JStr ""));
     ("description", orElse (pick "description") (JStr ""));
     ("cover", orElse (fst (coverPick sortedGroup)) JNull);
     ("type",
      orElse (pick "type")
        (if existsb (fun i => strictEq (get i "type") (JStr "audiobook"))
                    topGroup
         then JStr "audiobook" else JStr "book"));
     ("similarity", JNum topSim);
     ("id",
      orElse (orElse (orElse (pick "id") (ident "lubimyczytac"))
                     (ident "audioteka"))
             (JStr ""));
     ("url", url);
     ("source", source);
     ("languages",
      JArr (setOf (concat (map (fun it => elems (get it "languages"))
                               sortedGroup))));
     ("publisher", orElse (pick "publisher") (JStr ""));
     ("publishedYear",
      orElse (fst (pickPublishedYearAndSource sortedGroup)) JUndefined);
     ("rating", orElse (pick "rating") JNull);
     ("series",
      if truthy chosenSeries
      then JArr [JObj [("series", chosenSeries);
                       ("sequence",
                        if nullish seriesIndex then JUndefined
                        else JStr (toStr seriesIndex))]]
      else JUndefined);
     ("seriesIndex", if nullish seriesIndex then JNull else seriesIndex);
     ("isbn", orElse (ident "isbn") JUndefined);
     ("asin", orElse (ident "asin") JUndefined);
     ("duration", orElse (pick "duration") JUndefined);
     ("url", orElse url (JStr ""));
     ("language", orElse (fst (pickLanguageAndSource sortedGroup)) JUndefined);
     ("genres", pickListPrefOrUnion sortedGroup "genres");
     ("tags", pickListPrefOrUnion sortedGroup "tags");
     ("identifiers", JObj (mergeIdentifiers sortedGroup));
     ("_mergedFrom", JArr (mergedFrom topGroup));
     ("_mergedFieldSources", JObj (mergedFieldSources sortedGroup));
     ("_provider", JStr "merged");
     ("_providerPriority", JNum (mergedPriority topGroup));
     ("source",
      orElse source
        (JObj [("id", JStr "merged"); ("description", JStr "Merged result")]))]
    (∅ : item).

(** The redundancy test against [top = fullResults[0]]. *)
Definition sameTitleAuthors (top merged : item) : option bool :=
  if strictEq (get top "title") (get merged "title")
     && truthy (get top "authors") && truthy (get merged "authors")
  then
    a ← join "|" (get top "authors");
    b ← join "|" (get merged "authors");
    Some (String.eqb a b)
  else Some false.

Definition topHasField (top merged : item) (f : string) : bool :=
  if negb (truthy (get merged f))
     || (isArray (get merged f) && Nat.eqb (arrLength (get merged f)) 0)
  then true
  else if isArray (get merged f)
  then isArray (get top f) && negb (Nat.eqb (arrLength (get top f)) 0)
  else if String.eqb f "identifiers"
  then truthy (get top f) && negb (Nat.eqb (keysCount (get top f)) 0)
  else truthy (get top f).

Definition topHasAllMergedFields (top merged : item) : bool :=
  forallb (topHasField top merged) mergedFields.

(** [fullResults.filter(fr =>
      Math.abs((fr.similarity || 0) - topSim) <= EPS)] *)
Definition topGroupOf (fullResults : list item) : list item :=
  match fullResults with
  | [] => []
  | top :: _ =>
      List.filter
        (fun fr =>
           Qle_bool (Qabs (numOrZero (get fr "similarity")
                           - numOrZero (get top "similarity"))) EPS)
        fullResults
  end.

(** The whole [try { ... } catch (err) { ... }] block: [fullResults] after
    it.  An exception leaves [fullResults] as it was. *)
Definition mergeStep (fullResults : list item) : list item :=
  if mergeBestResults (global config) then
    match fullResults with
    | [] => []
    | top :: _ =>
        let topGroup := topGroupOf fullResults in
        if (1 <? length topGroup)%nat then
          let merged :=
            mergedRecord topGroup (numOrZero (get top "similarity")) in
          match sameTitleAuthors top merged with
          | Some same =>
              if same && topHasAllMergedFields top merged then fullResults
              else merged :: fullResults
          | None => fullResults
          end
        else fullResults
    end
  else fullResults.

End Merge.

(** ** The response: author normalization and the whole handler *)

Section Handler.
Context {rt : Runtime}.
Variable config : Config.
Variable loaded : list (string * Instance).

(** [normalizeAuthors(item)]; [item.authors.join] throws on a truthy value
    that is not an array. *)
Definition normalizeAuthors (it : item) : option item :=
  let authors :=
    match get it "authors" with
    | JArr l =>
        JArr (map JStr
                (List.filter nonEmpty
                   (map (fun a => trim (toStr (orElse a (JStr "")))) l)))
    | other =>
        match get it "author" with
        | JStr s =>
            if nonEmpty s
            then JArr (map JStr
                         (List.filter nonEmpty (map trim (splitAuthors s))))
            else orElse other (JArr [])
        | _ => orElse other (JArr [])
        end
    end in
  let it1 := <["authors" := authors]> it in
  let joined :=
    if truthy authors && truthy (lengthOf authors)
    then a ← join ", " authors; Some (<["author" := JStr a]> it1)
    else Some (<["author" := JUndefined]> it1) in
  match get it "author" with
  | JStr s =>
      if nonEmpty s && nonEmpty (trim s)
      then Some (<["author" := JStr (trim s)]> it1)
      else joined
  | _ => joined
  end.

Definition blank (v : jsval) : bool :=
  negb (truthy v) || strictEq v (JStr "").

(** The loop that fills [subtitle] and [publisher]. *)
Definition fillSubtitlePublisher (it : item) : item :=
  let it1 :=
    if blank (get it "subtitle") && truthy (get it "identifiers")
       && truthy (getProp (get it "identifiers") "title")
    then <["subtitle" := getProp (get it "identifiers") "title"]> it
    else it in
  if blank (get it1 "publisher") && truthy (get it1 "source")
     && truthy (getProp (get it1 "source") "description")
  then <["publisher" := getProp (get it1 "source") "description"]> it1
  else it1.

(** [all.reduce(...)]: the matches of every provider that answered, tagged
    with [_provider] and [_providerPriority]. *)
Definition tag (answer : string * option (list item)) : list item :=
  match snd answer with
  | Some matches =>
      let priority :=
        default 0%Q (priority (providerCfg config (fst answer))) in
      map (fun m =>
             <["_providerPriority" := JNum priority]>
               (<["_provider" := JStr (fst answer)]> m))
          matches
  | None => []
  end.

Definition combined (all : list (string * option (list item))) : list item :=
  concat (map tag all).

(** [fullResults] after the sort. *)
Definition ranked (filtered : list item) : list item :=
  rank (fullResultsOf config loaded (byProvider config filtered)).

(** The [matches] of the response; [None] when there is none: the query
    is empty (status 400) or the handler throws. *)
Definition search (q : string) (author : option string)
    (all : list (string * option (list item))) : option (list item) :=
  if nonEmpty q then
    sc ← scored config q author (combined all);
    fs ← mapM normalizeAuthors
           (mergeStep config (ranked (typeFilter config sc)));
    Some (map fillSubtitlePublisher fs)
  else None.

End Handler.

(** ** A runtime for ASCII strings

    [asciiRuntime] agrees with JavaScript on ASCII strings; its
    [compareTwoStrings] is the bigram (Dice) coefficient.  Dates are not
    parsed ([getFullYear] is NaN) and only integers are printed the way
    JavaScript prints them. *)

Definition isWhite (c : ascii) : bool :=
  let n := nat_of_ascii c in
  Nat.eqb n 32 || (Nat.leb 9 n && Nat.leb n 13).

Definition lowerChar (c : ascii) : ascii :=
  let n := nat_of_ascii c in
  if Nat.leb 65 n && Nat.leb n 90 then ascii_of_nat (n + 32) else c.

Fixpoint mapString (f : ascii -> ascii) (s : string) : string :=
  match s with
  | EmptyString => EmptyString
  | String c s' => String (f c) (mapString f s')
  end.

Fixpoint trimStart (s : string) : string :=
  match s with
  | String c s' => if isWhite c then trimStart s' else s
  | EmptyString => EmptyString
  end.

Fixpoint trimEnd (s : string) : string :=
  match s with
  | EmptyString => EmptyString
  | String c s' =>
      match trimEnd s' with
      | EmptyString => if isWhite c then EmptyString else String c EmptyString
      | t => String c t
      end
  end.

Definition asciiTrim (s : string) : string := trimEnd (trimStart s).

(** The separator core of [/\s*(?:,|;| and )\s*/] at the head of [s]:
    what follows it. *)
Definition afterSeparator (s : string) : option string :=
  match s with
  | String "," r | String ";" r => Some r
  | String " " (String "a" (String "n" (String "d" (String " " r)))) => Some r
  | _ => None
  end.

Fixpoint splitFrom (fuel : nat) (piece : string) (s : string) : list string :=
  match fuel with
  | O => [piece +:+ s]
  | S fuel' =>
      match afterSeparator s with
      | Some r => trimEnd piece :: splitFrom fuel' "" (trimStart r)
      | None =>
          match s with
          | EmptyString => [piece]
          | String c s' => splitFrom fuel' (piece +:+ String c EmptyString) s'
          end
      end
  end.

Definition asciiSplitAuthors (s : string) : list string :=
  splitFrom (S (String.length s)) "" s.

Definition printNumber (q : Q) : string :=
  match Qred q with
  | Qmake n 1 => pretty n
  | Qmake n d => pretty n +:+ "/" +:+ pretty (Zpos d)
  end.

Fixpoint bigrams (l : list ascii) : list (ascii * ascii) :=
  match l with
  | a :: (b :: _) as t => (a, b) :: bigrams t
  | _ => []
  end.

Definition sameBigram (x y : ascii * ascii) : bool :=
  Ascii.eqb (fst x) (fst y) && Ascii.eqb (snd x) (snd y).

(** Take one occurrence of [x] out of the bag [bag]. *)
Fixpoint takeOne (x : ascii * ascii) (bag : list (ascii * ascii))
  : option (list (ascii * ascii)) :=
  match bag with
  | [] => None
  | y :: bag' =>
      if sameBigram x y then Some bag'
      else cons y <$> takeOne x bag'
  end.

Fixpoint intersectionSize (firstBigrams second : list (ascii * ascii)) : nat :=
  match second with
  | [] => 0
  | x :: rest =>
      match takeOne x firstBigrams with
      | Some remaining => S (intersectionSize remaining rest)
      | None => intersectionSize firstBigrams rest
      end
  end.

Definition withoutSpaces (s : string) : list ascii :=
  List.filter (fun c => negb (isWhite c)) (list_ascii_of_string s).

Definition diceCoefficient (first second : string) : Q :=
  let f := withoutSpaces first in
  let s := withoutSpaces second in
  if String.eqb (string_of_list_ascii f) (string_of_list_ascii s) then 1%Q
  else if (length f <? 2)%nat || (length s <? 2)%nat then 0%Q
  else (inject_Z (2 * Z.of_nat (intersectionSize (bigrams f) (bigrams s)))
        / inject_Z (Z.of_nat (length f + length s - 2)))%Q.

Definition asciiRuntime : Runtime :=
  {| toLowerCase := mapString lowerChar;
     trim := asciiTrim;
     numberToString := printNumber;
     splitAuthors := asciiSplitAuthors;
     getFullYear := fun _ => None;
     compareTwoStrings := diceCoefficient |}.

(** ** Data for the examples *)

Definition obj (l : list (string * jsval)) : item := list_to_map l.

Definition defaultGlobal : GlobalConfig :=
  {| titleWeight := Some 60%Q;
     similarityThreshold := Some 30%Q;
     allowBooks := None;
     allowAudiobooks := None;
     mergeBestResults := true;
     mergePreferences := ∅ |}.

Definition defaultConfig : Config :=
  {| global := defaultGlobal; providers := ∅ |}.

(** A snippet for the query [Dune] with the author parameter [" "]. *)
Definition duneSnippet : item :=
  obj [("id", JStr "1"); ("title", JStr "Dune");
       ("authors", JArr [JStr "Frank Herbert"])].

(** ** Notions used to state the properties *)

(** [acc[p]], or the empty list when [acc] has no key [p]. *)
Fixpoint lookupGroup (p : string) (acc : list (string * list item))
  : list item :=
  match acc with
  | [] => []
  | (k, g) :: acc' => if String.eqb p k then g else lookupGroup p acc'
  end.

(** A candidate that went through the scorer: its similarity is a number. *)
Definition hasSimilarity (m : item) : Prop :=
  isNumber (get m "similarity") = true.

Definition similarityOf (m : item) : Q := numOrZero (get m "similarity").

(** Similarity never increases along the list. *)
Definition descending (l : list item) : Prop :=
  StronglySorted (fun a b => similarityOf b <= similarityOf a)%Q l.

(** Provider [A] capped at one result, and two scored candidates of [A]. *)
Definition cappedConfig : Config :=
  {| global := defaultGlobal;
     providers :=
       {[ "A" := {| priority := Some 10%Q; maxResults := Some 1%Q;
                    concurrency := None |} ]} |}.

Definition candidateA1 : item :=
  obj [("id", JStr "a1"); ("title", JStr "Dune"); ("_provider", JStr "A");
       ("_providerPriority", JNum 10); ("similarity", JNum (8 # 10))].

Definition candidateA2 : item :=
  obj [("id", JStr "a2"); ("title", JStr "Dune Messiah");
       ("_provider", JStr "A"); ("_providerPriority", JNum 10);
       ("similarity", JNum (9 # 10))].

(** Two results with the same three keys. *)
Definition twinX : item :=
  obj [("id", JStr "x"); ("title", JStr "Dune"); ("type", JStr "book");
       ("_provider", JStr "A"); ("_providerPriority", JNum 5);
       ("similarity", JNum 1)].

Definition twinY : item :=
  obj [("id", JStr "y"); ("title", JStr "Dune"); ("type", JStr "book");
       ("_provider", JStr "B"); ("_providerPriority", JNum 5);
       ("similarity", JNum 1)].

(** What [mapWithConcurrency] is to return: slot [i] holds the iterator's
    result on [items[i]], or [null] where the call threw. *)
Definition expectedResults {A B : Type} (items : list A)
    (iteratorFn : A -> option B) (null : B) : list (option B) :=
  map (fun x => Some (stored iteratorFn null x)) items.

(** The states a run of the workers can be in. *)
Definition poolReachable {A B : Type} (items : list A)
    (iteratorFn : A -> option B) (null : B) (limit : nat) (st : pool B)
  : Prop :=
  rtc (poolStep items iteratorFn null) (poolInit items limit) st.

(** What holds of every reachable state. *)
Record poolInv {A B : Type} (items : list A) (iteratorFn : A -> option B)
    (null : B) (limit : nat) (st : pool B) : Prop := {
  inv_results : length (results st) = length items;
  inv_workers : length (workers st) = Nat.min limit (length items);
  inv_calls : calls st = seq 0 (Nat.min (cursor st) (length items));
  inv_called :
    forall idx, (idx < length items)%nat -> (idx < cursor st)%nat ->
      results st !! idx
      = (fun x => Some (stored iteratorFn null x)) <$> items !! idx
      \/ (results st !! idx = Some None
          /\ exists k, workers st !! k = Some (Awaiting idx));
  inv_pending :
    forall idx, (idx < length items)%nat -> (cursor st <= idx)%nat ->
      results st !! idx = Some None;
  inv_awaiting :
    forall k idx, workers st !! k = Some (Awaiting idx) ->
      (idx < cursor st)%nat /\ (idx < length items)%nat;
  inv_returned :
    forall k, workers st !! k = Some Returned ->
      (length items <= cursor st)%nat;
}.

(** What the fetch of one candidate contributes: the full record, nothing
    when the fetch throws or returns a falsy value, the candidate itself
    when the provider has no [getFullMetadata]. *)
Definition fetched (inst : Instance) (m : item) : option item :=
  match getFullMetadata inst with
  | Some fetch =>
      match fetch m with
      | Some (Some full) => Some full
      | Some None | None => None
      end
  | None => Some m
  end.

(** A provider with the worker pool whose detail fetch fails for the
    candidate [a1] and adds a narrator to any other. *)
Definition flakyInstance : Instance :=
  {| hasMapWithConcurrency := true;
     getFullMetadata :=
       Some (fun m =>
               if strictEq (get m "id") (JStr "a1") then None
               else Some (Some (<["narrator" := JStr "Scott Brick"]> m))) |}.

(** The largest similarity in a list of results, and the number of results
    within [EPS] of it. *)
Definition maxSimilarity (l : list item) : Q :=
  match l with
  | [] => 0%Q
  | x :: xs => mathMax (similarityOf x) (map similarityOf xs)
  end.

Definition withinEps (top : Q) (m : item) : bool :=
  Qle_bool (Qabs (similarityOf m - top)) EPS.

Definition tieCount (l : list item) : nat :=
  length (List.filter (withinEps (maxSimilarity l)) l).

Definition isMerged (m : item) : Prop := get m "_provider" = JStr "merged".

(** The value a key ends up with after a run of assignments. *)
Fixpoint overrides (kvs : list (string * jsval)) (k : string) (d : jsval)
  : jsval :=
  match kvs with
  | [] => d
  | (k', v) :: rest => overrides rest k (if String.eqb k k' then v else d)
  end.

(** The (provider, id) pair of a tie-group member. *)
Definition providerAndId (i : item) : jsval * jsval :=
  (get i "_provider", orElse (orElse (get i "id") (get i "_id")) JNull).

(** Tied results of providers [A] (priority 10, no cover) and [B]
    (priority 5, with a cover), and a configuration that prefers [B] for
    the cover. *)
Definition preferCoverB : Config :=
  {| global :=
       {| titleWeight := Some 60%Q;
          similarityThreshold := Some 30%Q;
          allowBooks := None;
          allowAudiobooks := None;
          mergeBestResults := true;
          mergePreferences := {[ "cover" := "B" ]} |};
     providers := ∅ |}.

Definition resultA : item :=
  obj [("id", JStr "a"); ("title", JStr "Dune");
       ("authors", JArr [JStr "Frank Herbert"]);
       ("identifiers", JObj [("isbn", JStr "9780441013593")]);
       ("_provider", JStr "A"); ("_providerPriority", JNum 10);
       ("similarity", JNum 1)].

Definition resultB : item :=
  obj [("id", JStr "b"); ("title", JStr "Dune");
       ("authors", JArr [JStr "Frank Herbert"]);
       ("cover", JStr "https://b.example/dune.jpg");
       ("_provider", JStr "B"); ("_providerPriority", JNum 5);
       ("similarity", JNum 1)].

(** Tied results with the same title and authors and no other metadata. *)
Definition plainA : item :=
  obj [("title", JStr "Dune"); ("authors", JArr [JStr "Frank Herbert"]);
       ("_provider", JStr "A"); ("_providerPriority", JNum 0);
       ("similarity", JNum 1)].

Definition plainB : item :=
  obj [("title", JStr "Dune"); ("authors", JArr [JStr "Frank Herbert"]);
       ("_provider", JStr "B"); ("_providerPriority", JNum 0);
       ("similarity", JNum 1)].

(** Two results of one provider under one id (lubimyczytac takes the id
    from the last segment of the book's address), tied at the top. *)
Definition editionAudio : item :=
  obj [("id", JStr "dune"); ("title", JStr "Dune"); ("type", JStr "audiobook");
       ("authors", JArr [JStr "Frank Herbert"]);
       ("identifiers", JObj [("lubimyczytac", JStr "dune")]);
       ("_provider", JStr "lubimyczytac"); ("_providerPriority", JNum 0);
       ("similarity", JNum 1)].

Definition editionBook : item :=
  obj [("id", JStr "dune"); ("title", JStr "Dune"); ("type", JStr "book");
       ("authors", JArr [JStr "Frank Herbert"]);
       ("cover", JStr "https://lubimyczytac.example/dune.jpg");
       ("identifiers", JObj [("lubimyczytac", JStr "dune")]);
       ("_provider", JStr "lubimyczytac"); ("_providerPriority", JNum 0);
       ("similarity", JNum 1)].

(** A provider without the worker pool whose detail fetch adds a cover. *)
Definition coverInstance : Instance :=
  {| hasMapWithConcurrency := false;
     getFullMetadata :=
       Some (fun m =>
               Some (Some (<["cover" := JStr "https://a.example/c.jpg"]> m))) |}.

(** What provider [A] answers to the query [Dune]. *)
Definition duneAnswers : list (string * option (list item)) :=
  [("A", Some [obj [("id", JStr "a1"); ("title", JStr "Dune");
                    ("author", JStr "Frank Herbert")];
               obj [("id", JStr "a2"); ("title", JStr "Dune Messiah");
                    ("authors", JArr [JStr "Frank Herbert"])]]);
   ("B", None)].

(** ** Provider code around the pipeline

    [cleanCoverUrl] and [parseDuration] of the Audioteka provider,
    [stripHtmlTags] and the ordering of the matches in
    [LubimyCzytacProvider.searchBooks].  Strings are strings of ASCII
    characters; on those [\d] is [isDigit] and [\s] is [isWhite]. *)

(** [s.split('?')[0]]: what stands before the first [?]. *)
Fixpoint beforeQuestion (s : string) : string :=
  match s with
  | EmptyString => EmptyString
  | String c s' =>
      if Ascii.eqb c "?" then EmptyString else String c (beforeQuestion s')
  end.

(** [cleanCoverUrl(url)]; [None]: [url.split] is not a function. *)
Definition cleanCoverUrl (url : jsval) : option jsval :=
  if truthy url then
    match url with
    | JStr s => Some (JStr (beforeQuestion s))
    | _ => None
    end
  else Some url.








(** [html.replace(/<[^>]*>/g, '')]: a [<] opens a match when a [>]
    follows somewhere, and the match ends at the first one. *)
Fixpoint hasClose (s : string) : bool :=
  match s with
  | EmptyString => false
  | String c s' => Ascii.eqb c ">" || hasClose s'
  end.

Fixpoint stripFrom (inTag : bool) (s : string) : string :=
  match s with
  | EmptyString => EmptyString
  | String c s' =>
      if inTag
      then if Ascii.eqb c ">" then stripFrom false s' else stripFrom true s'
      else if Ascii.eqb c "<" && hasClose s' then stripFrom true s'
      else String c (stripFrom false s')
  end.

Definition stripHtmlTags (html : string) : string := stripFrom false html.

(** The comparator of both sorts in [LubimyCzytacProvider.searchBooks]. *)
Definition typeValue (m : item) : Z :=
  if strictEq (get m "type") (JStr "audiobook") then 1%Z else 0%Z.

Definition compareMatches (a b : item) : option Q :=
  if negb (strictEq (get b "similarity") (get a "similarity"))
  then jsSub (get b "similarity") (get a "similarity")
  else Some (inject_Z (typeValue b - typeValue a)).

(** [allMatches.map(score).sort(...).slice(0, 20)], after the scoring. *)
Definition bestMatches (scoredMatches : list item) : list item :=
  take 20 (jsSort compareMatches scoredMatches).



(** ** Further notions used to state the properties *)

(** The indices whose call to [iteratorFn] is in progress. *)
Definition inFlight {B : Type} (st : pool B) : list nat :=
  omap (fun w => match w with Awaiting idx => Some idx | _ => None end)
       (workers st).

(** [config] with [mergePreferences[field] = provider]. *)
Definition withPreference (field provider : string) (config : Config)
  : Config :=
  {| global :=
       {| titleWeight := titleWeight (global config);
          similarityThreshold := similarityThreshold (global config);
          allowBooks := allowBooks (global config);
          allowAudiobooks := allowAudiobooks (global config);
          mergeBestResults := mergeBestResults (global config);
          mergePreferences :=
            <[field := provider]> (mergePreferences (global config)) |};
     providers := providers config |}.

(** The entries of the [identifiers] objects of a group, in the order the
    merge visits them. *)
Definition identifierEntries (sortedGroup : list item)
  : list (string * jsval) :=
  concat (map (fun it =>
                 if truthy (get it "identifiers")
                    && isObject (get it "identifiers")
                 then entries (get it "identifiers") else [])
              sortedGroup).

(** The names every object inherits from [Object.prototype]: [o[k]] is
    truthy for them on any object, which the embedding of objects as
    lists of their own properties does not show. *)
Definition inheritedNames : list string :=
  ["constructor"; "__proto__"; "hasOwnProperty"; "isPrototypeOf";
   "propertyIsEnumerable"; "toLocaleString"; "toString"; "valueOf";
   "__defineGetter__"; "__defineSetter__"; "__lookupGetter__";
   "__lookupSetter__"].

Definition ownName (k : string) : bool :=
  negb (existsb (String.eqb k) inheritedNames).

(** The first truthy value stored under [k]. *)
Definition firstTruthy (k : string) (kvs : list (string * jsval)) : jsval :=
  match List.find (fun kv => String.eqb k (fst kv) && truthy (snd kv)) kvs with
  | Some kv => snd kv
  | None => JUndefined
  end.

(** The order of [sortedGroup]: higher priority first, then more of the
    counted fields. *)
Definition richerFirst (a b : item) : Prop :=
  (priorityOf b < priorityOf a)%Q
  \/ (priorityOf b == priorityOf a /\ (countNonEmpty b <= countNonEmpty a)%Z).

(** An array of non-empty strings. *)
Definition nonEmptyStrings (v : jsval) : Prop :=
  exists l, v = JArr (map JStr l) /\ Forall (fun s => s <> "") l.

(** Every character of [s] is in the class [p]. *)
Fixpoint allIn (p : ascii -> bool) (s : string) : bool :=
  match s with
  | EmptyString => true
  | String c s' => p c && allIn p s'
  end.

(** [s] does not go on with a character of the class [p]. *)
Definition stopsAt (p : ascii -> bool) (s : string) : bool :=
  match s with
  | EmptyString => true
  | String c _ => negb (p c)
  end.


(** No [<] of [s] has a [>] after it: [s] holds no tag. *)
Fixpoint noTag (s : string) : bool :=
  match s with
  | EmptyString => true
  | String c s' => negb (Ascii.eqb c "<" && hasClose s') && noTag s'
  end.

(** The order of the matches of the lubimyczytac provider: higher
    similarity first, audiobooks first among equals. *)
Definition matchBefore (a b : item) : Prop :=
  (similarityOf b < similarityOf a)%Q
  \/ (similarityOf b == similarityOf a /\ (typeValue b <= typeValue a)%Z).

(** Tied results whose genres differ in case and spacing. *)
Definition genresA : item :=
  obj [("title", JStr "Dune");
       ("genres", JArr [JStr "Sci-Fi"; JStr " Classic "]);
       ("_provider", JStr "A"); ("_providerPriority", JNum 10);
       ("similarity", JNum 1)].

Definition genresB : item :=
  obj [("title", JStr "Dune"); ("genres", JArr [JStr "sci-fi"; JStr ""]);
       ("_provider", JStr "B"); ("_providerPriority", JNum 5);
       ("similarity", JNum 1)].

(** Tied results that name their series by a string, as the lubimyczytac
    provider does. *)
Definition seriesA : item :=
  obj [("title", JStr "Dune"); ("series", JStr "Dune Chronicles");
       ("seriesIndex", JNum 1);
       ("_provider", JStr "A"); ("_providerPriority", JNum 10);
       ("similarity", JNum 1)].

Definition seriesB : item :=
  obj [("title", JStr "Dune"); ("series", JStr "Dune Chronicles");
       ("_provider", JStr "B"); ("_providerPriority", JNum 5);
       ("similarity", JNum 1)].

(** A configuration that prefers a provider [C] for the genres. *)
Definition preferGenresC : Config :=
  {| global :=
       {| titleWeight := Some 60%Q;
          similarityThreshold := Some 30%Q;
          allowBooks := None;
          allowAudiobooks := None;
          mergeBestResults := true;
          mergePreferences := {[ "genres" := "C" ]} |};
     providers := ∅ |}.


(** A result whose [authors] is a string and that has no [author]. *)
Definition stringAuthors : item :=
  obj [("title", JStr "Dune"); ("authors", JStr "Frank Herbert");
       ("_provider", JStr "A"); ("_providerPriority", JNum 0);
       ("similarity", JNum 1)].

(** The keys of [mergePreferences] that the merge reads. *)
Definition readPreferences : list string :=
  ["title"; "subtitle"; "authors"; "narrator"; "description"; "cover";
   "type"; "id"; "url"; "source"; "publisher"; "rating"; "duration";
   "identifiers"; "publishedYear"; "language"; "series"; "genres"; "tags"].

Definition isRead (field : string) : bool :=
  existsb (String.eqb field) readPreferences.

(** A state of the pool on three items with both of its two workers
    waiting for their calls. *)
Definition twoInFlight : pool nat :=
  {| results := [None; None; None]; cursor := 2;
     workers := [Awaiting 0; Awaiting 1]; calls := [0; 1]%nat |}.

(** * Theorems *)

(** The handler on the answers to [Dune] by [herbert]: provider [A] is
    capped at one result, so only its best match is fetched and sent;
    its similarity is [0.6 * 1 + 0.4 * 12/17]. *)
Example search_dune :
  map (fun m : item =>
         map (get m) ["id"; "title"; "author"; "cover"; "similarity";
                      "_provider"])
    <$> search (rt := asciiRuntime) cappedConfig [("A", coverInstance)]
          "Dune" (Some "herbert") duneAnswers
  = Some [[JStr "a1"; JStr "Dune"; JStr "Frank Herbert";
           JStr "https://a.example/c.jpg"; JNum (150000 # 170000);
           JStr "A"]].
Proof. vm_compute. reflexivity. Qed.


(** ** Facts about [jsSort] *)

Section JsSortFacts.
Context {A : Type}.
Variable comparator : A -> A -> option Q.
Local Abbreviation precedes := (before comparator).

Lemma insertSorted_perm (x : A) (s : list A) :
  Permutation (insertSorted comparator x s) (x :: s).
Proof.
  induction s as [|y s IH]; simpl.
  - reflexivity.
  - destruct (Qle_bool (sortCompare comparator x y) 0).
    + reflexivity.
    + rewrite IH. apply perm_swap.
Qed.

Lemma jsSort_perm (l : list A) : Permutation (jsSort comparator l) l.
Proof.
  induction l as [|x l IH]; simpl.
  - reflexivity.
  - rewrite insertSorted_perm. now constructor.
Qed.

Lemma jsSort_length (l : list A) : length (jsSort comparator l) = length l.
Proof. apply Permutation_length, jsSort_perm. Qed.

Lemma jsSort_In (x : A) (l : list A) : In x (jsSort comparator l) <-> In x l.
Proof.
  split; apply Permutation_in; [|symmetry]; apply jsSort_perm.
Qed.

(** Stability: elements that the comparator does not separate keep their
    input order. *)
Lemma insertSorted_filter (P : A -> bool) (x : A) (s : list A) :
  (forall y, P x = true -> P y = true -> precedes x y) ->
  List.filter P (insertSorted comparator x s) = List.filter P (x :: s).
Proof.
  intros HP. induction s as [|y s IH]; simpl.
  - reflexivity.
  - destruct (Qle_bool (sortCompare comparator x y) 0) eqn:E.
    + reflexivity.
    + simpl. rewrite IH. simpl.
      destruct (P x) eqn:Px, (P y) eqn:Py; try reflexivity.
      exfalso. specialize (HP y eq_refl Py). unfold before in HP.
      apply Qle_bool_iff in HP. congruence.
Qed.

Lemma jsSort_stable (P : A -> bool) (l : list A) :
  (forall x y, P x = true -> P y = true -> precedes x y) ->
  List.filter P (jsSort comparator l) = List.filter P l.
Proof.
  intros HP. induction l as [|x l IH]; simpl.
  - reflexivity.
  - rewrite insertSorted_filter by (intros; now apply HP).
    simpl. now rewrite IH.
Qed.

(** Sortedness, for a comparator that is consistent on the elements that
    satisfy [ok]. *)
Variable ok : A -> Prop.
Hypothesis before_total :
  forall a b, ok a -> ok b -> ~ precedes a b -> precedes b a.
Hypothesis before_trans :
  forall a b c,
    ok a -> ok b -> ok c -> precedes a b -> precedes b c -> precedes a c.

Lemma insertSorted_Forall (Q : A -> Prop) (x : A) (s : list A) :
  Q x -> Forall Q s -> Forall Q (insertSorted comparator x s).
Proof.
  intros Hx Hs. eapply Permutation_Forall.
  - symmetry. apply insertSorted_perm.
  - now constructor.
Qed.

Lemma insertSorted_sorted (x : A) (s : list A) :
  ok x -> Forall ok s ->
  StronglySorted precedes s ->
  StronglySorted precedes (insertSorted comparator x s).
Proof.
  intros Hx Hok Hs. induction Hs as [|y s Hs IH Hy]; simpl.
  - repeat constructor.
  - inversion Hok as [|? ? Oy Os]; subst.
    destruct (Qle_bool (sortCompare comparator x y) 0) eqn:E.
    + apply Qle_bool_iff in E. constructor.
      * now constructor.
      * constructor; [exact E|].
        rewrite List.Forall_forall in *. intros z Hz.
        apply (before_trans x y z); auto. 
    + assert (Hyx : precedes y x).
      { apply before_total; auto. intros Hb. apply Qle_bool_iff in Hb.
        congruence. }
      constructor.
      * now apply IH.
      * apply insertSorted_Forall; assumption.
Qed.

Lemma jsSort_sorted (l : list A) :
  Forall ok l -> StronglySorted precedes (jsSort comparator l).
Proof.
  induction 1 as [|x l Hx Hl IH]; simpl.
  - constructor.
  - apply insertSorted_sorted; auto.
    eapply Permutation_Forall; [symmetry; apply jsSort_perm|assumption].
Qed.

End JsSortFacts.

(** ** The scorer *)

Section ScoringFacts.
Context {rt : Runtime}.
Variable config : Config.

Lemma normalizeSnippet_authors (m : item) :
  exists l, get (normalizeSnippet m) "authors" = JArr (map JStr l).
Proof.
  unfold normalizeSnippet.
  repeat case_match;
    first [ exists []; unfold get; rewrite lookup_insert_eq; reflexivity
          | eexists; unfold get; rewrite lookup_insert_eq; reflexivity ].
Qed.

Lemma authorSims_strings (ca : string) (l : list string) :
  authorSims ca (map JStr l)
  = Some (map (fun s => compareTwoStrings (toLowerCase s) ca) l).
Proof.
  unfold authorSims. induction l as [|s l IH]; simpl.
  - reflexivity.
  - assert (E : lowerOrThrow (JStr s) = Some (toLowerCase s)).
    { unfold lowerOrThrow, orElse. simpl.
      destruct (String.eqb s "") eqn:Es; simpl; [|reflexivity].
      apply String.eqb_eq in Es. now subst. }
    rewrite E. simpl. rewrite IH. reflexivity.
Qed.

Lemma authorStrings_strings (m : item) (l : list string) :
  get m "authors" = JArr (map JStr l) -> authorStrings m = l.
Proof.
  intros E. unfold authorStrings. rewrite E.
  change (elems (JArr (map JStr l))) with (map JStr l). clear E.
  induction l as [|s l IH]; [reflexivity|].
  cbn. cbn in IH. congruence.
Qed.

Lemma combinedSimilarity_spec (q : string) (author : option string) (m : item)
    (l : list string) :
  get m "authors" = JArr (map JStr l) ->
  combinedSimilarity config q author m = Some (scoreSpec config q author m).
Proof.
  intros E. unfold combinedSimilarity, scoreSpec.
  rewrite (authorStrings_strings m l E), E. simpl.
  destruct l as [|x xs]; simpl.
  - rewrite !andb_false_r. reflexivity.
  - rewrite andb_true_r.
    destruct (nonEmpty (cleanedAuthor author)); simpl; [|reflexivity].
    pose proof (authorSims_strings (cleanedAuthor author) (x :: xs)) as Hs.
    simpl in Hs. rewrite Hs. simpl. reflexivity.
Qed.

Lemma mathMax_range (lo hi x : Q) (xs : list Q) :
  (lo <= x <= hi)%Q -> Forall (fun y => lo <= y <= hi)%Q xs ->
  (lo <= mathMax x xs <= hi)%Q.
Proof.
  unfold mathMax. intros Hx Hxs. revert x Hx.
  induction Hxs as [|y xs Hy Hxs IH]; intros x Hx; simpl.
  - exact Hx.
  - apply IH. destruct (Q.max_spec x y) as [[_ E]|[_ E]]; rewrite E; assumption.
Qed.

Lemma titleWeightFraction_range :
  (forall w, titleWeight (global config) = Some w -> 0 <= w <= 100)%Q ->
  (0 <= titleWeightFraction config <= 1)%Q.
Proof.
  intros Hw. unfold titleWeightFraction.
  destruct (titleWeight (global config)) as [w|].
  - specialize (Hw w eq_refl). unfold Qdiv.
    assert (E : (/ 100 == 1 # 100)%Q) by reflexivity.
    rewrite E. split; lra.
  - split; lra.
Qed.

Lemma scoreSpec_range (q : string) (author : option string) (m : item) :
  (forall a b, 0 <= compareTwoStrings a b <= 1)%Q ->
  (forall w, titleWeight (global config) = Some w -> 0 <= w <= 100)%Q ->
  (0 <= scoreSpec config q author m <= 1)%Q.
Proof.
  intros Hm Hw. pose proof (titleWeightFraction_range Hw) as Ht.
  unfold scoreSpec, titleSimOf.
  destruct (authorStrings m) as [|x xs]; [apply Hm|].
  destruct (nonEmpty (cleanedAuthor author)); [|apply Hm].
  set (t := compareTwoStrings _ (toLowerCase (trim q))).
  set (a := mathMax _ _).
  assert (Ha : (0 <= a <= 1)%Q).
  { apply mathMax_range; [apply Hm|].
    apply List.Forall_forall. intros y Hy. apply in_map_iff in Hy.
    destruct Hy as [z [<- _]]. apply Hm. }
  assert (Htt : (0 <= t <= 1)%Q) by apply Hm.
  set (w := titleWeightFraction config) in *.
  split; nra.
Qed.

Lemma adjustedSimilarity_range (s : Q) (r : item) :
  (0 <= s <= 1)%Q -> (0 <= adjustedSimilarity s r <= 1)%Q.
Proof.
  intros Hs. unfold adjustedSimilarity. destruct (missingIsbn r); [|exact Hs].
  split; lra.
Qed.

End ScoringFacts.

(** The bigram coefficient stays between 0 and 1. *)
Lemma takeOne_length (x : ascii * ascii)
    (bag remaining : list (ascii * ascii)) :
  takeOne x bag = Some remaining -> length bag = S (length remaining).
Proof.
  revert remaining. induction bag as [|y bag IH]; intros remaining; simpl.
  - discriminate.
  - destruct (sameBigram x y).
    + intros [= <-]. reflexivity.
    + destruct (takeOne x bag) as [r|]; simpl; [|discriminate].
      intros [= <-]. simpl. now rewrite (IH r eq_refl).
Qed.

Lemma intersectionSize_le (firstBigrams second : list (ascii * ascii)) :
  (intersectionSize firstBigrams second <= length firstBigrams)%nat
  /\ (intersectionSize firstBigrams second <= length second)%nat.
Proof.
  revert firstBigrams.
  induction second as [|x rest IH]; intros firstBigrams; simpl.
  - split; lia.
  - destruct (takeOne x firstBigrams) as [r|] eqn:E.
    + apply takeOne_length in E. destruct (IH r). split; lia.
    + destruct (IH firstBigrams). split; lia.
Qed.

Lemma bigrams_length (l : list ascii) : length (bigrams l) = (length l - 1)%nat.
Proof.
  induction l as [|a [|b l] IH]; simpl in *; try reflexivity.
  rewrite IH. lia.
Qed.

Lemma diceCoefficient_range (a b : string) :
  (0 <= diceCoefficient a b <= 1)%Q.
Proof.
  unfold diceCoefficient.
  set (f := withoutSpaces a). set (s := withoutSpaces b).
  destruct (String.eqb _ _); [split; lra|].
  destruct ((length f <? 2)%nat || (length s <? 2)%nat) eqn:E; [split; lra|].
  apply orb_false_elim in E. destruct E as [E1 E2].
  apply Nat.ltb_ge in E1, E2.
  pose proof (intersectionSize_le (bigrams f) (bigrams s)) as [H1 H2].
  rewrite bigrams_length in H1, H2.
  set (k := intersectionSize (bigrams f) (bigrams s)) in *.
  assert (Hd : (0 < inject_Z (Z.of_nat (length f + length s - 2)))%Q).
  { replace 0%Q with (inject_Z 0) by reflexivity. rewrite <- Zlt_Qlt. lia. }
  split.
  - apply Qle_shift_div_l; [exact Hd|]. rewrite Qmult_0_l.
    replace 0%Q with (inject_Z 0) by reflexivity. rewrite <- Zle_Qle. lia.
  - apply Qle_shift_div_r; [exact Hd|]. rewrite Qmult_1_l.
    rewrite <- Zle_Qle. lia.
Qed.

(** C2 (as amended): on every snippet, after the normalization of its
    authors, scoring returns (it never throws, whatever the title and the
    authors are or are not) and the similarity is
    [compareTwoStrings(lowercase(title), lowercase(trim(query)))] when the
    trimmed, lowercased query author is empty or the snippet has no
    authors, and otherwise
    [titleWeight*titleSim + (1-titleWeight)*authorSim] with [authorSim] the
    maximum of [compareTwoStrings(lowercase(a), lowercase(trim(author)))]
    over the snippet's authors and [titleWeight] the configured value
    divided by 100, or 0.6 when none is configured. *)
Theorem score_is_weighted_similarity {rt : Runtime} (config : Config)
    (q : string) (author : option string) (m : item) :
  scoreSnippet config q author (normalizeSnippet m)
  = Some (<["similarity" :=
              JNum (scoreSpec config q author (normalizeSnippet m))]>
            (normalizeSnippet m)).
Proof.
  destruct (normalizeSnippet_authors m) as [l Hl].
  unfold scoreSnippet.
  rewrite (combinedSimilarity_spec config q author _ l Hl). reflexivity.
Qed.

(** C2 as stated fails: for the query [Dune] with the author parameter
    [" "] (one space), the handler trims the author to the empty string
    and scores by title alone (similarity 1), where the untrimmed reading
    weighs in an author similarity of 0 (similarity 0.6). *)
Lemma score_untrimmed_differs :
  combinedSimilarity (rt := asciiRuntime) defaultConfig "Dune" (Some " ")
    (normalizeSnippet (rt := asciiRuntime) duneSnippet) = Some 1%Q
  /\ ~ (scoreUntrimmed (rt := asciiRuntime) defaultConfig "Dune" (Some " ")
          (normalizeSnippet (rt := asciiRuntime) duneSnippet) == 1)%Q.
Proof.
  split.
  - vm_compute. reflexivity.
  - vm_compute. discriminate.
Qed.

(** C3: with a string metric that returns values in [0,1] and a configured
    [titleWeight] in [0,100], the similarity computed for any snippet lies
    in [0,1], and the lubimyczytac provider's multiplication by 0.99 for
    items without an ISBN keeps a similarity in [0,1] there. *)
Theorem similarity_in_unit_interval {rt : Runtime} (config : Config)
    (q : string) (author : option string) (m : item) :
  (forall a b, 0 <= compareTwoStrings a b <= 1)%Q ->
  (forall w, titleWeight (global config) = Some w -> 0 <= w <= 100)%Q ->
  exists s,
    combinedSimilarity config q author (normalizeSnippet m) = Some s
    /\ (0 <= s <= 1)%Q
    /\ forall r : item, (0 <= adjustedSimilarity s r <= 1)%Q.
Proof.
  intros Hm Hw. destruct (normalizeSnippet_authors m) as [l Hl].
  exists (scoreSpec config q author (normalizeSnippet m)).
  assert (Hs := scoreSpec_range config q author (normalizeSnippet m) Hm Hw).
  split; [now apply (combinedSimilarity_spec config q author _ l)|].
  split; [exact Hs|]. intros r. now apply adjustedSimilarity_range.
Qed.

Lemma similarity_in_unit_interval_witness :
  exists s,
    combinedSimilarity (rt := asciiRuntime) defaultConfig "Dune"
      (Some "Herbert") (normalizeSnippet (rt := asciiRuntime) duneSnippet)
    = Some s
    /\ (0 <= s <= 1)%Q
    /\ forall r : item, (0 <= adjustedSimilarity s r <= 1)%Q.
Proof.
  apply (similarity_in_unit_interval (rt := asciiRuntime) defaultConfig
           "Dune" (Some "Herbert") duneSnippet).
  - exact diceCoefficient_range.
  - intros w E. injection E as <-. split; [lra|lra].
Defined.

(** ** The candidate selector *)

Section SelectionFacts.
Context {rt : Runtime}.
Variable config : Config.

Lemma lookupGroup_groupPush (p k : string) (m : item)
    (acc : list (string * list item)) :
  lookupGroup p (groupPush acc k m)
  = if String.eqb p k then lookupGroup p acc ++ [m] else lookupGroup p acc.
Proof.
  induction acc as [|[k' g] acc IH]; simpl.
  - destruct (String.eqb p k); reflexivity.
  - destruct (String.eqb_spec k k') as [->|Hk]; simpl.
    + destruct (String.eqb p k'); reflexivity.
    + destruct (String.eqb_spec p k') as [->|Hp].
      * destruct (String.eqb_spec k' k) as [->|_]; [congruence|reflexivity].
      * exact IH.
Qed.

Lemma groupByProvider_snoc (l : list item) (m : item) :
  groupByProvider (l ++ [m])
  = groupPush (groupByProvider l) (providerKey m) m.
Proof. unfold groupByProvider. now rewrite fold_left_app. Qed.

Lemma fromProvider_app (p : string) (l1 l2 : list item) :
  fromProvider p (l1 ++ l2) = fromProvider p l1 ++ fromProvider p l2.
Proof. unfold fromProvider. apply List.filter_app. Qed.

(** The group stored under [p] holds the items of [p], in input order. *)
Lemma lookupGroup_groupByProvider (p : string) (l : list item) :
  lookupGroup p (groupByProvider l) = fromProvider p l.
Proof.
  induction l as [|m l IH] using rev_ind.
  - reflexivity.
  - rewrite groupByProvider_snoc, lookupGroup_groupPush, fromProvider_app, IH.
    change (fromProvider p [m])
      with (if String.eqb (providerKey m) p then [m] else []).
    rewrite (String.eqb_sym p (providerKey m)).
    destruct (String.eqb (providerKey m) p); [reflexivity|].
    now rewrite app_nil_r.
Qed.

Lemma groupPush_keys (acc : list (string * list item)) (m : item) :
  List.NoDup (map fst acc) -> keyed acc ->
  List.NoDup (map fst (groupPush acc (providerKey m) m))
  /\ keyed (groupPush acc (providerKey m) m).
Proof.
  unfold keyed. set (k := providerKey m).
  assert (Hin : forall acc k', In k' (map fst (groupPush acc k m)) ->
                               k' = k \/ In k' (map fst acc)).
  { clear. induction acc as [|[k1 g] acc IH]; simpl; intros k' Hk'.
    - destruct Hk' as [<-|[]]. now left.
    - destruct (String.eqb k k1); simpl in Hk'; [now right|].
      destruct Hk' as [<-|Hk']; [right; now left|].
      destruct (IH _ Hk'); auto. }
  induction acc as [|[k1 g] acc IH]; simpl; intros Hnd Hk.
  - split; [repeat constructor; intros []|].
    repeat constructor.
  - inversion Hnd as [|? ? Hnot Hnd']; subst.
    inversion Hk as [|? ? Hg Hk']; subst.
    destruct (String.eqb_spec k k1) as [<-|Hne]; simpl.
    + split; [exact Hnd|]. constructor; [|exact Hk']. simpl in *.
      apply Forall_app; split; [exact Hg|]. now repeat constructor.
    + destruct (IH Hnd' Hk') as [IH1 IH2]. split.
      * constructor; [|exact IH1]. intros Hc.
        destruct (Hin _ _ Hc) as [->|Hc']; [now apply Hne|now apply Hnot].
      * constructor; assumption.
Qed.

Lemma groupByProvider_keys (l : list item) :
  List.NoDup (map fst (groupByProvider l)) /\ keyed (groupByProvider l).
Proof.
  induction l as [|m l [IH1 IH2]] using rev_ind.
  - split; constructor.
  - rewrite groupByProvider_snoc. now apply groupPush_keys.
Qed.

Lemma capList_keyed (p : string) (g : list item) :
  Forall (fun m => providerKey m = p) g ->
  Forall (fun m => providerKey m = p) (capList config p g).
Proof.
  intros Hg. unfold capList, capGroup, sliceTo. simpl.
  assert (Hs : Forall (fun m => providerKey m = p)
                      (jsSort bySimilarityDesc g)).
  { eapply Permutation_Forall; [symmetry; apply jsSort_perm|exact Hg]. }
  destruct (negb _); [|exact Hs].
  now apply Forall_take.
Qed.

Lemma fromProvider_all (p : string) (g : list item) :
  Forall (fun m => providerKey m = p) g -> fromProvider p g = g.
Proof.
  induction 1 as [|m g Hm Hg IH]; simpl; [reflexivity|].
  rewrite Hm, String.eqb_refl. now f_equal.
Qed.

Lemma fromProvider_none (p k : string) (g : list item) :
  k <> p -> Forall (fun m => providerKey m = k) g -> fromProvider p g = [].
Proof.
  intros Hne. induction 1 as [|m g Hm Hg IH]; simpl; [reflexivity|].
  rewrite Hm. destruct (String.eqb_spec k p); [contradiction|exact IH].
Qed.

Lemma fromProvider_capped_groups (p : string)
    (acc : list (string * list item)) :
  List.NoDup (map fst acc) -> keyed acc ->
  fromProvider p (concat (map snd (map (capGroup config) acc)))
  = capList config p (lookupGroup p acc).
Proof.
  unfold keyed. induction acc as [|[k g] acc IH]; simpl; intros Hnd Hk.
  - unfold capList, capGroup, sliceTo. simpl.
    destruct (negb _); [now rewrite take_nil|reflexivity].
  - inversion Hnd as [|? ? Hnot Hnd']; subst.
    inversion Hk as [|? ? Hg Hk']; subst. simpl in Hg.
    rewrite fromProvider_app.
    change (snd (capGroup config (k, g))) with (capList config k g).
    destruct (String.eqb_spec p k) as [->|Hne].
    + rewrite (fromProvider_all k) by now apply capList_keyed.
      assert (E : fromProvider k
                    (concat (map snd (map (capGroup config) acc))) = []).
      { clear IH Hnd Hnd' Hk Hg. induction acc as [|[k' g'] acc IH']; simpl.
        - reflexivity.
        - inversion Hk' as [|? ? Hg' Hk'']; subst. simpl in Hg'.
          rewrite fromProvider_app.
          change (snd (capGroup config (k', g'))) with (capList config k' g').
          rewrite (fromProvider_none k k').
          + apply IH'; [|exact Hk'']. intros Hc. apply Hnot. now right.
          + intros ->. apply Hnot. now left.
          + now apply capList_keyed. }
      rewrite E. apply app_nil_r.
    + rewrite (fromProvider_none p k); [|congruence|now apply capList_keyed].
      now apply IH.
Qed.

Lemma fromProvider_capped (p : string) (filtered : list item) :
  fromProvider p (capped config filtered)
  = capList config p (fromProvider p filtered).
Proof.
  unfold capped, cappedByProvider.
  destruct (groupByProvider_keys filtered) as [Hnd Hk].
  rewrite fromProvider_capped_groups by assumption.
  now rewrite lookupGroup_groupByProvider.
Qed.

Lemma fromProvider_filter (p : string) (f : item -> bool) (l : list item) :
  fromProvider p (List.filter f l) = List.filter f (fromProvider p l).
Proof.
  unfold fromProvider. induction l as [|m l IH]; simpl; [reflexivity|].
  destruct (f m) eqn:Ef, (String.eqb (providerKey m) p) eqn:Ep; simpl;
    rewrite ?Ef, ?Ep, IH; reflexivity.
Qed.

Lemma bySimilarityDesc_before (a b : item) :
  before bySimilarityDesc a b <-> (similarityOf b <= similarityOf a)%Q.
Proof.
  unfold before, sortCompare, bySimilarityDesc, similarityOf. split; lra.
Qed.

Lemma jsSort_descending (g : list item) :
  descending (jsSort bySimilarityDesc g).
Proof.
  unfold descending.
  assert (Hs : StronglySorted (before bySimilarityDesc)
                 (jsSort bySimilarityDesc g)).
  { apply (jsSort_sorted bySimilarityDesc (fun _ => True)).
    - intros a b _ _. rewrite !bySimilarityDesc_before. lra.
    - intros a b c _ _ _. rewrite !bySimilarityDesc_before. lra.
    - apply List.Forall_forall. auto. }
  induction Hs as [|a l Hl IH Ha]; constructor; [exact IH|].
  eapply List.Forall_impl; [|exact Ha].
  intros b Hb. now apply bySimilarityDesc_before.
Qed.

Lemma descending_take (n : nat) (l : list item) :
  descending l -> descending (take n l).
Proof.
  unfold descending. intros Hl. revert n.
  induction Hl as [|a l Hl IH Ha]; intros [|n]; simpl; try constructor.
  - apply IH.
  - now apply Forall_take.
Qed.

Lemma aboveThreshold_similarity (m : item) :
  hasSimilarity m ->
  aboveThreshold config m = Qle_bool (threshold config) (similarityOf m).
Proof.
  unfold hasSimilarity, aboveThreshold, similarityOf.
  destruct (get m "similarity"); simpl; congruence.
Qed.

Lemma threshold_drops_rest (a : item) (l : list item) :
  Forall (fun b => similarityOf b <= similarityOf a)%Q l ->
  Forall hasSimilarity l ->
  Qle_bool (threshold config) (similarityOf a) = false ->
  List.filter (aboveThreshold config) l = [].
Proof.
  intros Ha Hs Ea. induction Ha as [|b l Hb Ha IH]; simpl; [reflexivity|].
  inversion Hs as [|? ? Hsb Hsl]; subst.
  rewrite aboveThreshold_similarity by assumption.
  destruct (Qle_bool (threshold config) (similarityOf b)) eqn:Eb.
  - apply Qle_bool_iff in Eb.
    assert (Hc : Qle_bool (threshold config) (similarityOf a) = true).
    { apply Qle_bool_iff. lra. }
    congruence.
  - now apply IH.
Qed.

(** The threshold keeps a prefix of a descending list. *)
Lemma threshold_keeps_prefix (l : list item) :
  descending l -> Forall hasSimilarity l ->
  List.filter (aboveThreshold config) l
  = take (length (List.filter (aboveThreshold config) l)) l.
Proof.
  unfold descending. intros Hl Hs.
  induction Hl as [|a l Hl IH Ha]; simpl; [reflexivity|].
  inversion Hs as [|? ? Hsa Hsl]; subst.
  destruct (aboveThreshold config a) eqn:Ea; simpl.
  - f_equal. now apply IH.
  - rewrite aboveThreshold_similarity in Ea by assumption.
    now rewrite (threshold_drops_rest a l).
Qed.

End SelectionFacts.

(** C1: the cap comes before the threshold and is strict.  For a provider
    [p], [sorted] is its candidates in descending similarity; what is left
    of [p] after the cap is the first [maxResults] of [sorted] (all of it
    when [maxResults] is 0 or unset), what is selected is what the
    threshold keeps of that, so at most [maxResults] candidates, and, the
    candidates being scored, a prefix of [sorted]: the top ones.  With
    [maxResults = 1] and two candidates of [p] at or above the threshold,
    exactly one candidate of [p] is selected. *)
Theorem cap_then_threshold {rt : Runtime} (config : Config)
    (filtered : list item) (p : string) :
  let sorted := jsSort bySimilarityDesc (fromProvider p filtered) in
  let cappedP := fromProvider p (capped config filtered) in
  let kept := fromProvider p (candidates config filtered) in
  Permutation sorted (fromProvider p filtered)
  /\ descending sorted
  /\ cappedP = (if negb (Qle_bool (maxOf config p) 0)
                then take (Z.to_nat (Qfloor (maxOf config p))) sorted
                else sorted)
  /\ kept = List.filter (aboveThreshold config) cappedP
  /\ lookupGroup p (byProvider config filtered) = kept
  /\ ((0 < maxOf config p)%Q ->
      (inject_Z (Z.of_nat (length kept)) <= maxOf config p)%Q)
  /\ (Forall hasSimilarity filtered -> kept = take (length kept) sorted)
  /\ (forall c1 c2,
        Forall hasSimilarity filtered ->
        (maxOf config p == 1)%Q ->
        In c1 filtered -> In c2 filtered ->
        providerKey c1 = p -> providerKey c2 = p ->
        aboveThreshold config c1 = true ->
        aboveThreshold config c2 = true ->
        length kept = 1%nat).
Proof.
  intros sorted cappedP kept.
  assert (Hperm : Permutation sorted (fromProvider p filtered))
    by apply jsSort_perm.
  assert (Hdesc : descending sorted) by apply jsSort_descending.
  assert (Hcap : cappedP
                 = (if negb (Qle_bool (maxOf config p) 0)
                    then take (Z.to_nat (Qfloor (maxOf config p))) sorted
                    else sorted)).
  { unfold cappedP. rewrite fromProvider_capped. reflexivity. }
  assert (Hkept : kept = List.filter (aboveThreshold config) cappedP).
  { unfold kept, candidates. apply fromProvider_filter. }
  assert (Hscored : Forall hasSimilarity filtered ->
                    Forall hasSimilarity sorted).
  { intros Hs. eapply Permutation_Forall; [symmetry; exact Hperm|].
    unfold fromProvider. apply List.Forall_forall. intros m Hm.
    apply List.filter_In in Hm. rewrite List.Forall_forall in Hs.
    now apply Hs. }
  repeat split; try assumption.
  - unfold byProvider. apply lookupGroup_groupByProvider.
  - intros Hpos. rewrite Hkept, Hcap.
    assert (E : Qle_bool (maxOf config p) 0 = false).
    { destruct (Qle_bool (maxOf config p) 0) eqn:E; [|reflexivity].
      apply Qle_bool_iff in E. lra. }
    rewrite E. simpl.
    set (n := Z.to_nat (Qfloor (maxOf config p))).
    assert (Hlen : (length (List.filter (aboveThreshold config) (take n sorted))
                    <= n)%nat).
    { etransitivity; [apply List.filter_length_le|].
      rewrite length_take. lia. }
    assert (Hfl : (0 <= Qfloor (maxOf config p))%Z).
    { apply Qlt_le_weak in Hpos. apply Qfloor_resp_le in Hpos.
      exact Hpos. }
    apply Qle_trans with (inject_Z (Qfloor (maxOf config p)));
      [|apply Qfloor_le].
    rewrite <- Zle_Qle. subst n. lia.
  - intros Hs. rewrite Hkept at 2. rewrite Hkept, Hcap.
    destruct (negb (Qle_bool (maxOf config p) 0)).
    + rewrite threshold_keeps_prefix at 1.
      * rewrite take_take. f_equal.
        pose proof (List.filter_length_le (aboveThreshold config)
                      (take (Z.to_nat (Qfloor (maxOf config p))) sorted)) as Hl.
        rewrite length_take in Hl. lia.
      * now apply descending_take.
      * apply Forall_take. now apply Hscored.
    + apply threshold_keeps_prefix; [exact Hdesc|now apply Hscored].
  - intros c1 c2 Hs Hmax Hc1 _ Hp1 _ Ha1 _.
    rewrite Hkept, Hcap.
    assert (E : Qle_bool (maxOf config p) 0 = false).
    { destruct (Qle_bool (maxOf config p) 0) eqn:E; [|reflexivity].
      apply Qle_bool_iff in E. lra. }
    rewrite E. simpl. rewrite (Qfloor_comp _ _ Hmax).
    change (Z.to_nat (Qfloor 1)) with 1%nat.
    assert (Hin : In c1 sorted).
    { eapply Permutation_in; [symmetry; exact Hperm|].
      unfold fromProvider. apply List.filter_In. split; [exact Hc1|].
      rewrite Hp1. apply String.eqb_refl. }
    specialize (Hscored Hs).
    destruct sorted as [|top rest]; [destruct Hin|].
    change (take 1 (top :: rest)) with [top].
    inversion Hdesc as [|? ? _ Htop]; subst.
    inversion Hscored as [|? ? Hstop Hsrest]; subst.
    assert (Hge : (similarityOf c1 <= similarityOf top)%Q).
    { destruct Hin as [->|Hin]; [lra|].
      rewrite List.Forall_forall in Htop. now apply Htop. }
    rewrite aboveThreshold_similarity in Ha1.
    + simpl. rewrite aboveThreshold_similarity by assumption.
      apply Qle_bool_iff in Ha1.
      assert (Ht : Qle_bool (threshold config) (similarityOf top) = true).
      { apply Qle_bool_iff. lra. }
      now rewrite Ht.
    + rewrite List.Forall_forall in Hs. now apply Hs.
Qed.

Lemma cap_then_threshold_witness :
  length (fromProvider (rt := asciiRuntime) "A"
            (candidates (rt := asciiRuntime) cappedConfig
               [candidateA1; candidateA2])) = 1%nat.
Proof.
  refine (proj2 (proj2 (proj2 (proj2 (proj2 (proj2 (proj2
            (cap_then_threshold (rt := asciiRuntime) cappedConfig
               [candidateA1; candidateA2] "A")))))))
            candidateA1 candidateA2 _ _ _ _ _ _ _ _).
  - repeat constructor.
  - vm_compute. reflexivity.
  - simpl. auto.
  - simpl. auto.
  - vm_compute. reflexivity.
  - vm_compute. reflexivity.
  - vm_compute. reflexivity.
  - vm_compute. reflexivity.
Defined.

(** ** The ranker *)

Lemma Q2Qc_lt (x y : Q) : (Q2Qc x < Q2Qc y)%Qc <-> (x < y)%Q.
Proof. unfold Qclt. simpl. now rewrite !Qred_correct. Qed.

Lemma Q2Qc_le (x y : Q) : (Q2Qc x <= Q2Qc y)%Qc <-> (x <= y)%Q.
Proof. unfold Qcle. simpl. now rewrite !Qred_correct. Qed.

Lemma audioFlag_eqb (a b : item) :
  Z.eqb (audioFlag b) (audioFlag a) = Bool.eqb (isAudio b) (isAudio a).
Proof. unfold audioFlag. now destruct (isAudio a), (isAudio b). Qed.

(** On scored results the comparator is the order of the keys. *)
Lemma compareResults_keys (a b : item) :
  hasSimilarity a -> hasSimilarity b ->
  before compareResults a b <-> keyBefore (rankKey a) (rankKey b).
Proof.
  unfold hasSimilarity, before, sortCompare, compareResults, keyBefore, rankKey.
  rewrite audioFlag_eqb. unfold audioFlag, priorityOf. simpl.
  destruct (get a "similarity") as [| | |sa| | |] eqn:Ea; try discriminate.
  destruct (get b "similarity") as [| | |sb| | |] eqn:Eb; try discriminate.
  intros _ _. simpl.
  rewrite Q2Qc_lt, Q2Qc_le, Q2Qc_eq_iff.
  set (pa := numOrZero (get a "_providerPriority")).
  set (pb := numOrZero (get b "_providerPriority")).
  destruct (Qeq_bool sb sa) eqn:E; simpl.
  - apply Qeq_bool_iff in E.
    assert (Hneg : ~ (inject_Z (1 - 0) <= 0)%Q) by (compute; auto).
    assert (Hpos : (inject_Z (0 - 1) <= 0)%Q) by (compute; discriminate).
    destruct (isAudio a), (isAudio b); simpl; split.
    + intros Hc. right. split; [lra|]. right. split; [reflexivity|lra].
    + intros [Hc|[_ [[_ Hc]|[_ Hc]]]]; try discriminate; lra.
    + intros _. right. split; [lra|]. left. now split.
    + intros _. exact Hpos.
    + intros Hc. contradiction.
    + intros [Hc|[_ [[Hc _]|[Hc _]]]]; try discriminate; lra.
    + intros Hc. right. split; [lra|]. right. split; [reflexivity|lra].
    + intros [Hc|[_ [[Hc _]|[_ Hc]]]]; try discriminate; lra.
  - assert (Hne : ~ (sb == sa)%Q).
    { intros Hc. apply Qeq_bool_iff in Hc. congruence. }
    split.
    + intros Hc. left. lra.
    + intros [Hc|[Hc _]]; lra.
Qed.

Lemma keyBefore_total (k1 k2 : Qc * bool * Qc) :
  ~ keyBefore k1 k2 -> keyBefore k2 k1.
Proof.
  destruct k1 as [[s1 a1] p1], k2 as [[s2 a2] p2]. unfold keyBefore. simpl.
  intros Hn.
  destruct (Qclt_le_dec s2 s1) as [Hlt|Hle]; [exfalso; apply Hn; now left|].
  destruct (Qc_eq_dec s1 s2) as [->|Hne].
  - right. split; [reflexivity|].
    destruct a1, a2;
      try (left; now split);
      try (exfalso; apply Hn; right; split; [reflexivity|]; left; now split);
      (right; split; [reflexivity|];
       destruct (Qclt_le_dec p1 p2) as [Hp|Hp];
       [now apply Qclt_le_weak|];
       exfalso; apply Hn; right; split; [reflexivity|]; right; now split).
  - left. apply Qcle_lt_or_eq in Hle. destruct Hle; [assumption|congruence].
Qed.

Lemma keyBefore_trans (k1 k2 k3 : Qc * bool * Qc) :
  keyBefore k1 k2 -> keyBefore k2 k3 -> keyBefore k1 k3.
Proof.
  destruct k1 as [[s1 a1] p1], k2 as [[s2 a2] p2], k3 as [[s3 a3] p3].
  unfold keyBefore. simpl.
  intros [H12|[-> H12]] [H23|[-> H23]].
  - left. now apply Qclt_trans with s2.
  - now left.
  - now left.
  - right. split; [reflexivity|].
    destruct H12 as [[-> ->]|[-> H12]], H23 as [[? ?]|[-> H23]];
      try discriminate; subst.
    + left. now split.
    + left. now split.
    + right. split; [reflexivity|]. now apply Qcle_trans with p2.
Qed.

Lemma keyBefore_antisym (k1 k2 : Qc * bool * Qc) :
  keyBefore k1 k2 -> keyBefore k2 k1 -> k1 = k2.
Proof.
  destruct k1 as [[s1 a1] p1], k2 as [[s2 a2] p2]. unfold keyBefore. simpl.
  intros [H12|[-> H12]] [H21|[E H21]].
  - exfalso. apply (Qclt_not_le _ _ H12). now apply Qclt_le_weak.
  - subst. exfalso. apply (Qclt_not_le _ _ H12), Qcle_refl.
  - exfalso. apply (Qclt_not_le _ _ H21), Qcle_refl.
  - destruct H12 as [[Ha1 Ha2]|[Ha H12]], H21 as [[Hb1 Hb2]|[Hb H21]];
      try congruence.
    subst a2. f_equal. now apply Qcle_antisym.
Qed.

Lemma rank_scored (l : list item) :
  Forall hasSimilarity l -> Forall hasSimilarity (rank l).
Proof.
  intros Hl. eapply Permutation_Forall; [symmetry; apply jsSort_perm|exact Hl].
Qed.

Lemma rank_sorted (l : list item) :
  Forall hasSimilarity l -> StronglySorted (before compareResults) (rank l).
Proof.
  apply (jsSort_sorted compareResults hasSimilarity).
  - intros a b Ha Hb. rewrite !compareResults_keys by assumption.
    apply keyBefore_total.
  - intros a b c Ha Hb Hc. rewrite !compareResults_keys by assumption.
    apply keyBefore_trans.
Qed.

Lemma rank_keys_sorted (l : list item) :
  Forall hasSimilarity l -> StronglySorted keyBefore (map rankKey (rank l)).
Proof.
  intros Hl. pose proof (rank_sorted l Hl) as Hs.
  pose proof (rank_scored l Hl) as Hsc.
  induction Hs as [|a s Hs IH Ha]; simpl; constructor.
  - apply IH. now inversion Hsc.
  - inversion Hsc as [|? ? Hsa Hss]; subst.
    rewrite List.Forall_forall in *. intros k Hk.
    apply in_map_iff in Hk. destruct Hk as [b [<- Hb]].
    apply compareResults_keys; auto.
Qed.

(** Results with equal keys are never swapped. *)
Lemma rank_stable (k : Qc * bool * Qc) (l : list item) :
  List.filter (hasKey k) (rank l) = List.filter (hasKey k) l.
Proof.
  apply jsSort_stable. intros x y Hx Hy.
  unfold hasKey in *. apply bool_decide_eq_true in Hx, Hy.
  assert (E : rankKey x = rankKey y) by congruence. clear Hx Hy.
  pose proof (f_equal (fun k : Qc * bool * Qc => k.1.1) E) as E1.
  pose proof (f_equal (fun k : Qc * bool * Qc => k.1.2) E) as E2.
  pose proof (f_equal (fun k : Qc * bool * Qc => k.2) E) as E3.
  simpl in E1, E2, E3. apply Q2Qc_eq_iff in E1, E3. clear E.
  unfold before, sortCompare, compareResults.
  rewrite audioFlag_eqb, E2, Bool.eqb_reflx. simpl.
  destruct (strictEq (get y "similarity") (get x "similarity")) eqn:Es; simpl.
  - lra.
  - destruct (get y "similarity") as [| | |sy| | |],
             (get x "similarity") as [| | |sx| | |]; simpl; try lra.
    simpl in *. lra.
Qed.

Lemma sorted_keys_unique (l1 l2 : list (Qc * bool * Qc)) :
  StronglySorted keyBefore l1 -> StronglySorted keyBefore l2 ->
  Permutation l1 l2 -> l1 = l2.
Proof.
  apply StronglySorted_unique. intros k1 k2. apply keyBefore_antisym.
Qed.

Lemma perm_same_keys_eq {K : Type} (f : item -> K) (a b : list item) :
  Permutation a b -> List.NoDup (map f a) -> map f a = map f b -> a = b.
Proof.
  revert b. induction a as [|x a IH]; intros [|y b] Hp Hnd E;
    try discriminate; [reflexivity|].
  simpl in E. injection E as Exy E.
  inversion Hnd as [|? ? Hnot Hnd']; subst.
  assert (x = y).
  { assert (Hy : In y (x :: a)).
    { eapply Permutation_in; [symmetry; exact Hp|]. now left. }
    destruct Hy as [->|Hy]; [reflexivity|].
    exfalso. apply Hnot. rewrite Exy. now apply in_map. }
  subst y. f_equal. apply IH; [|assumption|assumption].
  now apply Permutation_cons_inv in Hp.
Qed.

Lemma keyBefore_connex (k1 k2 : Qc * bool * Qc) :
  keyBefore k1 k2 \/ keyBefore k2 k1.
Proof.
  destruct k1 as [[s1 a1] p1], k2 as [[s2 a2] p2]. unfold keyBefore. simpl.
  destruct (Qclt_le_dec s2 s1) as [Hlt|Hle]; [left; now left|].
  destruct (Qc_eq_dec s1 s2) as [->|Hne].
  - destruct (Qclt_le_dec p1 p2) as [Hp|Hp].
    + apply Qclt_le_weak in Hp.
      destruct a1, a2;
        first [ right; right; split; [reflexivity|]; right; now split
              | left; right; split; [reflexivity|]; left; now split
              | right; right; split; [reflexivity|]; left; now split ].
    + destruct a1, a2;
        first [ left; right; split; [reflexivity|]; right; now split
              | left; right; split; [reflexivity|]; left; now split
              | right; right; split; [reflexivity|]; left; now split ].
  - right. left. apply Qcle_lt_or_eq in Hle.
    destruct Hle; [assumption|congruence].
Qed.

(** C7 (as amended): ranking is a stable sort by the three-key comparator
    (similarity descending, then audiobook before book, then
    [_providerPriority] descending).  On scored results the comparator is
    the order [keyBefore] of the key triples, which is total, transitive
    and antisymmetric; the output is a permutation of the input whose keys
    are in that order, results with equal keys keep their input order,
    reordering the input leaves the sequence of keys of the output
    unchanged, and leaves the output itself unchanged when no two results
    have the same three keys. *)
Theorem rank_is_stable_sort (l : list item) :
  Forall hasSimilarity l ->
  (forall a b, In a l -> In b l ->
     (before compareResults a b <-> keyBefore (rankKey a) (rankKey b)))
  /\ ((forall k1 k2, keyBefore k1 k2 \/ keyBefore k2 k1)
      /\ (forall k1 k2 k3,
            keyBefore k1 k2 -> keyBefore k2 k3 -> keyBefore k1 k3)
      /\ (forall k1 k2, keyBefore k1 k2 -> keyBefore k2 k1 -> k1 = k2))
  /\ Permutation (rank l) l
  /\ StronglySorted keyBefore (map rankKey (rank l))
  /\ (forall k, List.filter (hasKey k) (rank l) = List.filter (hasKey k) l)
  /\ (forall l', Permutation l l' ->
                 map rankKey (rank l) = map rankKey (rank l'))
  /\ (List.NoDup (map rankKey l) ->
      forall l', Permutation l l' -> rank l = rank l').
Proof.
  intros Hl.
  assert (Hkeys : forall l', Permutation l l' ->
                             map rankKey (rank l) = map rankKey (rank l')).
  { intros l' Hp. apply sorted_keys_unique.
    - now apply rank_keys_sorted.
    - apply rank_keys_sorted. eapply Permutation_Forall; eassumption.
    - apply Permutation_map. unfold rank.
      rewrite !jsSort_perm. exact Hp. }
  split.
  { intros a b Ha Hb. rewrite List.Forall_forall in Hl.
    apply compareResults_keys; now apply Hl. }
  split.
  { split; [exact keyBefore_connex|].
    split; [exact keyBefore_trans|exact keyBefore_antisym]. }
  split; [apply jsSort_perm|].
  split; [now apply rank_keys_sorted|].
  split; [intros k; apply rank_stable|].
  split; [exact Hkeys|].
  intros Hnd l' Hp. apply (perm_same_keys_eq rankKey).
  - unfold rank. rewrite !jsSort_perm. exact Hp.
  - eapply Permutation_NoDup; [|exact Hnd].
    apply Permutation_map. symmetry. apply jsSort_perm.
  - now apply Hkeys.
Qed.

Lemma rank_is_stable_sort_witness :
  Permutation (rank [candidateA1; candidateA2]) [candidateA1; candidateA2]
  /\ rank [candidateA1; candidateA2] = rank [candidateA2; candidateA1].
Proof.
  assert (Hs : Forall hasSimilarity [candidateA1; candidateA2])
    by (repeat constructor).
  destruct (rank_is_stable_sort [candidateA1; candidateA2] Hs)
    as (_ & _ & Hp & _ & _ & _ & Hsame).
  split; [exact Hp|].
  apply Hsame.
  - repeat constructor; vm_compute; intuition discriminate.
  - apply perm_swap.
Defined.

(** C7 as stated fails: two results with the same similarity, type and
    priority come out in the order they went in, so a reordered input
    gives a differently ordered output. *)
Lemma rank_depends_on_input_order :
  Permutation [twinX; twinY] [twinY; twinX]
  /\ rank [twinX; twinY] <> rank [twinY; twinX].
Proof.
  split; [apply perm_swap|].
  intros E. apply (f_equal (map (fun m => get m "id"))) in E.
  vm_compute in E. discriminate.
Qed.

(** ** The worker pool *)

Lemma lookup_map {A B : Type} (f : A -> B) (l : list A) (i : nat) :
  map f l !! i = f <$> l !! i.
Proof.
  revert i. induction l as [|x l IH]; intros [|i]; simpl; try reflexivity.
  apply IH.
Qed.

Lemma weight_insert (ws : list worker) (k : nat) (w w' : worker) :
  ws !! k = Some w ->
  (list_sum (map workerWeight (<[k := w']> ws)) + workerWeight w
   = list_sum (map workerWeight ws) + workerWeight w')%nat.
Proof.
  revert k. induction ws as [|v ws IH]; intros [|k] Hk; simpl in *;
    try discriminate.
  - injection Hk as ->. lia.
  - specialize (IH k Hk). lia.
Qed.

Lemma firstRunnable_Some (ws : list worker) (k : nat) :
  firstRunnable ws = Some k ->
  exists w, ws !! k = Some w /\ isReturned w = false.
Proof.
  revert k. induction ws as [|w ws IH]; intros k; simpl; [discriminate|].
  destruct w; try (intros [= <-]; eexists; split; reflexivity).
  destruct (firstRunnable ws) as [j|]; simpl; [|discriminate].
  intros [= <-]. destruct (IH j eq_refl) as [w [Hw Hr]]. now exists w.
Qed.

Lemma firstRunnable_None (ws : list worker) :
  firstRunnable ws = None -> forallb isReturned ws = true.
Proof.
  induction ws as [|w ws IH]; simpl; [reflexivity|].
  destruct w; try discriminate.
  destruct (firstRunnable ws); simpl; [discriminate|]. intros _. now apply IH.
Qed.

Lemma weights_zero_done (ws : list worker) :
  list_sum (map workerWeight ws) = 0%nat -> forallb isReturned ws = true.
Proof.
  induction ws as [|w ws IH]; simpl; [reflexivity|].
  destruct w; simpl; try lia. exact IH.
Qed.

Lemma done_no_pending (ws : list worker) (k : nat) (w : worker) :
  forallb isReturned ws = true -> ws !! k = Some w -> w = Returned.
Proof.
  intros Hd Hk. rewrite forallb_forall in Hd.
  assert (Hin : In w ws).
  { apply list_elem_of_In. eapply list_elem_of_lookup_2. exact Hk. }
  specialize (Hd w Hin). now destruct w.
Qed.

Section PoolFacts.
Context {A B : Type}.
Variable items : list A.
Variable iteratorFn : A -> option B.
Variable null : B.
Variable limit : nat.

Local Abbreviation step := (poolStep items iteratorFn null).
Local Abbreviation Inv := (poolInv items iteratorFn null limit).

Lemma poolInit_inv : Inv (poolInit items limit).
Proof.
  constructor; simpl.
  - apply length_replicate.
  - apply length_replicate.
  - reflexivity.
  - intros idx _ Hc. lia.
  - intros idx Hi _. now apply lookup_replicate_2.
  - intros k idx Hk. apply lookup_replicate in Hk. destruct Hk. discriminate.
  - intros k Hk. apply lookup_replicate in Hk. destruct Hk. discriminate.
Qed.

Lemma stepWorker_inv (k : nat) (st st' : pool B) :
  Inv st -> stepWorker items iteratorFn null k st = Some st' -> Inv st'.
Proof.
  intros [Hres Hws Hcalls Hcalled Hpend Haw Hret]. unfold stepWorker.
  destruct (workers st !! k) as [[|idx|]|] eqn:Ek; try discriminate.
  - (* the worker reads the cursor *)
    destruct (Nat.ltb_spec (cursor st) (length items)) as [Hlt|Hge];
      intros [= <-]; constructor; cbn [results cursor workers calls].
    + exact Hres.
    + now rewrite length_insert.
    + rewrite Hcalls, (Nat.min_l (cursor st)), (Nat.min_l (S (cursor st)))
        by lia.
      now rewrite seq_S.
    + intros idx Hi Hc. destruct (Nat.eq_dec idx (cursor st)) as [->|Hne].
      * right. split; [now apply Hpend|]. exists k.
        apply list_lookup_insert_eq. now apply lookup_lt_Some in Ek.
      * destruct (Hcalled idx Hi) as [Hd|[Hn [k' Hk']]]; [lia|now left|].
        right. split; [exact Hn|]. exists k'.
        rewrite list_lookup_insert_ne; [exact Hk'|]. intros ->. congruence.
    + intros idx Hi Hc. apply Hpend; lia.
    + intros k' idx Hk'. destruct (Nat.eq_dec k k') as [->|Hne].
      * rewrite list_lookup_insert_eq in Hk' by now apply lookup_lt_Some in Ek.
        injection Hk' as <-. lia.
      * rewrite list_lookup_insert_ne in Hk' by exact Hne.
        destruct (Haw _ _ Hk'). lia.
    + intros k' Hk'. destruct (Nat.eq_dec k k') as [->|Hne].
      * rewrite list_lookup_insert_eq in Hk' by now apply lookup_lt_Some in Ek.
        discriminate.
      * rewrite list_lookup_insert_ne in Hk' by exact Hne.
        specialize (Hret _ Hk'). lia.
    + exact Hres.
    + now rewrite length_insert.
    + rewrite Hcalls, !Nat.min_r by lia. reflexivity.
    + intros idx Hi Hc.
      destruct (Hcalled idx Hi) as [Hd|[Hn [k' Hk']]]; [lia|now left|].
      right. split; [exact Hn|]. exists k'.
      rewrite list_lookup_insert_ne; [exact Hk'|]. intros ->. congruence.
    + intros idx Hi Hc. lia.
    + intros k' idx Hk'. destruct (Nat.eq_dec k k') as [->|Hne].
      * rewrite list_lookup_insert_eq in Hk' by now apply lookup_lt_Some in Ek.
        discriminate.
      * rewrite list_lookup_insert_ne in Hk' by exact Hne.
        destruct (Haw _ _ Hk'). lia.
    + intros k' Hk'. lia.
  - (* the awaited call settles *)
    destruct (items !! idx) as [x|] eqn:Ex; [|discriminate].
    destruct (Haw _ _ Ek) as [Hic Hin].
    intros [= <-]; constructor; cbn [results cursor workers calls].
    + now rewrite length_insert.
    + now rewrite length_insert.
    + exact Hcalls.
    + intros idx' Hi Hc. destruct (Nat.eq_dec idx idx') as [<-|Hne].
      * left. rewrite list_lookup_insert_eq by lia. now rewrite Ex.
      * rewrite list_lookup_insert_ne by exact Hne.
        destruct (Hcalled idx' Hi Hc) as [Hd|[Hn [k' Hk']]]; [now left|].
        right. split; [exact Hn|]. exists k'.
        rewrite list_lookup_insert_ne; [exact Hk'|]. intros ->. congruence.
    + intros idx' Hi Hc. rewrite list_lookup_insert_ne by lia.
      now apply Hpend.
    + intros k' idx' Hk'. destruct (Nat.eq_dec k k') as [->|Hne].
      * rewrite list_lookup_insert_eq in Hk' by now apply lookup_lt_Some in Ek.
        discriminate.
      * rewrite list_lookup_insert_ne in Hk' by exact Hne. now apply (Haw k').
    + intros k' Hk'. destruct (Nat.eq_dec k k') as [->|Hne].
      * rewrite list_lookup_insert_eq in Hk' by now apply lookup_lt_Some in Ek.
        discriminate.
      * rewrite list_lookup_insert_ne in Hk' by exact Hne. now apply (Hret k').
Qed.

Lemma poolReachable_inv (st : pool B) :
  poolReachable items iteratorFn null limit st -> Inv st.
Proof.
  unfold poolReachable. intros Hr.
  apply rtc_ind_r with (x := poolInit items limit)
                       (P := fun st => Inv st) in Hr.
  - exact Hr.
  - apply poolInit_inv.
  - intros y z _ [k Hk] Hy. now apply (stepWorker_inv k y z).
Qed.

(** A worker that has not returned can always go on. *)
Lemma stepWorker_progress (k : nat) (w : worker) (st : pool B) :
  Inv st -> workers st !! k = Some w -> isReturned w = false ->
  exists st', stepWorker items iteratorFn null k st = Some st'.
Proof.
  intros HI Hk Hw. unfold stepWorker. rewrite Hk.
  destruct w as [|idx|]; [| |discriminate].
  - destruct (cursor st <? length items)%nat; eexists; reflexivity.
  - destruct (inv_awaiting _ _ _ _ _ HI _ _ Hk) as [_ Hlt].
    apply lookup_lt_is_Some_2 in Hlt. destruct Hlt as [x ->].
    eexists; reflexivity.
Qed.

(** Every step uses up some of [poolMeasure]. *)
Lemma stepWorker_measure (k : nat) (st st' : pool B) :
  stepWorker items iteratorFn null k st = Some st' ->
  (poolMeasure items st' < poolMeasure items st)%nat.
Proof.
  unfold stepWorker, poolMeasure.
  destruct (workers st !! k) as [[|idx|]|] eqn:Ek; try discriminate.
  - destruct (Nat.ltb_spec (cursor st) (length items)) as [Hlt|Hge];
      intros [= <-]; simpl.
    + pose proof (weight_insert _ _ _ (Awaiting (cursor st)) Ek) as Hw.
      simpl in Hw. lia.
    + pose proof (weight_insert _ _ _ Returned Ek) as Hw. simpl in Hw. lia.
  - destruct (items !! idx); [|discriminate]. intros [= <-]; simpl.
    pose proof (weight_insert _ _ _ Pulling Ek) as Hw. simpl in Hw. lia.
Qed.

(** When all workers have returned, every slot holds its item's result and
    the iterator was called once on each index, in order. *)
Lemma poolDone_results (st : pool B) :
  (1 <= limit)%nat -> Inv st -> poolDone st = true ->
  results st = expectedResults items iteratorFn null
  /\ calls st = seq 0 (length items).
Proof.
  intros Hlimit [Hres Hws Hcalls Hcalled Hpend Haw Hret] Hdone.
  unfold poolDone in Hdone.
  destruct (Nat.eq_dec (length items) 0) as [Hz|Hnz].
  - destruct items; [|discriminate]. simpl in *.
    destruct (results st); [|discriminate]. split; [reflexivity|].
    rewrite Hcalls. now rewrite Nat.min_0_r.
  - assert (Hfull : (length items <= cursor st)%nat).
    { destruct (workers st) as [|w ws] eqn:Ew; [simpl in Hws; lia|].
      apply (Hret 0%nat). simpl. f_equal.
      now apply (done_no_pending (w :: ws) 0 w). }
    split.
    + apply list_eq. intros idx. unfold expectedResults. rewrite lookup_map.
      destruct (Nat.lt_ge_cases idx (length items)) as [Hi|Hi].
      * destruct (Hcalled idx Hi) as [Hd|[_ [k Hk]]]; [lia|exact Hd|].
        apply (done_no_pending _ _ _ Hdone) in Hk. discriminate.
      * rewrite !lookup_ge_None_2 by lia. reflexivity.
    + rewrite Hcalls. now rewrite Nat.min_r.
Qed.

(** The scheduler of [runPool] completes the run within the bound. *)
Lemma runPool_done (fuel : nat) (st : pool B) :
  Inv st -> (poolMeasure items st <= fuel)%nat ->
  rtc step st (runPool items iteratorFn null fuel st)
  /\ poolDone (runPool items iteratorFn null fuel st) = true.
Proof.
  revert st. induction fuel as [|fuel IH]; intros st HI Hm; simpl.
  - split; [constructor|]. unfold poolDone, poolMeasure in *.
    apply weights_zero_done. lia.
  - destruct (firstRunnable (workers st)) as [k|] eqn:Ef.
    + destruct (firstRunnable_Some _ _ Ef) as [w [Hk Hw]].
      destruct (stepWorker_progress k w st HI Hk Hw) as [st' Hst'].
      rewrite Hst'.
      pose proof (stepWorker_measure _ _ _ Hst') as Hlt.
      destruct (IH st') as [Hrun Hdone];
        [now apply (stepWorker_inv k st)|lia|].
      split; [|exact Hdone].
      eapply rtc_l; [|exact Hrun]. now exists k.
    + split; [constructor|]. now apply firstRunnable_None.
Qed.

Lemma mapWithConcurrency_expected :
  (1 <= limit)%nat ->
  mapWithConcurrency items iteratorFn null limit
  = expectedResults items iteratorFn null.
Proof.
  intros Hlimit. unfold mapWithConcurrency.
  destruct (runPool_done (poolMeasure items (poolInit items limit))
              (poolInit items limit) poolInit_inv (Nat.le_refl _))
    as [Hrun Hdone].
  apply poolDone_results; [exact Hlimit| |exact Hdone].
  apply poolReachable_inv. exact Hrun.
Qed.

End PoolFacts.

(** C10: for a limit of at least 1, [mapWithConcurrency] returns an array
    as long as [items] whose element [i] is the iterator's result on
    [items[i]], or [null] where that call threw, whatever the limit.  This
    holds of every interleaving of the workers: a run cannot go on for
    ever, it can always be continued until all workers have returned, and
    then the slots are as said and the iterator has been called once on
    each index. *)
Theorem mapWithConcurrency_in_order {A B : Type} (items : list A)
    (iteratorFn : A -> option B) (null : B) (limit : nat) :
  (1 <= limit)%nat ->
  mapWithConcurrency items iteratorFn null limit
  = expectedResults items iteratorFn null
  /\ length (mapWithConcurrency items iteratorFn null limit) = length items
  /\ (forall i x, items !! i = Some x ->
        mapWithConcurrency items iteratorFn null limit !! i
        = Some (Some (stored iteratorFn null x)))
  /\ (forall st, poolReachable items iteratorFn null limit st ->
        (poolDone st = true ->
           results st = expectedResults items iteratorFn null
           /\ calls st = seq 0 (length items))
        /\ (poolDone st = false ->
              exists st', poolStep items iteratorFn null st st')
        /\ (forall st', poolStep items iteratorFn null st st' ->
              (poolMeasure items st' < poolMeasure items st)%nat))
  /\ (forall limit', (1 <= limit')%nat ->
        mapWithConcurrency items iteratorFn null limit'
        = mapWithConcurrency items iteratorFn null limit).
Proof.
  intros Hlimit.
  pose proof (mapWithConcurrency_expected items iteratorFn null limit Hlimit)
    as Hexp.
  split; [exact Hexp|].
  split; [rewrite Hexp; unfold expectedResults; apply length_map|].
  split.
  { intros i x Hi. rewrite Hexp. unfold expectedResults.
    rewrite lookup_map, Hi. reflexivity. }
  split.
  - intros st Hst. pose proof (poolReachable_inv _ _ _ _ _ Hst) as HI.
    split; [exact (poolDone_results items iteratorFn null limit st Hlimit HI)|].
    split.
    + intros Hnd. unfold poolDone in Hnd.
      destruct (firstRunnable (workers st)) as [k|] eqn:Ef.
      * destruct (firstRunnable_Some _ _ Ef) as [w [Hk Hw]].
        destruct (stepWorker_progress _ _ _ _ k w st HI Hk Hw) as [st' Hst'].
        exists st'. now exists k.
      * apply firstRunnable_None in Ef. congruence.
    + intros st' [k Hk]. eapply stepWorker_measure. exact Hk.
  - intros limit' Hlimit'. rewrite Hexp.
    now apply mapWithConcurrency_expected.
Qed.

Lemma mapWithConcurrency_in_order_witness :
  mapWithConcurrency [1%nat; 2%nat; 3%nat]
    (fun x => if Nat.eqb x 2 then None else Some (10 * x)%nat) 0%nat 2
  = [Some 10%nat; Some 0%nat; Some 30%nat].
Proof.
  refine (proj1 (mapWithConcurrency_in_order [1%nat; 2%nat; 3%nat]
                   (fun x => if Nat.eqb x 2 then None else Some (10 * x)%nat)
                   0%nat 2 _)).
  lia.
Defined.

(** ** Enrichment *)

Section EnrichmentFacts.
Context {rt : Runtime}.
Variable config : Config.
Variable loaded : list (string * Instance).

Lemma limitFor_pos (providerName : string) :
  (1 <= limitFor config providerName)%nat.
Proof.
  unfold limitFor. destruct (providers config !! providerName) as [pc|]; [|lia].
  destruct (concurrency pc) as [[|n]|]; lia.
Qed.

Lemma stored_fetchOrNull (inst : Instance) (m : item) :
  stored (fetchOrNull inst) None m = fetched inst m.
Proof.
  unfold stored, fetchOrNull, fetched.
  destruct (getFullMetadata inst) as [fetch|]; [|reflexivity].
  destruct (fetch m) as [[full|]|]; reflexivity.
Qed.

Lemma pool_fetched (inst : Instance) (toFetch : list item) :
  omap (fun slot : option (option item) => slot ≫= id)
       (expectedResults toFetch (fetchOrNull inst) None)
  = omap (fetched inst) toFetch.
Proof.
  unfold expectedResults. induction toFetch as [|m l IH]; [reflexivity|].
  cbn. cbn in IH. rewrite IH.
  pose proof (stored_fetchOrNull inst m) as E. cbn in E. now rewrite E.
Qed.

Lemma fetchSequential_fetched (inst : Instance) (toFetch : list item) :
  fetchSequential inst toFetch = omap (fetched inst) toFetch.
Proof.
  induction toFetch as [|m l IH]; [reflexivity|].
  change (omap (fetched inst) (m :: l))
    with (match fetched inst m with
          | Some y => y :: omap (fetched inst) l
          | None => omap (fetched inst) l
          end).
  rewrite <- IH. simpl. unfold fetched.
  destruct (getFullMetadata inst) as [fetch|]; [|reflexivity].
  destruct (fetch m) as [[full|]|]; reflexivity.
Qed.

(** Both branches of the enrichment of a group give the same list. *)
Lemma enrichGroup_fetched (providerName name : string) (inst : Instance)
    (matches : list item) :
  List.find (fun p => String.eqb (fst p) providerName) loaded
  = Some (name, inst) ->
  enrichGroup config loaded (providerName, matches)
  = List.filter alreadyFetched matches
    ++ omap (fetched inst) (List.filter needsFetch matches).
Proof.
  intros Hf. unfold enrichGroup. simpl. rewrite Hf.
  destruct (hasMapWithConcurrency inst).
  - rewrite mapWithConcurrency_expected by apply limitFor_pos.
    now rewrite pool_fetched.
  - now rewrite fetchSequential_fetched.
Qed.

Lemma omap_app_item (f : item -> option item) (l1 l2 : list item) :
  omap f (l1 ++ l2) = omap f l1 ++ omap f l2.
Proof.
  induction l1 as [|x l1 IH]; [reflexivity|].
  cbn. cbn in IH. destruct (f x); rewrite IH; reflexivity.
Qed.

Lemma omap_In_item (f : item -> option item) (l : list item) (x y : item) :
  In x l -> f x = Some y -> In y (omap f l).
Proof.
  intros Hx Hy. apply list_elem_of_In. apply list_elem_of_omap.
  exists x. split; [now apply list_elem_of_In|exact Hy].
Qed.

Lemma omap_Some_id (l : list item) : omap (fun m : item => Some m) l = l.
Proof.
  induction l as [|x l IH]; [reflexivity|]. cbn. cbn in IH. now rewrite IH.
Qed.

Lemma fetched_split (matches : list item) :
  Permutation
    (List.filter alreadyFetched matches ++ List.filter needsFetch matches)
    matches.
Proof.
  induction matches as [|m l IH]; simpl; [reflexivity|].
  unfold needsFetch at 1. fold (alreadyFetched m).
  destruct (alreadyFetched m); simpl.
  - now apply perm_skip.
  - rewrite <- Permutation_middle. now apply perm_skip.
Qed.

Lemma needsFetch_all (matches : list item) :
  Forall (fun m => needsFetch m = true) matches ->
  List.filter alreadyFetched matches = []
  /\ List.filter needsFetch matches = matches.
Proof.
  induction 1 as [|m l Hm Hl [IH1 IH2]]; simpl; [now split|].
  rewrite Hm. unfold needsFetch in Hm. apply negb_true_iff in Hm.
  unfold alreadyFetched. rewrite Hm. split; [exact IH1|now f_equal].
Qed.

Lemma fullResultsOf_In (groups : list (string * list item))
    (g : string * list item) (x : item) :
  In g groups -> In x (enrichGroup config loaded g) ->
  In x (fullResultsOf config loaded groups).
Proof.
  intros Hg Hx. unfold fullResultsOf. apply in_concat.
  exists (enrichGroup config loaded g). split; [|exact Hx].
  now apply in_map.
Qed.

End EnrichmentFacts.

(** The merge step returns the ranked list, or that list with one merged
    record in front. *)
Lemma mergeStep_shape {rt : Runtime} (config : Config)
    (fullResults : list item) :
  mergeStep config fullResults = fullResults
  \/ (exists top rest,
        fullResults = top :: rest
        /\ mergeBestResults (global config) = true
        /\ (1 < length (topGroupOf fullResults))%nat
        /\ mergeStep config fullResults
           = mergedRecord config (topGroupOf fullResults)
               (numOrZero (get top "similarity")) :: fullResults).
Proof.
  unfold mergeStep. destruct (mergeBestResults (global config)); [|now left].
  destruct fullResults as [|top rest]; [now left|].
  destruct (Nat.ltb_spec 1 (length (topGroupOf (top :: rest)))); [|now left].
  destruct (sameTitleAuthors _ _) as [same|]; [|now left].
  destruct (same && _); [now left|].
  right. exists top, rest. repeat split; auto.
Qed.

Lemma mergeStep_In {rt : Runtime} (config : Config) (fullResults : list item)
    (x : item) :
  In x fullResults -> In x (mergeStep config fullResults).
Proof.
  intros Hx. destruct (mergeStep_shape config fullResults)
    as [->|(top & rest & _ & _ & _ & ->)]; [exact Hx|now right].
Qed.

(** C8: in the group of a loaded provider, a candidate whose detail fetch
    throws gets [null] in its slot of the pool's results and leaves
    nothing in the output, while the candidates before and after it are
    fetched as if it were not there; a sibling whose fetch returns a
    record has that record in the ranked results and in the response; and
    a provider without [getFullMetadata] passes its candidates through
    unchanged. *)
Theorem enrichment_isolates_failures {rt : Runtime} (config : Config)
    (loaded : list (string * Instance))
    (groups : list (string * list item))
    (providerName name : string) (inst : Instance) (matches : list item) :
  In (providerName, matches) groups ->
  List.find (fun p => String.eqb (fst p) providerName) loaded
  = Some (name, inst) ->
  let out := enrichGroup config loaded (providerName, matches) in
  let fullResults := fullResultsOf config loaded groups in
  (forall fetch before c after,
     getFullMetadata inst = Some fetch ->
     List.filter needsFetch matches = before ++ c :: after ->
     fetch c = None ->
     mapWithConcurrency (List.filter needsFetch matches) (fetchOrNull inst)
       None (limitFor config providerName) !! length before
     = Some (Some None)
     /\ out = List.filter alreadyFetched matches
              ++ omap (fetched inst) before ++ omap (fetched inst) after)
  /\ (forall fetch s full,
        getFullMetadata inst = Some fetch ->
        In s matches -> needsFetch s = true ->
        fetch s = Some (Some full) ->
        In full out
        /\ In full (rank fullResults)
        /\ In full (mergeStep config (rank fullResults)))
  /\ (getFullMetadata inst = None ->
      Permutation out matches
      /\ (Forall (fun m => needsFetch m = true) matches -> out = matches)).
Proof.
  intros Hg Hf out fullResults.
  assert (Hout : out = List.filter alreadyFetched matches
                       ++ omap (fetched inst) (List.filter needsFetch matches))
    by now apply (enrichGroup_fetched config loaded providerName name).
  split; [|split].
  - intros fetch before c after Hfetch Hsplit Hc. split.
    { rewrite mapWithConcurrency_expected by apply limitFor_pos.
      unfold expectedResults. rewrite lookup_map, Hsplit.
      rewrite list_lookup_middle by reflexivity. simpl.
      unfold stored, fetchOrNull. now rewrite Hfetch, Hc. }
    rewrite Hout, Hsplit, omap_app_item. do 2 f_equal.
    change (c :: after) with ([c] ++ after). rewrite omap_app_item.
    assert (E : omap (fetched inst) [c] = []).
    { cbn. unfold fetched. now rewrite Hfetch, Hc. }
    now rewrite E.
  - intros fetch s full Hfetch Hs Hn Hfull.
    assert (Hin : In full out).
    { rewrite Hout. apply in_or_app. right.
      apply (omap_In_item _ _ s).
      - apply List.filter_In. now split.
      - unfold fetched. now rewrite Hfetch, Hfull. }
    assert (Hr : In full (rank fullResults)).
    { apply jsSort_In.
      now apply (fullResultsOf_In config loaded groups
                   (providerName, matches)). }
    split; [exact Hin|]. split; [exact Hr|]. now apply mergeStep_In.
  - intros Hnone.
    assert (E : omap (fetched inst) (List.filter needsFetch matches)
                = List.filter needsFetch matches).
    { unfold fetched. rewrite Hnone. apply omap_Some_id. }
    rewrite Hout, E. split; [apply fetched_split|].
    intros Hall. destruct (needsFetch_all matches Hall) as [-> ->].
    reflexivity.
Qed.

Lemma enrichment_isolates_failures_witness :
  In (<["narrator" := JStr "Scott Brick"]> candidateA2)
     (mergeStep (rt := asciiRuntime) cappedConfig
        (rank (fullResultsOf cappedConfig [("A", flakyInstance)]
                 [("A", [candidateA1; candidateA2])]))).
Proof.
  refine (proj2 (proj2 (proj1 (proj2
            (enrichment_isolates_failures (rt := asciiRuntime) cappedConfig
               [("A", flakyInstance)] [("A", [candidateA1; candidateA2])]
               "A" "A" flakyInstance [candidateA1; candidateA2] _ _))
            _ candidateA2 _ eq_refl _ _ _))).
  - now left.
  - reflexivity.
  - right. now left.
  - vm_compute. reflexivity.
  - vm_compute. reflexivity.
Defined.

(** ** The merge engine *)

Lemma get_insert (m : item) (k k' : string) (v : jsval) :
  get (<[k' := v]> m) k = if String.eqb k k' then v else get m k.
Proof.
  unfold get. destruct (String.eqb_spec k k') as [->|Hne].
  - now rewrite lookup_insert_eq.
  - rewrite lookup_insert_ne; [reflexivity|congruence].
Qed.

Lemma get_assignments (kvs : list (string * jsval)) (m : item) (k : string) :
  get (fold_left (fun m kv => <[fst kv := snd kv]> m) kvs m) k
  = overrides kvs k (get m k).
Proof.
  revert m. induction kvs as [|[k' v] kvs IH]; intros m; simpl.
  - reflexivity.
  - rewrite IH. now rewrite get_insert.
Qed.

Section MergeFacts.
Context {rt : Runtime}.
Variable config : Config.

Lemma mergedRecord_provider (topGroup : list item) (topSim : Q) :
  get (mergedRecord config topGroup topSim) "_provider" = JStr "merged".
Proof.
  unfold mergedRecord. destruct (seriesPick config _) as [chosen index].
  rewrite get_assignments. reflexivity.
Qed.

Lemma mergedRecord_mergedFrom (topGroup : list item) (topSim : Q) :
  get (mergedRecord config topGroup topSim) "_mergedFrom"
  = JArr (mergedFrom topGroup).
Proof.
  unfold mergedRecord. destruct (seriesPick config _) as [chosen index].
  rewrite get_assignments. reflexivity.
Qed.

Lemma mergedRecord_cover (topGroup : list item) (topSim : Q) :
  get (mergedRecord config topGroup topSim) "cover"
  = orElse (fst (coverPick config (sortedGroupOf topGroup))) JNull.
Proof.
  unfold mergedRecord. destruct (seriesPick config _) as [chosen index].
  rewrite get_assignments. reflexivity.
Qed.

Lemma mergedRecord_sources (topGroup : list item) (topSim : Q) :
  get (mergedRecord config topGroup topSim) "_mergedFieldSources"
  = JObj (mergedFieldSources config (sortedGroupOf topGroup)).
Proof.
  unfold mergedRecord. destruct (seriesPick config _) as [chosen index].
  rewrite get_assignments. reflexivity.
Qed.

(** The pick of a field: the preferred provider's value when that provider
    has the field, else the first value in resolution order. *)
Lemma pickFieldAndSource_preferred (sortedGroup : list item)
    (field p : string) (it : item) :
  preferred config field = Some p ->
  findFrom sortedGroup p (fun i => hasField i field) = Some it ->
  pickFieldAndSource config sortedGroup field
  = (getFieldValue it field, JStr p).
Proof.
  intros Hp Hf. unfold pickFieldAndSource, pickWith. now rewrite Hp, Hf.
Qed.

Lemma pickFieldAndSource_fallback (sortedGroup : list item) (field : string) :
  (forall p, preferred config field = Some p ->
             findFrom sortedGroup p (fun i => hasField i field) = None) ->
  pickFieldAndSource config sortedGroup field
  = match List.find (fun i => hasField i field) sortedGroup with
    | Some contributor =>
        (getFieldValue contributor field, get contributor "_provider")
    | None => (JUndefined, JNull)
    end.
Proof.
  intros Hp. unfold pickFieldAndSource, pickWith, pickFallback.
  destruct (preferred config field) as [p|]; [|reflexivity].
  now rewrite (Hp p eq_refl).
Qed.

(** With a preference for the cover, the cover and its source are those
    of the preferred provider. *)
Lemma coverPick_preferred (sortedGroup : list item) (p : string) (it : item) :
  preferred config "cover" = Some p ->
  findFrom sortedGroup p (fun i => hasField i "cover") = Some it ->
  truthy (get it "cover") = true ->
  coverPick config sortedGroup = (get it "cover", JStr p).
Proof.
  intros Hp Hf Ht. unfold coverPick.
  rewrite (pickFieldAndSource_preferred sortedGroup "cover" p it Hp Hf).
  change (getFieldValue it "cover") with (get it "cover"). simpl.
  now rewrite Ht.
Qed.

End MergeFacts.

Lemma mathMax_upper (x : Q) (xs : list Q) :
  forall y, In y (x :: xs) -> (y <= mathMax x xs)%Q.
Proof.
  unfold mathMax. revert x.
  induction xs as [|z xs IH]; intros x y Hy; simpl.
  - destruct Hy as [->|[]]. lra.
  - assert (Hx : (x <= fold_left Qmax xs (Qmax x z))%Q).
    { apply Qle_trans with (Qmax x z); [apply Q.le_max_l|].
      apply IH. now left. }
    destruct Hy as [->|[->|Hy]].
    + exact Hx.
    + apply Qle_trans with (Qmax x y); [apply Q.le_max_r|].
      apply IH. now left.
    + apply IH. now right.
Qed.

Lemma mathMax_attained (x : Q) (xs : list Q) :
  exists y, In y (x :: xs) /\ (mathMax x xs == y)%Q.
Proof.
  unfold mathMax. revert x. induction xs as [|z xs IH]; intros x; simpl.
  - exists x. split; [now left|reflexivity].
  - destruct (IH (Qmax x z)) as [y [[Hy|Hy] E]].
    + destruct (Q.max_spec x z) as [[_ Em]|[_ Em]].
      * exists z. split; [right; now left|]. rewrite E, <- Hy. exact Em.
      * exists x. split; [now left|]. rewrite E, <- Hy. exact Em.
    + exists y. split; [right; now right|exact E].
Qed.

Lemma withinEps_comp (t t' : Q) (m : item) :
  (t == t')%Q -> withinEps t m = withinEps t' m.
Proof.
  intros E. unfold withinEps.
  destruct (Qle_bool (Qabs (similarityOf m - t)) EPS) eqn:E1,
           (Qle_bool (Qabs (similarityOf m - t')) EPS) eqn:E2;
    try reflexivity.
  - apply Qle_bool_iff in E1. rewrite E in E1. apply Qle_bool_iff in E1.
    congruence.
  - apply Qle_bool_iff in E2. rewrite <- E in E2. apply Qle_bool_iff in E2.
    congruence.
Qed.

Lemma filter_length_perm {X : Type} (f : X -> bool) (l l' : list X) :
  Permutation l l' ->
  length (List.filter f l) = length (List.filter f l').
Proof.
  induction 1 as [|x l l' _ IH|x y l|l l' l'' _ IH1 _ IH2]; simpl.
  - reflexivity.
  - destruct (f x); simpl; now rewrite IH.
  - destruct (f x), (f y); reflexivity.
  - now rewrite IH1.
Qed.

(** The head of the ranked list carries the largest similarity. *)
Lemma rank_head_max (l : list item) (top : item) (rest : list item) :
  Forall hasSimilarity l -> rank l = top :: rest ->
  (similarityOf top == maxSimilarity l)%Q.
Proof.
  intros Hl Hr.
  pose proof (rank_keys_sorted l Hl) as Hs. rewrite Hr in Hs. simpl in Hs.
  inversion Hs as [|? ? _ Htop]; subst.
  assert (Hperm : Permutation (top :: rest) l).
  { rewrite <- Hr. apply jsSort_perm. }
  assert (Hge : forall m, In m l -> (similarityOf m <= similarityOf top)%Q).
  { intros m Hm. apply (Permutation_in _ (Permutation_sym Hperm)) in Hm.
    destruct Hm as [->|Hm]; [lra|].
    rewrite List.Forall_forall in Htop.
    specialize (Htop (rankKey m) (in_map rankKey _ _ Hm)).
    unfold keyBefore, rankKey in Htop. simpl in Htop.
    fold (similarityOf m) (similarityOf top) in Htop.
    destruct Htop as [Hlt|[E _]].
    - apply (proj1 (Q2Qc_lt _ _)) in Hlt. lra.
    - apply (proj1 (Q2Qc_eq_iff _ _)) in E. lra. }
  assert (Htl : In top l).
  { apply (Permutation_in _ Hperm). now left. }
  destruct l as [|x xs]; [destruct Htl|]. unfold maxSimilarity.
  destruct (mathMax_attained (similarityOf x) (map similarityOf xs))
    as [y [Hy E]].
  assert (Hy' : exists m, In m (x :: xs) /\ similarityOf m = y).
  { destruct Hy as [<-|Hy]; [exists x; split; [now left|reflexivity]|].
    apply in_map_iff in Hy. destruct Hy as [m [<- Hm]].
    exists m. split; [now right|reflexivity]. }
  destruct Hy' as [m [Hm <-]].
  assert (Hup : (similarityOf top
                 <= mathMax (similarityOf x) (map similarityOf xs))%Q).
  { apply mathMax_upper. destruct Htl as [->|Htl]; [now left|].
    right. now apply in_map. }
  specialize (Hge m Hm). lra.
Qed.

Lemma topGroupOf_count (l : list item) :
  Forall hasSimilarity l -> length (topGroupOf (rank l)) = tieCount l.
Proof.
  intros Hl. unfold tieCount. destruct (rank l) as [|top rest] eqn:Er.
  - assert (E : l = []).
    { apply Permutation_nil. rewrite <- Er.
      apply (jsSort_perm compareResults). }
    now subst.
  - unfold topGroupOf. rewrite <- Er.
    rewrite (filter_length_perm _ (rank l) l) by apply jsSort_perm.
    f_equal. apply List.filter_ext. intros m.
    change (withinEps (similarityOf top) m = withinEps (maxSimilarity l) m).
    apply withinEps_comp. now apply (rank_head_max l top rest).
Qed.

(** C4: without at least two results within [EPS] of the largest
    similarity, or with merging disabled, the merge step returns the
    ranked list as it is, so that the response has no record marked
    [merged] when no provider's result is; and in every case the step
    puts at most one record, marked [merged], in front of the ranked
    list. *)
Theorem merge_needs_a_tie {rt : Runtime} (config : Config)
    (fullResults : list item) :
  Forall hasSimilarity fullResults ->
  let ranked := rank fullResults in
  (mergeBestResults (global config) = false
   \/ (tieCount fullResults < 2)%nat ->
   mergeStep config ranked = ranked
   /\ (Forall (fun m => ~ isMerged m) fullResults ->
       Forall (fun m => ~ isMerged m) (mergeStep config ranked)))
  /\ (mergeStep config ranked = ranked
      \/ exists merged,
           mergeStep config ranked = merged :: ranked /\ isMerged merged).
Proof.
  intros Hl ranked. split.
  - intros Hno.
    assert (E : mergeStep config ranked = ranked).
    { destruct (mergeStep_shape config ranked)
        as [E|(top & rest & _ & Hen & Hlen & _)]; [exact E|].
      exfalso. unfold ranked in Hlen. rewrite topGroupOf_count in Hlen
        by assumption.
      destruct Hno as [Hd|Hc]; [congruence|lia]. }
    split; [exact E|]. intros Hnm. rewrite E.
    eapply Permutation_Forall; [symmetry; apply jsSort_perm|exact Hnm].
  - destruct (mergeStep_shape config ranked)
      as [E|(top & rest & _ & _ & _ & E)]; [now left|].
    right. eexists. split; [exact E|]. apply mergedRecord_provider.
Qed.

Lemma merge_needs_a_tie_witness :
  mergeStep (rt := asciiRuntime) defaultConfig
    (rank [candidateA1; candidateA2])
  = rank [candidateA1; candidateA2].
Proof.
  refine (proj1 (proj1 (merge_needs_a_tie (rt := asciiRuntime) defaultConfig
                          [candidateA1; candidateA2] _) _)).
  - repeat constructor.
  - right. vm_compute. lia.
Defined.

(** C5, at the input of the claim: results of [A] (priority 10, no cover)
    and [B] (priority 5, with a cover) tie and [mergePreferences.cover] is
    [B].  A merged record is prepended, its cover is the cover of [B] and
    the cover pick names [B] as the source ([coverSource]); but the
    handler never stores [coverSource], and the merged record's
    [_mergedFieldSources] has no entry for [cover]. *)
Theorem cover_source_is_not_recorded :
  let ranked := rank [resultA; resultB] in
  let sortedGroup := sortedGroupOf (topGroupOf ranked) in
  coverPick preferCoverB sortedGroup
  = (JStr "https://b.example/dune.jpg", JStr "B")
  /\ exists merged,
       mergeStep (rt := asciiRuntime) preferCoverB ranked = merged :: ranked
       /\ isMerged merged
       /\ get merged "cover" = JStr "https://b.example/dune.jpg"
       /\ get merged "_mergedFieldSources"
          = JObj [("genres", JArr []); ("tags", JArr []); ("series", JArr [])]
       /\ getProp (get merged "_mergedFieldSources") "cover" = JUndefined.
Proof.
  intros ranked sortedGroup. split; [vm_compute; reflexivity|].
  destruct (mergeStep_shape (rt := asciiRuntime) preferCoverB ranked)
    as [E|(top & rest & Er & _ & _ & E)].
  - exfalso. apply (f_equal (@length item)) in E. vm_compute in E.
    discriminate.
  - eexists. split; [exact E|].
    split; [apply mergedRecord_provider|].
    split; [rewrite mergedRecord_cover; vm_compute; reflexivity|].
    assert (Es : get (mergedRecord (rt := asciiRuntime) preferCoverB
                        (topGroupOf ranked)
                        (numOrZero (get top "similarity")))
                     "_mergedFieldSources"
                 = JObj [("genres", JArr []); ("tags", JArr []);
                         ("series", JArr [])]).
    { rewrite mergedRecord_sources. vm_compute. reflexivity. }
    split; [exact Es|]. rewrite Es. reflexivity.
Qed.

(** C6, at an input where the claim asks for the merged record to be
    discarded: two tied results with the same title and authors and no
    other metadata.  The merged record has the title and authors of the top
    result and none of the merged fields (so the top result has every
    field the merge would contribute), and it is prepended all the same:
    for [identifiers] the merge builds an empty object, which the test for
    "merged does not have it" lets through. *)
Theorem redundant_merge_is_prepended :
  let ranked := rank [plainA; plainB] in
  exists merged,
    mergeStep (rt := asciiRuntime) defaultConfig ranked = merged :: ranked
    /\ isMerged merged
    /\ head ranked = Some plainA
    /\ sameTitleAuthors (rt := asciiRuntime) plainA merged = Some true
    /\ (forall f, In f mergedFields ->
                  hasField merged f = true -> hasField plainA f = true)
    /\ forallb (fun f => negb (hasField merged f)) mergedFields = true
    /\ get merged "identifiers" = JObj []
    /\ topHasField plainA merged "identifiers" = false.
Proof.
  intros ranked.
  destruct (mergeStep_shape (rt := asciiRuntime) defaultConfig ranked)
    as [E|(top & rest & Er & _ & _ & E)].
  - exfalso. apply (f_equal (@length item)) in E. vm_compute in E.
    discriminate.
  - assert (Et : top = plainA).
    { assert (Eh : head ranked = Some plainA) by (vm_compute; reflexivity).
      rewrite Er in Eh. now injection Eh. }
    subst top. eexists. split; [exact E|].
    split; [apply mergedRecord_provider|].
    split; [vm_compute; reflexivity|].
    assert (Hall : forallb
                     (fun f =>
                        negb (hasField
                                (mergedRecord (rt := asciiRuntime) defaultConfig
                                   (topGroupOf ranked)
                                   (numOrZero (get plainA "similarity"))) f))
                     mergedFields = true)
      by (vm_compute; reflexivity).
    split; [vm_compute; reflexivity|].
    split.
    { intros f Hf Hm. rewrite forallb_forall in Hall.
      specialize (Hall f Hf). rewrite Hm in Hall. discriminate. }
    split; [exact Hall|].
    split; vm_compute; reflexivity.
Qed.

Lemma NoDup_map_finer {X Y Z : Type} (f : X -> Y) (g : X -> Z) (l : list X) :
  (forall a b, g a = g b -> f a = f b) ->
  List.NoDup (map f l) -> List.NoDup (map g l).
Proof.
  intros Hfg. induction l as [|x l IH]; simpl; intros Hnd.
  - constructor.
  - inversion Hnd as [|? ? Hnot Hnd']; subst. constructor.
    + intros Hin. apply Hnot. apply in_map_iff in Hin.
      destruct Hin as [y [Ey Hy]]. apply in_map_iff.
      exists y. split; [|exact Hy]. now apply Hfg.
    + now apply IH.
Qed.

(** C9 (as amended): the [_mergedFrom] of every merged record has one
    (provider, id) entry per member of the tie group, in ranked order, so
    at least 2 entries; the entries are pairwise different when the
    members of the tie group have pairwise different (provider, id)
    pairs. *)
Theorem mergedFrom_lists_the_tie_group {rt : Runtime} (config : Config)
    (fullResults : list item) (merged : item) :
  mergeStep config fullResults = merged :: fullResults ->
  get merged "_mergedFrom" = JArr (map mergedFromEntry (topGroupOf fullResults))
  /\ (2 <= length (map mergedFromEntry (topGroupOf fullResults)))%nat
  /\ (List.NoDup (map providerAndId (topGroupOf fullResults)) ->
      List.NoDup (map mergedFromEntry (topGroupOf fullResults))).
Proof.
  intros E.
  destruct (mergeStep_shape config fullResults)
    as [E'|(top & rest & _ & _ & Hlen & E')].
  - exfalso. rewrite E' in E. apply (f_equal (@length item)) in E.
    simpl in E. lia.
  - rewrite E' in E. injection E as <-.
    split; [apply mergedRecord_mergedFrom|].
    split; [rewrite length_map; lia|].
    apply NoDup_map_finer. intros a b Eab.
    unfold mergedFromEntry in Eab. unfold providerAndId. congruence.
Qed.

Lemma mergedFrom_lists_the_tie_group_witness :
  exists merged,
    head (mergeStep (rt := asciiRuntime) preferCoverB (rank [resultA; resultB]))
    = Some merged
    /\ get merged "_mergedFrom"
       = JArr [JObj [("provider", JStr "A"); ("id", JStr "a")];
               JObj [("provider", JStr "B"); ("id", JStr "b")]]
    /\ List.NoDup (elems (get merged "_mergedFrom")).
Proof.
  destruct (mergeStep (rt := asciiRuntime) preferCoverB
              (rank [resultA; resultB]))
    as [|merged rest] eqn:E.
  - vm_compute in E. discriminate.
  - assert (Er : rest = rank [resultA; resultB]).
    { apply (f_equal (@tail item)) in E. vm_compute in E. simpl in E.
      rewrite <- E. vm_compute. reflexivity. }
    subst rest.
    destruct (mergedFrom_lists_the_tie_group (rt := asciiRuntime) preferCoverB
                (rank [resultA; resultB]) merged E) as (Hfrom & _ & Hnd).
    exists merged. split; [reflexivity|].
    assert (Hl : map mergedFromEntry (topGroupOf (rank [resultA; resultB]))
                 = [JObj [("provider", JStr "A"); ("id", JStr "a")];
                    JObj [("provider", JStr "B"); ("id", JStr "b")]])
      by (vm_compute; reflexivity).
    rewrite Hfrom, Hl in *. split; [reflexivity|]. simpl. apply Hnd.
    assert (Hp : map providerAndId (topGroupOf (rank [resultA; resultB]))
                 = [(JStr "A", JStr "a"); (JStr "B", JStr "b")])
      by (vm_compute; reflexivity).
    rewrite Hp. repeat constructor; simpl; intuition discriminate.
Defined.

(** C9 as stated fails: two tied results of one provider under one id give
    a merged record whose [_mergedFrom] holds the same (provider, id) pair
    twice. *)
Lemma mergedFrom_can_repeat_a_pair :
  exists merged,
    mergeStep (rt := asciiRuntime) defaultConfig
      (rank [editionBook; editionAudio])
    = merged :: rank [editionBook; editionAudio]
    /\ isMerged merged
    /\ get merged "_mergedFrom"
       = JArr [JObj [("provider", JStr "lubimyczytac"); ("id", JStr "dune")];
               JObj [("provider", JStr "lubimyczytac"); ("id", JStr "dune")]]
    /\ ~ List.NoDup (elems (get merged "_mergedFrom")).
Proof.
  destruct (mergeStep_shape (rt := asciiRuntime) defaultConfig
              (rank [editionBook; editionAudio]))
    as [E|(top & rest & _ & _ & _ & E)].
  - exfalso. apply (f_equal (@length item)) in E. vm_compute in E.
    discriminate.
  - eexists. split; [exact E|].
    split; [apply mergedRecord_provider|].
    assert (Ef : get (mergedRecord (rt := asciiRuntime) defaultConfig
                        (topGroupOf (rank [editionBook; editionAudio]))
                        (numOrZero (get top "similarity"))) "_mergedFrom"
                 = JArr [JObj [("provider", JStr "lubimyczytac");
                               ("id", JStr "dune")];
                         JObj [("provider", JStr "lubimyczytac");
                               ("id", JStr "dune")]]).
    { rewrite mergedRecord_mergedFrom. vm_compute. reflexivity. }
    split; [exact Ef|]. rewrite Ef. simpl. intros Hnd.
    inversion Hnd as [|? ? Hnot _]; subst. apply Hnot. now left.
Qed.

(** ** More on tagging and candidate selection *)

Section SelectionMore.
Context {rt : Runtime}.
Variable config : Config.

(** X1: Every snippet that enters the pipeline carries the name of the
    provider that answered it and that provider's configured priority (0
    when none is configured), whatever [_provider] or
    [_providerPriority] the provider put there itself; its other fields
    are the provider's; and providers whose search failed contribute
    nothing. *)
Theorem combined_tags_every_snippet
    (all : list (string * option (list item))) :
  Forall (fun m =>
            exists name matches m0,
              In (name, Some matches) all /\ In m0 matches
              /\ get m "_provider" = JStr name
              /\ providerKey m = name
              /\ get m "_providerPriority"
                 = JNum (default 0%Q (priority (providerCfg config name)))
              /\ forall f, f <> "_provider" -> f <> "_providerPriority" ->
                           get m f = get m0 f)
         (combined config all)
  /\ length (combined config all)
     = list_sum (map (fun a => length (default [] (snd a))) all).
Proof.
  split.
  - apply List.Forall_forall. intros m Hm. unfold combined in Hm.
    apply in_concat in Hm. destruct Hm as (l & Hl & Hm).
    apply in_map_iff in Hl. destruct Hl as ([name o] & <- & Ha).
    unfold tag in Hm. simpl in Hm. destruct o as [matches|]; [|destruct Hm].
    apply in_map_iff in Hm. destruct Hm as (m0 & <- & Hm0).
    exists name, matches, m0.
    split; [exact Ha|]. split; [exact Hm0|].
    unfold providerKey. rewrite !get_insert. simpl.
    repeat split. intros f H1 H2. rewrite !get_insert.
    destruct (String.eqb_spec f "_providerPriority"); [congruence|].
    destruct (String.eqb_spec f "_provider"); congruence.
  - unfold combined. induction all as [|[name o] all IH]; simpl.
    + reflexivity.
    + rewrite length_app, IH. f_equal.
      unfold tag. simpl. destruct o; simpl; [apply length_map|reflexivity].
Qed.


(** X3: The similarity threshold is clamped: whatever
    [similarityThreshold] is configured, the fraction candidates are
    compared with lies in [0,1]; it is the configured percentage over
    100 when that lies in [0,100], and 0 when none is configured. *)
Theorem threshold_is_clamped :
  (0 <= threshold config <= 1)%Q
  /\ (forall t, similarityThreshold (global config) = Some t ->
        (0 <= t <= 100)%Q -> (threshold config == t / 100)%Q)
  /\ (similarityThreshold (global config) = None ->
      (threshold config == 0)%Q).
Proof.
  unfold threshold.
  destruct (similarityThreshold (global config)) as [t|]; simpl.
  - assert (H : (0 <= Qmax 0 (Qmin 100 t) <= 100)%Q).
    { split; [apply Q.le_max_l|].
      apply Q.max_lub; [lra|apply Q.le_min_l]. }
    split; [|split].
    + split.
      * apply Qle_shift_div_l; lra.
      * apply Qle_shift_div_r; lra.
    + intros t' [= <-] [H0 H100].
      rewrite (Q.min_r 100 t) by exact H100.
      rewrite (Q.max_r 0 t) by exact H0. reflexivity.
    + discriminate.
  - split; [|split].
    + vm_compute. split; discriminate.
    + discriminate.
    + intros _. reflexivity.
Qed.

Lemma groupPush_perm (acc : list (string * list item)) (k : string)
    (m : item) :
  Permutation (concat (map snd (groupPush acc k m)))
              (m :: concat (map snd acc)).
Proof.
  induction acc as [|[k' g] acc IH]; simpl.
  - reflexivity.
  - destruct (String.eqb k k'); simpl.
    + rewrite <- app_assoc. simpl.
      rewrite <- Permutation_middle. reflexivity.
    + rewrite IH. rewrite Permutation_middle. reflexivity.
Qed.

Lemma groupPush_nonempty (acc : list (string * list item)) (k : string)
    (m : item) :
  Forall (fun kg => snd kg <> []) acc ->
  Forall (fun kg => snd kg <> []) (groupPush acc k m).
Proof.
  induction 1 as [|[k' g] acc Hg Hacc IH]; simpl.
  - repeat constructor. discriminate.
  - destruct (String.eqb k k'); constructor; simpl in *; auto.
    destruct g; discriminate.
Qed.

Lemma lookupGroup_In (acc : list (string * list item)) (k : string)
    (g : list item) :
  List.NoDup (map fst acc) -> In (k, g) acc -> lookupGroup k acc = g.
Proof.
  induction acc as [|[k' g'] acc IH]; simpl; intros Hnd Hin; [easy|].
  inversion Hnd as [|? ? Hnot Hnd']; subst.
  destruct Hin as [[= -> ->]|Hin].
  - now rewrite String.eqb_refl.
  - destruct (String.eqb_spec k k') as [->|_]; [|now apply IH].
    exfalso. apply Hnot. apply in_map_iff. now exists (k', g).
Qed.

(** X4: Grouping by provider partitions the list: the group names are
    distinct, no group is empty, each group holds the items of its
    provider in their input order, and the groups together hold every
    item once. *)
Theorem groupByProvider_partitions (l : list item) :
  List.NoDup (map fst (groupByProvider l))
  /\ Forall (fun kg => snd kg <> [] /\ snd kg = fromProvider (fst kg) l)
            (groupByProvider l)
  /\ Permutation (concat (map snd (groupByProvider l))) l.
Proof.
  destruct (groupByProvider_keys l) as [Hnd _].
  split; [exact Hnd|]. split.
  - assert (Hne : Forall (fun kg => snd kg <> []) (groupByProvider l)).
    { induction l as [|m l IH] using rev_ind; [constructor|].
      rewrite groupByProvider_snoc. apply groupPush_nonempty.
      apply IH. apply (groupByProvider_keys l). }
    rewrite List.Forall_forall in *. intros [k g] Hin.
    split; [now apply (Hne (k, g))|]. simpl.
    rewrite <- lookupGroup_groupByProvider. symmetry.
    now apply lookupGroup_In.
  - clear Hnd. induction l as [|m l IH] using rev_ind; [reflexivity|].
    rewrite groupByProvider_snoc, groupPush_perm, IH.
    apply Permutation_cons_append.
Qed.

Lemma filter_perm {X : Type} (f : X -> bool) (l l' : list X) :
  Permutation l l' -> Permutation (List.filter f l) (List.filter f l').
Proof.
  induction 1 as [|x l l' H IH|x y l|l l' l'' H1 IH1 H2 IH2]; simpl.
  - reflexivity.
  - destruct (f x); [now constructor|assumption].
  - destruct (f x), (f y); try reflexivity. apply perm_swap.
  - etransitivity; eassumption.
Qed.

Lemma capList_perm_uncapped (p : string) (g : list item) :
  (maxOf config p <= 0)%Q -> Permutation (capList config p g) g.
Proof.
  intros H. unfold capList, capGroup. simpl.
  apply Qle_bool_iff in H. rewrite H. simpl. apply jsSort_perm.
Qed.

Lemma capList_sub (p : string) (g : list item) :
  exists dropped, Permutation (capList config p g ++ dropped) g.
Proof.
  unfold capList, capGroup, sliceTo. simpl.
  destruct (negb _).
  - exists (drop (Z.to_nat (Qfloor (maxOf config p)))
                 (jsSort bySimilarityDesc g)).
    rewrite take_drop. apply jsSort_perm.
  - exists []. rewrite app_nil_r. apply jsSort_perm.
Qed.

Lemma capped_sub_groups (groups : list (string * list item)) :
  exists dropped,
    Permutation (concat (map snd (map (capGroup config) groups)) ++ dropped)
                (concat (map snd groups)).
Proof.
  induction groups as [|[p g] groups (d & IH)]; simpl.
  - now exists [].
  - destruct (capList_sub p g) as (d0 & H0).
    exists (d0 ++ d). fold (capList config p g).
    transitivity ((capList config p g ++ d0)
                  ++ (concat (map snd (map (capGroup config) groups)) ++ d)).
    + rewrite <- !app_assoc. apply Permutation_app_head.
      rewrite !app_assoc. apply Permutation_app_tail.
      apply Permutation_app_comm.
    + now apply Permutation_app.
Qed.

(** X5: The selection only drops snippets: the candidates together with
    what the caps and the threshold drop are the filtered snippets (so
    no candidate is invented, altered or taken twice), and every
    candidate has a numeric similarity at or above the threshold. *)
Theorem candidates_come_from_the_input (filtered : list item) :
  (exists dropped,
     Permutation (candidates config filtered ++ dropped) filtered)
  /\ Forall (fun m => exists s, get m "similarity" = JNum s
                                /\ (threshold config <= s)%Q)
            (candidates config filtered).
Proof.
  split.
  - destruct (capped_sub_groups (groupByProvider filtered)) as (d & Hd).
    destruct (groupByProvider_partitions filtered) as (_ & _ & Hp).
    unfold candidates.
    exists (List.filter (fun m => negb (aboveThreshold config m))
                        (capped config filtered) ++ d).
    etransitivity; [|exact Hp]. etransitivity; [|exact Hd].
    rewrite app_assoc.
    apply Permutation_app_tail. unfold capped, cappedByProvider.
    generalize (concat (map snd (map (capGroup config)
                                     (groupByProvider filtered)))).
    intros l. induction l as [|m l IH]; simpl; [reflexivity|].
    destruct (aboveThreshold config m); simpl.
    + now constructor.
    + rewrite <- Permutation_middle. now constructor.
  - apply List.Forall_forall. intros m Hm. unfold candidates in Hm.
    apply filter_In in Hm. destruct Hm as [_ Hm].
    unfold aboveThreshold in Hm.
    destruct (get m "similarity") as [| | |s| | |]; try discriminate.
    exists s. split; [reflexivity|]. now apply Qle_bool_iff.
Qed.

(** X6: Where no provider of the filtered snippets has a positive
    [maxResults], the cap drops nothing: the capped list holds every
    filtered snippet once, and the candidates are the snippets at or
    above the threshold. *)
Theorem no_cap_keeps_every_snippet (filtered : list item) :
  Forall (fun m => (maxOf config (providerKey m) <= 0)%Q) filtered ->
  Permutation (capped config filtered) filtered
  /\ Permutation (candidates config filtered)
                 (List.filter (aboveThreshold config) filtered).
Proof.
  intros Hmax.
  assert (Hc : Permutation (capped config filtered) filtered).
  { destruct (groupByProvider_partitions filtered) as (_ & Hg & Hp).
    rewrite <- Hp at 2. unfold capped, cappedByProvider.
    assert (Hk : Forall (fun kg => (maxOf config (fst kg) <= 0)%Q)
                        (groupByProvider filtered)).
    { rewrite List.Forall_forall in *. intros [k g] Hin.
      destruct (Hg _ Hin) as [Hne Hfrom]. simpl in *.
      destruct g as [|m g]; [congruence|].
      assert (Hm : In m (fromProvider k filtered))
        by (rewrite <- Hfrom; now left).
      unfold fromProvider in Hm. apply filter_In in Hm.
      destruct Hm as [Hm Hkey]. apply String.eqb_eq in Hkey. subst k.
      now apply Hmax. }
    clear Hg Hp. induction Hk as [|[k g] gs Hk Hgs IH]; simpl.
    - reflexivity.
    - apply Permutation_app; [|exact IH].
      now apply capList_perm_uncapped. }
  split; [exact Hc|]. unfold candidates. now apply filter_perm.
Qed.

End SelectionMore.

Lemma no_cap_keeps_every_snippet_witness :
  Permutation (capped (rt := asciiRuntime) defaultConfig
                 [candidateA1; twinY; candidateA2])
              [candidateA1; twinY; candidateA2]
  /\ Permutation (candidates (rt := asciiRuntime) defaultConfig
                    [candidateA1; twinY; candidateA2])
                 (List.filter (aboveThreshold defaultConfig)
                    [candidateA1; twinY; candidateA2]).
Proof.
  apply (no_cap_keeps_every_snippet (rt := asciiRuntime) defaultConfig
           [candidateA1; twinY; candidateA2]).
  repeat constructor; vm_compute; discriminate.
Defined.

(** ** More on the worker pool and on enrichment *)

Lemma inFlight_replicate_Pulling (n : nat) :
  omap (fun w => match w with Awaiting idx => Some idx | _ => None end)
       (replicate n Pulling) = [].
Proof. induction n as [|n IH]; [reflexivity|exact IH]. Qed.

(** What replacing worker [k] does to the calls in progress. *)
Lemma inFlight_insert (ws : list worker) (k : nat) (w w' : worker) :
  ws !! k = Some w ->
  let f := fun w => match w with Awaiting idx => Some idx | _ => None end in
  omap f ws
  = omap f (take k ws) ++ option_list (f w) ++ omap f (drop (S k) ws)
  /\ omap f (<[k := w']> ws)
     = omap f (take k ws) ++ option_list (f w') ++ omap f (drop (S k) ws).
Proof.
  intros Hk f. split.
  - rewrite <- (take_drop_middle ws k w Hk) at 1.
    rewrite omap_app. f_equal. simpl. now destruct (f w).
  - rewrite insert_take_drop by (now apply lookup_lt_Some in Hk).
    rewrite omap_app. f_equal. simpl. now destruct (f w').
Qed.

Lemma length_omap_le {X Y : Type} (f : X -> option Y) (l : list X) :
  (length (omap f l) <= length l)%nat.
Proof.
  induction l as [|x l IH]; [simpl; lia|].
  change (omap f (x :: l))
    with (match f x with Some y => y :: omap f l | None => omap f l end).
  destruct (f x); simpl; lia.
Qed.

Lemma omap_ext_fun {X Y : Type} (f g : X -> option Y) (l : list X) :
  (forall x, f x = g x) -> omap f l = omap g l.
Proof.
  intros H. induction l as [|x l IH]; [reflexivity|].
  change (omap f (x :: l))
    with (match f x with Some y => y :: omap f l | None => omap f l end).
  change (omap g (x :: l))
    with (match g x with Some y => y :: omap g l | None => omap g l end).
  now rewrite H, IH.
Qed.

Section PoolMore.
Context {A B : Type}.
Variable items : list A.
Variable iteratorFn : A -> option B.
Variable null : B.
Variable limit : nat.

Lemma stepWorker_inFlight (k : nat) (st st' : pool B) :
  stepWorker items iteratorFn null k st = Some st' ->
  List.NoDup (inFlight st)
  /\ Forall (fun i => (i < cursor st)%nat) (inFlight st) ->
  List.NoDup (inFlight st')
  /\ Forall (fun i => (i < cursor st')%nat) (inFlight st').
Proof.
  unfold stepWorker, inFlight. intros Hstep [Hnd Hlt].
  destruct (workers st !! k) as [w|] eqn:Hk; [|discriminate].
  destruct w as [|idx|]; [| |discriminate].
  - destruct (inFlight_insert (workers st) k Pulling
                (Awaiting (cursor st)) Hk) as [E1 _].
    destruct (inFlight_insert (workers st) k Pulling Returned Hk)
      as [_ E3].
    destruct (inFlight_insert (workers st) k Pulling
                (Awaiting (cursor st)) Hk) as [_ E2].
    simpl in E1, E2, E3. rewrite E1 in Hnd, Hlt.
    destruct (cursor st <? length items)%nat;
      injection Hstep as <-; cbn [workers cursor].
    + rewrite E2. split.
      * eapply Permutation_NoDup; [apply Permutation_middle|].
        constructor; [|exact Hnd]. intros Hin.
        rewrite List.Forall_forall in Hlt. specialize (Hlt _ Hin). lia.
      * apply Forall_app in Hlt. destruct Hlt as [H1 H2].
        apply Forall_app. split; [|constructor; [lia|]];
          (eapply List.Forall_impl; [|eassumption]); simpl; intros; lia.
    + rewrite E3. simpl. split; [exact Hnd|].
      eapply List.Forall_impl; [|exact Hlt]. simpl. intros. lia.
  - destruct (items !! idx) as [x|]; [|discriminate].
    injection Hstep as <-. cbn [workers cursor].
    destruct (inFlight_insert (workers st) k (Awaiting idx) Pulling Hk)
      as [E1 E2].
    simpl in E1, E2. rewrite E1 in Hnd, Hlt. rewrite E2. simpl. split.
    + eapply NoDup_remove_1. exact Hnd.
    + apply Forall_app in Hlt. destruct Hlt as [H1 H2].
      apply Forall_app. split; [exact H1|]. now inversion H2.
Qed.

(** X7: The pool bounds the concurrency: at every moment of every run at
    most [limit] calls of [iteratorFn] are in progress, they are on
    different items, and each is on an item of the list that has been
    handed out. *)
Theorem pool_bounds_the_calls_in_progress (st : pool B) :
  poolReachable items iteratorFn null limit st ->
  (length (inFlight st) <= limit)%nat
  /\ List.NoDup (inFlight st)
  /\ Forall (fun i => (i < cursor st)%nat /\ (i < length items)%nat)
            (inFlight st).
Proof.
  intros Hr. pose proof (poolReachable_inv items iteratorFn null limit st Hr)
    as HI.
  assert (H : List.NoDup (inFlight st)
              /\ Forall (fun i => (i < cursor st)%nat) (inFlight st)).
  { unfold poolReachable in Hr.
    apply rtc_ind_r
      with (x := poolInit items limit)
           (P := fun st =>
                   List.NoDup (inFlight st)
                   /\ Forall (fun i => (i < cursor st)%nat) (inFlight st))
      in Hr.
    - exact Hr.
    - unfold inFlight, poolInit. cbn [workers].
      rewrite inFlight_replicate_Pulling. split; constructor.
    - intros y z _ [k Hk] Hy. now apply (stepWorker_inFlight k y z). }
  destruct H as [Hnd Hlt]. split; [|split; [exact Hnd|]].
  - unfold inFlight. etransitivity; [apply length_omap_le|].
    rewrite (inv_workers _ _ _ _ _ HI). apply Nat.le_min_l.
  - apply List.Forall_forall. intros i Hi. unfold inFlight in Hi.
    apply list_elem_of_In, list_elem_of_omap in Hi.
    destruct Hi as (w & Hw & Ew). destruct w as [|idx|]; try discriminate.
    injection Ew as ->. apply list_elem_of_lookup in Hw.
    destruct Hw as [k Hk].
    exact (inv_awaiting _ _ _ _ _ HI k i Hk).
Qed.

(** X8: Without workers nothing is fetched: with a limit of 0 the pool
    returns at once with every slot empty, and on an empty list it
    returns the empty list whatever the limit. *)
Theorem mapWithConcurrency_without_workers :
  mapWithConcurrency items iteratorFn null 0
  = replicate (length items) None
  /\ mapWithConcurrency [] iteratorFn null limit = [].
Proof.
  unfold mapWithConcurrency. split.
  - generalize (poolMeasure items (poolInit (B := B) items 0)).
    intros fuel. destruct fuel; reflexivity.
  - generalize (poolMeasure (A := A) []
                (poolInit (A := A) (B := B) [] limit)).
    intros fuel. unfold poolInit. simpl. rewrite Nat.min_0_r.
    destruct fuel; reflexivity.
Qed.

End PoolMore.

Lemma pool_bounds_the_calls_in_progress_witness :
  (length (inFlight twoInFlight) <= 2)%nat
  /\ List.NoDup (inFlight twoInFlight)
  /\ Forall (fun i => (i < cursor twoInFlight)%nat
                      /\ (i < length [10; 20; 30]%nat)%nat)
            (inFlight twoInFlight).
Proof.
  apply (pool_bounds_the_calls_in_progress [10; 20; 30]%nat Some 0%nat 2).
  unfold poolReachable.
  eapply rtc_l; [exists 0%nat; reflexivity|].
  eapply rtc_l; [exists 1%nat; reflexivity|].
  apply rtc_refl.
Defined.

Section EnrichmentMore.
Variable config : Config.

(** X9: The worker pool and the sequential fallback enrich alike: two
    loaded providers with the same [getFullMetadata] give the same
    enriched list for a group, whether or not they expose
    [mapWithConcurrency]. *)
Theorem enrichment_paths_agree (loaded1 loaded2 : list (string * Instance))
    (providerName name1 name2 : string) (inst1 inst2 : Instance)
    (matches : list item) :
  List.find (fun p => String.eqb (fst p) providerName) loaded1
  = Some (name1, inst1) ->
  List.find (fun p => String.eqb (fst p) providerName) loaded2
  = Some (name2, inst2) ->
  getFullMetadata inst1 = getFullMetadata inst2 ->
  enrichGroup config loaded1 (providerName, matches)
  = enrichGroup config loaded2 (providerName, matches).
Proof.
  intros H1 H2 E.
  rewrite (enrichGroup_fetched config loaded1 providerName name1 inst1)
    by exact H1.
  rewrite (enrichGroup_fetched config loaded2 providerName name2 inst2)
    by exact H2.
  f_equal. apply omap_ext_fun. intros m. unfold fetched. now rewrite E.
Qed.

Lemma filter_split_length {X : Type} (f : X -> bool) (l : list X) :
  (length (List.filter f l) + length (List.filter (fun x => negb (f x)) l)
   = length l)%nat.
Proof.
  induction l as [|x l IH]; simpl; [reflexivity|].
  destruct (f x); simpl; lia.
Qed.

Lemma enrichGroup_length (loaded : list (string * Instance))
    (g : string * list item) :
  (length (enrichGroup config loaded g) <= length (snd g))%nat.
Proof.
  destruct g as [providerName matches]. simpl.
  destruct (List.find (fun p => String.eqb (fst p) providerName) loaded)
    as [[name inst]|] eqn:Hf.
  - rewrite (enrichGroup_fetched config loaded providerName name inst)
      by exact Hf.
    rewrite length_app.
    pose proof (length_omap_le (fetched inst)
                  (List.filter needsFetch matches)).
    pose proof (filter_split_length alreadyFetched matches) as Hs.
    change (fun x => negb (alreadyFetched x)) with needsFetch in Hs.
    lia.
  - unfold enrichGroup. simpl. rewrite Hf. simpl. lia.
Qed.

(** X10: Enrichment never adds results: there are at most as many
    enriched results as candidates; and the candidates of a provider
    that is no longer loaded are dropped, so with no provider loaded
    nothing is left. *)
Theorem enrichment_never_adds_results (loaded : list (string * Instance))
    (groups : list (string * list item)) :
  (length (fullResultsOf config loaded groups)
   <= length (concat (map snd groups)))%nat
  /\ Forall (fun g =>
               List.find (fun p => String.eqb (fst p) (fst g)) loaded = None ->
               enrichGroup config loaded g = [])
            groups
  /\ fullResultsOf config [] groups = [].
Proof.
  unfold fullResultsOf. split; [|split].
  - induction groups as [|g groups IH]; simpl; [lia|].
    rewrite !length_app. pose proof (enrichGroup_length loaded g). lia.
  - apply List.Forall_forall. intros g _ Hf.
    unfold enrichGroup. now rewrite Hf.
  - induction groups as [|g groups IH]; simpl; [reflexivity|exact IH].
Qed.

End EnrichmentMore.

Lemma enrichment_paths_agree_witness :
  enrichGroup cappedConfig [("A", flakyInstance)]
    ("A", [candidateA1; candidateA2])
  = enrichGroup cappedConfig
      [("A", {| hasMapWithConcurrency := false;
                getFullMetadata := getFullMetadata flakyInstance |})]
      ("A", [candidateA1; candidateA2]).
Proof.
  apply (enrichment_paths_agree cappedConfig
           [("A", flakyInstance)]
           [("A", {| hasMapWithConcurrency := false;
                     getFullMetadata := getFullMetadata flakyInstance |})]
           "A" "A" "A" flakyInstance
           {| hasMapWithConcurrency := false;
              getFullMetadata := getFullMetadata flakyInstance |}
           [candidateA1; candidateA2]); reflexivity.
Defined.

(** ** More on the merge engine *)

Lemma byPriorityThenFields_before (a b : item) :
  before byPriorityThenFields a b <-> richerFirst a b.
Proof.
  unfold before, sortCompare, byPriorityThenFields, richerFirst.
  destruct (Qeq_bool (priorityOf b) (priorityOf a)) eqn:E; simpl.
  - apply Qeq_bool_iff in E. change 0%Q with (inject_Z 0).
    rewrite <- (Zle_Qle (countNonEmpty b - countNonEmpty a) 0). split.
    + intros H. right. split; [exact E|lia].
    + intros [H|[_ H]]; [rewrite E in H; lra|lia].
  - apply Qeq_bool_neq in E. split.
    + intros H. left. lra.
    + intros [H|[H _]]; [lra|contradiction].
Qed.

Lemma richerFirst_refl (a : item) : richerFirst a a.
Proof. right. split; [reflexivity|lia]. Qed.

Lemma richerFirst_total (a b : item) : ~ richerFirst a b -> richerFirst b a.
Proof.
  unfold richerFirst. intros H.
  destruct (Qlt_le_dec (priorityOf a) (priorityOf b)) as [Hlt|Hle];
    [now left|].
  destruct (Qlt_le_dec (priorityOf b) (priorityOf a)) as [Hlt'|Hle'].
  - exfalso. apply H. now left.
  - assert (E : priorityOf b == priorityOf a) by lra.
    right. split; [now symmetry|].
    destruct (Z_le_gt_dec (countNonEmpty a) (countNonEmpty b));
      [assumption|].
    exfalso. apply H. right. split; [exact E|lia].
Qed.

Lemma richerFirst_trans (a b c : item) :
  richerFirst a b -> richerFirst b c -> richerFirst a c.
Proof.
  unfold richerFirst. intros [H1|[E1 T1]] [H2|[E2 T2]].
  - left. lra.
  - left. lra.
  - left. lra.
  - right. split; [lra|lia].
Qed.

Lemma sortedGroupOf_sorted (topGroup : list item) :
  StronglySorted richerFirst (sortedGroupOf topGroup).
Proof.
  unfold sortedGroupOf.
  assert (Hs : StronglySorted (before byPriorityThenFields)
                 (jsSort byPriorityThenFields topGroup)).
  { apply (jsSort_sorted byPriorityThenFields (fun _ => True)).
    - intros a b _ _. rewrite !byPriorityThenFields_before.
      apply richerFirst_total.
    - intros a b c _ _ _. rewrite !byPriorityThenFields_before.
      apply richerFirst_trans.
    - apply List.Forall_forall. intros; exact I. }
  induction Hs as [|a s Hs IH Ha]; constructor; [exact IH|].
  eapply List.Forall_impl; [|exact Ha].
  intros b. apply byPriorityThenFields_before.
Qed.

(** X11: The resolution order of the merge: [sortedGroup] holds the
    members of the tie group, each once, by descending provider priority
    and, among equal priorities, by descending number of filled fields. *)
Theorem sortedGroup_is_the_resolution_order (topGroup : list item) :
  Permutation (sortedGroupOf topGroup) topGroup
  /\ StronglySorted richerFirst (sortedGroupOf topGroup).
Proof.
  split; [apply jsSort_perm|apply sortedGroupOf_sorted].
Qed.

Lemma find_first_sorted {X : Type} (R : X -> X -> Prop) (f : X -> bool)
    (l : list X) (c m : X) :
  (forall x, R x x) -> StronglySorted R l ->
  List.find f l = Some c -> In m l -> f m = true -> R c m.
Proof.
  intros Hrefl Hs. induction Hs as [|a l Hs IH Ha]; simpl; [easy|].
  intros Hf Hm Hfm. destruct (f a) eqn:Efa.
  - injection Hf as <-. destruct Hm as [<-|Hm]; [apply Hrefl|].
    rewrite List.Forall_forall in Ha. now apply Ha.
  - destruct Hm as [<-|Hm]; [congruence|]. now apply IH.
Qed.

Section MergeMore.
Context {rt : Runtime}.
Variable config : Config.

(** X12: Where no preference applies to a field, the merged value is
    that of the best-placed member that has the field: it comes from a
    member of the tie group, and no member that has the field has a
    higher provider priority, or the same priority and more filled
    fields. *)
Theorem merged_field_comes_from_the_best_provider (topGroup : list item)
    (field : string) (m : item) :
  (forall p, preferred config field = Some p ->
             findFrom (sortedGroupOf topGroup) p
                      (fun i => hasField i field) = None) ->
  In m topGroup -> hasField m field = true ->
  exists c,
    In c topGroup /\ hasField c field = true
    /\ pickFieldAndSource config (sortedGroupOf topGroup) field
       = (getFieldValue c field, get c "_provider")
    /\ richerFirst c m.
Proof.
  intros Hp Hm Hf.
  rewrite (pickFieldAndSource_fallback config _ field Hp).
  assert (Hin : forall x, In x (sortedGroupOf topGroup) <-> In x topGroup)
    by (intros x; apply jsSort_In).
  assert (Hm' : In m (sortedGroupOf topGroup)) by now apply Hin.
  destruct (List.find (fun i => hasField i field) (sortedGroupOf topGroup))
    as [c|] eqn:E.
  - destruct (find_some _ _ E) as [Hc Hfc].
    exists c. split; [now apply Hin|].
    split; [exact Hfc|]. split; [reflexivity|].
    apply (find_first_sorted richerFirst (fun i => hasField i field)
             (sortedGroupOf topGroup)); auto using richerFirst_refl.
    apply sortedGroupOf_sorted.
  - pose proof (find_none _ _ E m Hm') as Hn. simpl in Hn. congruence.
Qed.


Lemma assocGet_assocSet (o : list (string * jsval)) (k k' : string)
    (v : jsval) :
  assocGet (assocSet o k' v) k
  = if String.eqb k k' then v else assocGet o k.
Proof.
  induction o as [|[k1 v1] o IH]; simpl.
  - destruct (String.eqb k k'); reflexivity.
  - destruct (String.eqb_spec k' k1) as [->|Hne]; simpl.
    + destruct (String.eqb k k1); reflexivity.
    + destruct (String.eqb_spec k k1) as [->|Hk].
      * destruct (String.eqb_spec k1 k'); [congruence|reflexivity].
      * exact IH.
Qed.

Lemma assocSet_keys (o : list (string * jsval)) (k : string) (v : jsval) :
  map fst (assocSet o k v)
  = if existsb (String.eqb k) (map fst o) then map fst o
    else map fst o ++ [k].
Proof.
  induction o as [|[k1 v1] o IH]; simpl; [reflexivity|].
  destruct (String.eqb k k1) eqn:E; simpl; [reflexivity|].
  rewrite IH. destruct (existsb _ _); reflexivity.
Qed.

Lemma assocSet_truthy (o : list (string * jsval)) (k : string) (v : jsval) :
  truthy v = true ->
  Forall (fun kv => truthy (snd kv) = true) o ->
  Forall (fun kv => truthy (snd kv) = true) (assocSet o k v).
Proof.
  intros Hv. induction 1 as [|[k1 v1] o H1 Ho IH]; simpl.
  - now repeat constructor.
  - destruct (String.eqb k k1); constructor; auto.
Qed.

Lemma assocSet_NoDup (o : list (string * jsval)) (k : string) (v : jsval) :
  List.NoDup (map fst o) -> List.NoDup (map fst (assocSet o k v)).
Proof.
  intros Hnd. rewrite assocSet_keys.
  destruct (existsb (String.eqb k) (map fst o)) eqn:E; [exact Hnd|].
  eapply Permutation_NoDup; [apply Permutation_cons_append|].
  constructor; [|exact Hnd].
  intros Hin. assert (existsb (String.eqb k) (map fst o) = true).
  { apply existsb_exists. exists k. split; [exact Hin|].
    apply String.eqb_refl. }
  congruence.
Qed.

Lemma assocGet_falsy (o : list (string * jsval)) (k : string) :
  Forall (fun kv => truthy (snd kv) = true) o ->
  truthy (assocGet o k) = false -> assocGet o k = JUndefined.
Proof.
  induction 1 as [|[k1 v1] o H1 Ho IH]; simpl; [reflexivity|].
  destruct (String.eqb k k1); [simpl in H1; congruence|exact IH].
Qed.

(** The merge of identifiers from an arbitrary start. *)
Lemma mergeIdentifiers_fold (kvs acc : list (string * jsval)) :
  let step :=
    fun (identifiers : list (string * jsval)) (kv : string * jsval) =>
      if negb (truthy (assocGet identifiers (fst kv))) && truthy (snd kv)
      then assocSet identifiers (fst kv) (snd kv)
      else identifiers in
  List.NoDup (map fst acc) ->
  Forall (fun kv => truthy (snd kv) = true) acc ->
  (forall k, assocGet (fold_left step kvs acc) k
             = if truthy (assocGet acc k) then assocGet acc k
               else firstTruthy k kvs)
  /\ List.NoDup (map fst (fold_left step kvs acc))
  /\ Forall (fun kv => truthy (snd kv) = true) (fold_left step kvs acc).
Proof.
  intros step. revert acc.
  induction kvs as [|[k' v] kvs IH]; intros acc Hnd Ht; simpl.
  - split; [|now split]. intros k. unfold firstTruthy. simpl.
    destruct (truthy (assocGet acc k)) eqn:E; [reflexivity|].
    now apply assocGet_falsy.
  - assert (Hacc : List.NoDup (map fst (step acc (k', v)))
                   /\ Forall (fun kv => truthy (snd kv) = true)
                             (step acc (k', v))).
    { unfold step. simpl.
      destruct (negb (truthy (assocGet acc k')) && truthy v) eqn:E;
        [|now split].
      apply andb_true_iff in E. destruct E as [_ Hv].
      split; [now apply assocSet_NoDup|now apply assocSet_truthy]. }
    destruct Hacc as [Hnd' Ht'].
    destruct (IH (step acc (k', v)) Hnd' Ht') as (IH1 & IH2 & IH3).
    split; [|now split]. intros k. rewrite IH1. unfold step. simpl.
    unfold firstTruthy. simpl.
    destruct (negb (truthy (assocGet acc k')) && truthy v) eqn:E.
    + apply andb_true_iff in E. destruct E as [Hk' Hv].
      apply negb_true_iff in Hk'. rewrite assocGet_assocSet.
      destruct (String.eqb_spec k k') as [->|Hne]; simpl.
      * now rewrite Hv, Hk'.
      * reflexivity.
    + destruct (truthy (assocGet acc k)) eqn:Ek; [reflexivity|].
      destruct (String.eqb_spec k k') as [->|Hne]; simpl; [|reflexivity].
      rewrite Ek in E. simpl in E. now rewrite E.
Qed.

(** X14: Identifiers are merged key by key, the first truthy value in
    resolution order winning: under each key (the names inherited from
    [Object.prototype] apart) the merged [identifiers] object holds the
    first truthy value any member has under that key; it holds no key
    twice and no falsy value (an empty ISBN is not carried over). *)
Theorem merged_identifiers_take_the_first_value (sortedGroup : list item) :
  (forall k, ownName k = true ->
             assocGet (mergeIdentifiers sortedGroup) k
             = firstTruthy k (identifierEntries sortedGroup))
  /\ List.NoDup (map fst (mergeIdentifiers sortedGroup))
  /\ Forall (fun kv => truthy (snd kv) = true)
            (mergeIdentifiers sortedGroup).
Proof.
  destruct (mergeIdentifiers_fold (identifierEntries sortedGroup) [])
    as (H1 & H2 & H3); [constructor|constructor|].
  split; [|split; [exact H2|exact H3]].
  intros k _. exact (H1 k).
Qed.

Lemma setOf_strings (xs acc : list string) :
  List.NoDup acc ->
  exists l,
    fold_left setAdd (map JStr xs) (map JStr acc) = map JStr l
    /\ List.NoDup l
    /\ forall s, In s l <-> In s acc \/ In s xs.
Proof.
  revert acc. induction xs as [|x xs IH]; intros acc Hnd; simpl.
  - exists acc. repeat split; auto. intros [H|[]]; exact H.
  - assert (E : existsb (strictEq (JStr x)) (map JStr acc) = true
                <-> In x acc).
    { rewrite existsb_exists. split.
      - intros (v & Hv & Hx). apply in_map_iff in Hv.
        destruct Hv as (y & <- & Hy). simpl in Hx.
        apply String.eqb_eq in Hx. now subst.
      - intros Hx. exists (JStr x). split; [now apply in_map|].
        simpl. apply String.eqb_refl. }
    unfold setAdd at 2.
    destruct (existsb (strictEq (JStr x)) (map JStr acc)) eqn:Ex.
    + destruct (IH acc Hnd) as (l & El & Hl & Hin).
      exists l. repeat split; auto.
      * intros H. apply Hin in H. tauto.
      * intros [H|[<-|H]]; apply Hin; auto. left. now apply E.
    + assert (Hx : ~ In x acc) by (intros H; apply E in H; congruence).
      assert (Hnd' : List.NoDup (acc ++ [x])).
      { eapply Permutation_NoDup; [apply Permutation_cons_append|].
        now constructor. }
      destruct (IH (acc ++ [x]) Hnd') as (l & El & Hl & Hin).
      exists l. rewrite map_app in El. repeat split; auto.
      * intros H. apply Hin in H. rewrite in_app_iff in H. simpl in H.
        tauto.
      * intros H. apply Hin. rewrite in_app_iff. simpl. tauto.
Qed.

(** X15: Without a preference that applies, a merged list field
    ([genres], [tags]) is the union of the members' lists after
    normalization: an array of strings, each the trimmed, lowercased
    form of some member's entry, none empty and none twice. *)
Theorem merged_list_is_a_normalized_union (sortedGroup : list item)
    (field : string) :
  (forall p, preferred config field = Some p ->
             findFrom sortedGroup p (hasList field) = None) ->
  exists l,
    pickListPrefOrUnion config sortedGroup field = JArr (map JStr l)
    /\ List.NoDup l
    /\ forall s, In s l
                 <-> s <> ""
                     /\ exists it v, In it sortedGroup
                                     /\ In v (elems (get it field))
                                     /\ normalize v = s.
Proof.
  intros Hp.
  destruct (setOf_strings
              (List.filter nonEmpty
                 (map normalize
                    (concat (map (fun it => elems (get it field))
                                 sortedGroup)))) [])
    as (l & El & Hl & Hin); [constructor|].
  exists l. split; [|split; [exact Hl|]].
  - unfold pickListPrefOrUnion, setOf.
    change (@nil jsval) with (map JStr []). rewrite El.
    destruct (preferred config field) as [p|]; [|reflexivity].
    now rewrite (Hp p eq_refl).
  - intros s. rewrite Hin. split.
    + intros [[]|H]. apply filter_In in H. destruct H as [H Hne].
      split.
      * intros ->. discriminate.
      * apply in_map_iff in H. destruct H as (v & <- & Hv).
        apply in_concat in Hv. destruct Hv as (vs & Hvs & Hv).
        apply in_map_iff in Hvs. destruct Hvs as (it & <- & Hit).
        now exists it, v.
    + intros (Hne & it & v & Hit & Hv & <-). right.
      apply filter_In. split.
      * apply in_map. apply in_concat.
        exists (elems (get it field)). split; [|exact Hv].
        apply in_map_iff. now exists it.
      * unfold nonEmpty. apply negb_true_iff.
        now apply String.eqb_neq.
Qed.

(** X16: A series given as a string is not merged: without a preference
    for the series, a tie group in which no member gives [series] as an
    array yields a merged record with no series, whatever series the
    members name by a string. *)
Theorem string_series_is_not_merged (topGroup : list item) (topSim : Q) :
  preferred config "series" = None ->
  Forall (fun it => isArray (get it "series") = false) topGroup ->
  get (mergedRecord config topGroup topSim) "series" = JUndefined.
Proof.
  intros Hp Hs.
  assert (Hsg : Forall (fun it => isArray (get it "series") = false)
                       (sortedGroupOf topGroup)).
  { eapply Permutation_Forall; [symmetry; apply jsSort_perm|exact Hs]. }
  assert (Hc : concat (map (fun it => seriesAdds (get it "series"))
                           (sortedGroupOf topGroup)) = []).
  { induction Hsg as [|it l Hit Hl IH]; simpl; [reflexivity|].
    rewrite IH. destruct (get it "series"); simpl in *;
      try reflexivity; discriminate. }
  assert (Ep : exists index,
             seriesPick config (sortedGroupOf topGroup) = (JStr "", index)).
  { unfold seriesPick, seriesFromPreferred. rewrite Hp, Hc.
    eexists. reflexivity. }
  destruct Ep as [index Ep].
  unfold mergedRecord. rewrite Ep.
  rewrite get_assignments. reflexivity.
Qed.

Lemma sources_fold_other (sortedGroup : list item) (k : string)
    (fields : list string) (o : list (string * jsval)) :
  ~ In k fields ->
  assocGet
    (fold_left
       (fun o f =>
          match singleSource config sortedGroup f with
          | Some src => assocSet o f src
          | None => o
          end)
       fields o) k
  = assocGet o k.
Proof.
  revert o. induction fields as [|f fields IH]; intros o Hk; simpl.
  - reflexivity.
  - rewrite IH by (intros H; apply Hk; now right).
    destruct (singleSource config sortedGroup f); [|reflexivity].
    rewrite assocGet_assocSet.
    destruct (String.eqb_spec k f) as [->|_]; [|reflexivity].
    exfalso. apply Hk. now left.
Qed.

(** X17: A preference for a list field is recorded as its source whoever
    supplied the list: with [mergePreferences.genres] (or [tags], or
    [series]) set, [_mergedFieldSources] names the preference for that
    field, whether or not the tie group has a member of that provider
    and whether or not the merged value came from it. *)
Theorem list_source_is_the_preference (topGroup : list item) (topSim : Q)
    (field p : string) :
  In field ["genres"; "tags"; "series"] ->
  preferred config field = Some p ->
  getProp (get (mergedRecord config topGroup topSim) "_mergedFieldSources")
          field
  = JStr p.
Proof.
  intros Hf Hp. rewrite mergedRecord_sources.
  unfold getProp, mergedFieldSources.
  rewrite sources_fold_other.
  - simpl in Hf. destruct Hf as [<-|[<-|[<-|[]]]];
      unfold listSources; simpl; now rewrite Hp.
  - simpl in Hf. unfold singleFields.
    destruct Hf as [<-|[<-|[<-|[]]]]; simpl;
      intros H; repeat (destruct H as [H|H]; [discriminate|]); exact H.
Qed.

End MergeMore.

Lemma merged_field_comes_from_the_best_provider_witness :
  exists c,
    In c [resultB; resultA] /\ hasField c "title" = true
    /\ pickFieldAndSource defaultConfig (sortedGroupOf [resultB; resultA])
         "title"
       = (getFieldValue c "title", get c "_provider")
    /\ richerFirst c resultB.
Proof.
  apply (merged_field_comes_from_the_best_provider defaultConfig
           [resultB; resultA] "title" resultB).
  - intros p Hp. vm_compute in Hp. discriminate.
  - left. reflexivity.
  - reflexivity.
Defined.

Lemma merged_list_is_a_normalized_union_witness :
  exists l,
    pickListPrefOrUnion (rt := asciiRuntime) defaultConfig
      [genresA; genresB] "genres" = JArr (map JStr l)
    /\ List.NoDup l
    /\ forall s, In s l
                 <-> s <> ""
                     /\ exists it v, In it [genresA; genresB]
                                     /\ In v (elems (get it "genres"))
                                     /\ normalize (rt := asciiRuntime) v = s.
Proof.
  apply (merged_list_is_a_normalized_union (rt := asciiRuntime)
           defaultConfig [genresA; genresB] "genres").
  intros p Hp. vm_compute in Hp. discriminate.
Defined.

Lemma string_series_is_not_merged_witness :
  get (mergedRecord (rt := asciiRuntime) defaultConfig [seriesA; seriesB] 1)
      "series" = JUndefined.
Proof.
  apply (string_series_is_not_merged (rt := asciiRuntime) defaultConfig
           [seriesA; seriesB] 1).
  - reflexivity.
  - repeat constructor.
Defined.

Lemma list_source_is_the_preference_witness :
  getProp (get (mergedRecord (rt := asciiRuntime) preferGenresC
                  [resultA; resultB] 1) "_mergedFieldSources")
          "genres"
  = JStr "C".
Proof.
  apply (list_source_is_the_preference (rt := asciiRuntime) preferGenresC
           [resultA; resultB] 1 "genres" "C").
  - left. reflexivity.
  - reflexivity.
Defined.

(** ** The preferences the merge reads *)

Lemma fold_left_ext_in {X Y : Type} (f g : X -> Y -> X) (l : list Y)
    (x : X) :
  (forall a y, In y l -> f a y = g a y) ->
  fold_left f l x = fold_left g l x.
Proof.
  revert x. induction l as [|y l IH]; intros x H; simpl; [reflexivity|].
  rewrite (H x y) by now left. apply IH. intros a z Hz. apply H. now right.
Qed.

Section PreferencesRead.
Context {rt : Runtime}.
Variable c1 : Config.
Variable c2 : Config.
Hypothesis same_preferences :
  forall f, isRead f = true -> preferred c1 f = preferred c2 f.
Hypothesis same_switch :
  mergeBestResults (global c1) = mergeBestResults (global c2).

Lemma pickWith_agree (sg : list item) (key : string) (test : item -> bool)
    (value : item -> jsval) :
  isRead key = true ->
  pickWith c1 sg key test value = pickWith c2 sg key test value.
Proof. intros H. unfold pickWith. now rewrite (same_preferences key H). Qed.

Lemma pickFieldAndSource_agree (sg : list item) (field : string) :
  isRead field = true ->
  pickFieldAndSource c1 sg field = pickFieldAndSource c2 sg field.
Proof. intros H. unfold pickFieldAndSource. now apply pickWith_agree. Qed.

Lemma pickIdentifierAndSource_agree (sg : list item) (key : string) :
  pickIdentifierAndSource c1 sg key = pickIdentifierAndSource c2 sg key.
Proof. unfold pickIdentifierAndSource. now apply pickWith_agree. Qed.

Lemma pickPublishedYearAndSource_agree (sg : list item) :
  pickPublishedYearAndSource c1 sg = pickPublishedYearAndSource c2 sg.
Proof.
  unfold pickPublishedYearAndSource.
  now rewrite (same_preferences "publishedYear" eq_refl).
Qed.

Lemma pickLanguageAndSource_agree (sg : list item) :
  pickLanguageAndSource c1 sg = pickLanguageAndSource c2 sg.
Proof. unfold pickLanguageAndSource. now apply pickWith_agree. Qed.

Lemma coverPick_agree (sg : list item) : coverPick c1 sg = coverPick c2 sg.
Proof.
  unfold coverPick. now rewrite (pickFieldAndSource_agree sg "cover" eq_refl).
Qed.

Lemma seriesPick_agree (sg : list item) : seriesPick c1 sg = seriesPick c2 sg.
Proof.
  unfold seriesPick, seriesFromPreferred.
  now rewrite (same_preferences "series" eq_refl).
Qed.

Lemma pickListPrefOrUnion_agree (sg : list item) (field : string) :
  isRead field = true ->
  pickListPrefOrUnion c1 sg field = pickListPrefOrUnion c2 sg field.
Proof.
  intros H. unfold pickListPrefOrUnion. now rewrite (same_preferences field H).
Qed.

Lemma mergedFieldSources_agree (sg : list item) :
  mergedFieldSources c1 sg = mergedFieldSources c2 sg.
Proof.
  unfold mergedFieldSources, listSources.
  rewrite (same_preferences "genres" eq_refl),
          (same_preferences "tags" eq_refl),
          (same_preferences "series" eq_refl).
  apply fold_left_ext_in. intros o f Hf. unfold singleSource.
  rewrite (same_preferences f); [reflexivity|].
  simpl in Hf.
  repeat (destruct Hf as [<-|Hf]; [reflexivity|]). destruct Hf.
Qed.

Lemma mergedRecord_agree (topGroup : list item) (topSim : Q) :
  mergedRecord c1 topGroup topSim = mergedRecord c2 topGroup topSim.
Proof.
  unfold mergedRecord.
  rewrite seriesPick_agree, coverPick_agree, mergedFieldSources_agree,
          pickPublishedYearAndSource_agree, pickLanguageAndSource_agree.
  rewrite !(pickListPrefOrUnion_agree (sortedGroupOf topGroup))
    by reflexivity.
  rewrite !(pickIdentifierAndSource_agree (sortedGroupOf topGroup)).
  rewrite !(pickFieldAndSource_agree (sortedGroupOf topGroup))
    by reflexivity.
  reflexivity.
Qed.

Lemma mergeStep_agree (fullResults : list item) :
  mergeStep c1 fullResults = mergeStep c2 fullResults.
Proof.
  unfold mergeStep. rewrite same_switch.
  destruct (mergeBestResults (global c2)); [|reflexivity].
  destruct fullResults as [|top rest]; [reflexivity|].
  now rewrite mergedRecord_agree.
Qed.

End PreferencesRead.

Lemma preferred_withPreference (config : Config) (k p f : string) :
  f <> k -> preferred (withPreference k p config) f = preferred config f.
Proof.
  intros Hne. unfold preferred, withPreference. simpl.
  rewrite lookup_insert_ne by congruence. reflexivity.
Qed.

(** X18: A preference under [isbn] or [asin] is never read: with
    [mergePreferences.isbn] or [mergePreferences.asin] set to any
    provider, the merge step returns what it returns without it (the
    ISBN and the ASIN follow the preference under [identifiers]). *)
Theorem isbn_and_asin_preferences_are_not_read {rt : Runtime}
    (config : Config) (p : string) (fullResults : list item) :
  mergeStep (withPreference "isbn" p config) fullResults
  = mergeStep config fullResults
  /\ mergeStep (withPreference "asin" p config) fullResults
     = mergeStep config fullResults.
Proof.
  split; apply mergeStep_agree; try reflexivity.
  - intros f Hf. apply preferred_withPreference. intros ->. discriminate.
  - intros f Hf. apply preferred_withPreference. intros ->. discriminate.
Qed.

(** ** The tail of the handler *)

Section HandlerMore.
Context {rt : Runtime}.
Variable config : Config.




Lemma concat_nonempty (sep x : string) (xs : list string) :
  x <> "" -> String.concat sep (x :: xs) <> "".
Proof.
  intros Hx. destruct x as [|c x]; [congruence|].
  destruct xs; simpl; discriminate.
Qed.

Lemma join_strings (sep : string) (l : list string) :
  join sep (JArr (map JStr l)) = Some (String.concat sep l).
Proof.
  unfold join. f_equal. f_equal. induction l as [|s l IH]; simpl.
  - reflexivity.
  - now rewrite IH.
Qed.

Lemma filter_nonEmpty (l : list string) :
  Forall (fun s => s <> "") (List.filter nonEmpty l).
Proof.
  apply List.Forall_forall. intros s Hs. apply filter_In in Hs.
  destruct Hs as [_ Hs]. unfold nonEmpty in Hs.
  apply negb_true_iff in Hs. now apply String.eqb_neq.
Qed.

(** The joined [author] of a result whose [authors] has been normalized
    to the names [names]. *)
Lemma normalizeAuthors_joined (it1 : item) (names : list string) :
  (if truthy (JArr (map JStr names))
      && truthy (lengthOf (JArr (map JStr names)))
   then a ← join ", " (JArr (map JStr names));
        Some (<["author" := JStr a]> it1)
   else Some (<["author" := JUndefined]> it1))
  = Some (<["author" := match names with
                        | [] => JUndefined
                        | _ :: _ => JStr (String.concat ", " names)
                        end]> it1).
Proof. rewrite join_strings. destruct names as [|x xs]; reflexivity. Qed.

(** On an array of authors [normalizeAuthors] returns, with [authors] an
    array of non-empty strings and [author] a string or [undefined]. *)
Lemma normalizeAuthors_array (it : item) (l : list jsval) :
  get it "authors" = JArr l ->
  exists it',
    normalizeAuthors it = Some it'
    /\ nonEmptyStrings (get it' "authors")
    /\ (get it' "author" = JUndefined \/ isString (get it' "author") = true).
Proof.
  intros Ha. unfold normalizeAuthors. rewrite Ha, normalizeAuthors_joined.
  set (names := List.filter nonEmpty _).
  assert (Hn : forall v,
            nonEmptyStrings
              (get (<["author" := v]>
                      (<["authors" := JArr (map JStr names)]> it))
                   "authors")).
  { intros v. rewrite !get_insert. simpl. exists names.
    split; [reflexivity|apply filter_nonEmpty]. }
  assert (Hj : exists it',
            Some (<["author" := match names with
                                | [] => JUndefined
                                | _ :: _ => JStr (String.concat ", " names)
                                end]>
                    (<["authors" := JArr (map JStr names)]> it)) = Some it'
            /\ nonEmptyStrings (get it' "authors")
            /\ (get it' "author" = JUndefined
                \/ isString (get it' "author") = true)).
  { eexists. split; [reflexivity|]. split; [apply Hn|].
    rewrite get_insert. simpl. destruct names; [now left|now right]. }
  destruct (get it "author") as [| |b|n|s|x|o]; try exact Hj.
  destruct (nonEmpty s && nonEmpty (trim s)); [|exact Hj].
  eexists. split; [reflexivity|]. split; [apply Hn|].
  rewrite get_insert. now right.
Qed.


Lemma mapM_None_In {X Y : Type} (f : X -> option Y) (l : list X) (x : X) :
  In x l -> f x = None -> mapM f l = None.
Proof.
  intros Hin Hx. induction l as [|a l IH]; [destruct Hin|].
  change (mapM f (a :: l))
    with (y ← f a; k ← mapM f l; Some (y :: k)).
  destruct Hin as [->|Hin].
  - now rewrite Hx.
  - rewrite (IH Hin). now destruct (f a).
Qed.

(** X21: [normalizeAuthors] throws on a result whose [authors] is a
    non-empty string and that has no [author] string to use instead (the
    string has a length and no [join]); one such result among the
    results makes the whole pass over them throw. *)
Theorem normalizeAuthors_throws_on_a_string (it : item) (s : string)
    (fullResults : list item) :
  get it "authors" = JStr s -> s <> "" ->
  (forall a, get it "author" = JStr a -> a = "") ->
  In it fullResults ->
  normalizeAuthors it = None
  /\ mapM normalizeAuthors fullResults = None.
Proof.
  intros Ha Hs Hau Hin.
  assert (Hn : nonEmpty s = true).
  { unfold nonEmpty. apply negb_true_iff. now apply String.eqb_neq. }
  assert (Hl : truthy (lengthOf (JStr s)) = true).
  { destruct s as [|c s]; [congruence|]. reflexivity. }
  assert (Hj : (if truthy (orElse (JStr s) (JArr []))
                   && truthy (lengthOf (orElse (JStr s) (JArr [])))
                then a ← join ", " (orElse (JStr s) (JArr []));
                     Some (<["author" := JStr a]>
                             (<["authors" := orElse (JStr s) (JArr [])]> it))
                else Some (<["author" := JUndefined]>
                             (<["authors" := orElse (JStr s) (JArr [])]> it)))
               = None).
  { assert (E : orElse (JStr s) (JArr []) = JStr s).
    { unfold orElse. change (truthy (JStr s)) with (nonEmpty s).
      now rewrite Hn. }
    rewrite E, Hl. change (truthy (JStr s)) with (nonEmpty s).
    now rewrite Hn. }
  assert (H : normalizeAuthors it = None).
  { unfold normalizeAuthors. rewrite Ha.
    destruct (get it "author") as [| |b|n|au|l|o] eqn:Eau; try exact Hj.
    rewrite (Hau au eq_refl). exact Hj. }
  split; [exact H|]. now apply (mapM_None_In normalizeAuthors _ it).
Qed.

Lemma blank_truthy (v : jsval) : truthy v = true -> blank v = false.
Proof.
  intros H. unfold blank. rewrite H. simpl.
  destruct v as [| |b|q|x|l|o]; try reflexivity.
  simpl in *. now apply negb_true_iff in H.
Qed.

Lemma fillSubtitlePublisher_other (it : item) (f : string) :
  f <> "subtitle" -> f <> "publisher" ->
  get (fillSubtitlePublisher it) f = get it f.
Proof.
  intros H1 H2. unfold fillSubtitlePublisher.
  repeat case_match; rewrite ?get_insert;
    destruct (String.eqb_spec f "publisher"); try congruence;
    destruct (String.eqb_spec f "subtitle"); congruence.
Qed.

(** The two fills do not interfere: each test reads the result as it
    came in. *)
Lemma fillSubtitlePublisher_steps (it : item) :
  let t := getProp (get it "identifiers") "title" in
  let d := getProp (get it "source") "description" in
  let it1 :=
    if blank (get it "subtitle") && truthy (get it "identifiers") && truthy t
    then <["subtitle" := t]> it else it in
  fillSubtitlePublisher it
  = if blank (get it "publisher") && truthy (get it "source") && truthy d
    then <["publisher" := d]> it1 else it1.
Proof.
  unfold fillSubtitlePublisher.
  destruct (blank (get it "subtitle") && truthy (get it "identifiers")
            && truthy (getProp (get it "identifiers") "title"));
    rewrite ?get_insert; reflexivity.
Qed.

(** X22: The loop that fills [subtitle] and [publisher] only fills
    blanks: it touches no other field, it leaves a subtitle and a
    publisher that are not blank as they are (a blank subtitle becomes
    [identifiers.title], a blank publisher [source.description], where
    those are truthy), and a second pass changes nothing. *)
Theorem fillSubtitlePublisher_only_fills_blanks (it : item) :
  (forall f, f <> "subtitle" -> f <> "publisher" ->
             get (fillSubtitlePublisher it) f = get it f)
  /\ (blank (get it "subtitle") = false ->
      get (fillSubtitlePublisher it) "subtitle" = get it "subtitle")
  /\ (blank (get it "publisher") = false ->
      get (fillSubtitlePublisher it) "publisher" = get it "publisher")
  /\ fillSubtitlePublisher (fillSubtitlePublisher it)
     = fillSubtitlePublisher it.
Proof.
  split; [intros f; apply fillSubtitlePublisher_other|].
  pose proof (fillSubtitlePublisher_steps it) as E. cbv zeta in E.
  split; [|split].
  - intros Hb. rewrite E, Hb. simpl.
    destruct (blank (get it "publisher") && _ && _);
      rewrite ?get_insert; reflexivity.
  - intros Hb. rewrite E, Hb. simpl.
    destruct (blank (get it "subtitle") && _ && _);
      rewrite ?get_insert; reflexivity.
  - rewrite (fillSubtitlePublisher_steps (fillSubtitlePublisher it)).
    cbv zeta.
    rewrite !(fillSubtitlePublisher_other it "identifiers") by discriminate.
    rewrite !(fillSubtitlePublisher_other it "source") by discriminate.
    assert (Hs : blank (get (fillSubtitlePublisher it) "subtitle")
                 && truthy (get it "identifiers")
                 && truthy (getProp (get it "identifiers") "title") = false).
    { rewrite E.
      destruct (blank (get it "subtitle") && truthy (get it "identifiers")
                && truthy (getProp (get it "identifiers") "title")) eqn:C1.
      - apply andb_true_iff in C1. destruct C1 as [_ Tt].
        destruct (_ && _); rewrite ?get_insert; simpl;
          now rewrite (blank_truthy _ Tt).
      - destruct (blank (get it "publisher") && _ && _);
          rewrite ?get_insert; exact C1. }
    assert (Hp : blank (get (fillSubtitlePublisher it) "publisher")
                 && truthy (get it "source")
                 && truthy (getProp (get it "source") "description") = false).
    { rewrite E.
      destruct (blank (get it "publisher") && truthy (get it "source")
                && truthy (getProp (get it "source") "description")) eqn:C2.
      - apply andb_true_iff in C2. destruct C2 as [_ Td].
        rewrite get_insert. simpl. now rewrite (blank_truthy _ Td).
      - destruct (blank (get it "subtitle") && _ && _);
          rewrite ?get_insert; exact C2. }
    now rewrite Hs, Hp.
Qed.

Lemma pickFieldAndSource_value (sortedGroup : list item) (field : string) :
  fst (pickFieldAndSource config sortedGroup field) = JUndefined
  \/ exists it, In it sortedGroup
                /\ fst (pickFieldAndSource config sortedGroup field)
                   = getFieldValue it field.
Proof.
  unfold pickFieldAndSource, pickWith, pickFallback, findFrom.
  destruct (preferred config field) as [p|].
  - destruct (List.find _ sortedGroup) as [it|] eqn:E.
    + right. exists it. split; [|reflexivity].
      now apply find_some in E.
    + destruct (List.find (fun i => hasField i field) sortedGroup)
        as [it|] eqn:E'; [|now left].
      right. exists it. split; [|reflexivity]. now apply find_some in E'.
  - destruct (List.find (fun i => hasField i field) sortedGroup)
      as [it|] eqn:E'; [|now left].
    right. exists it. split; [|reflexivity]. now apply find_some in E'.
Qed.

Lemma mergedRecord_authors (topGroup : list item) (topSim : Q) :
  get (mergedRecord config topGroup topSim) "authors"
  = orElse (fst (pickFieldAndSource config (sortedGroupOf topGroup)
                   "authors"))
           (JArr []).
Proof.
  unfold mergedRecord. destruct (seriesPick config _) as [chosen index].
  rewrite get_assignments. reflexivity.
Qed.

Lemma mapM_total {X Y : Type} (f : X -> option Y) (P : Y -> Prop)
    (l : list X) :
  Forall (fun x => exists y, f x = Some y /\ P y) l ->
  exists out, mapM f l = Some out /\ Forall P out
              /\ length out = length l.
Proof.
  induction 1 as [|x l (y & Hy & Py) Hl (out & E & Hout & Hlen)].
  - exists []. repeat split. constructor.
  - exists (y :: out). split; [|split].
    + change (mapM f (x :: l))
        with (y ← f x; k ← mapM f l; Some (y :: k)).
      now rewrite Hy, E.
    + now constructor.
    + simpl. now rewrite Hlen.
Qed.

(** X23: Where every enriched result has an array for [authors], the
    rest of the handler does not throw, and every match of the response,
    the merged record included, has for [authors] an array of non-empty
    strings and for [author] a string or [undefined]. *)
Theorem response_authors_are_normalized (fullResults : list item) :
  Forall (fun m => isArray (get m "authors") = true) fullResults ->
  exists out,
    mapM normalizeAuthors (mergeStep config fullResults) = Some out
    /\ length out = length (mergeStep config fullResults)
    /\ Forall (fun m =>
                 nonEmptyStrings (get m "authors")
                 /\ (get m "author" = JUndefined
                     \/ isString (get m "author") = true))
              (map fillSubtitlePublisher out).
Proof.
  intros Hall.
  assert (Hms : Forall (fun m => isArray (get m "authors") = true)
                       (mergeStep config fullResults)).
  { destruct (mergeStep_shape config fullResults)
      as [->|(top & rest & _ & _ & _ & ->)]; [exact Hall|].
    constructor; [|exact Hall].
    rewrite mergedRecord_authors.
    destruct (pickFieldAndSource_value
                (sortedGroupOf (topGroupOf fullResults)) "authors")
      as [->|(it & Hit & ->)]; [reflexivity|].
    assert (Hin : In it fullResults).
    { unfold sortedGroupOf in Hit.
      apply (proj1 (jsSort_In byPriorityThenFields it _)) in Hit.
      unfold topGroupOf in Hit. destruct fullResults as [|t r]; [easy|].
      now apply filter_In in Hit. }
    rewrite List.Forall_forall in Hall. specialize (Hall it Hin).
    change (getFieldValue it "authors") with (get it "authors").
    destruct (get it "authors"); try discriminate. reflexivity. }
  destruct (mapM_total normalizeAuthors
              (fun m => nonEmptyStrings (get m "authors")
                        /\ (get m "author" = JUndefined
                            \/ isString (get m "author") = true))
              (mergeStep config fullResults)) as (out & E & Hout & Hlen).
  { eapply List.Forall_impl; [|exact Hms]. intros m Hm. simpl in Hm.
    destruct (get m "authors") as [| |b|n|s|l|o] eqn:Ea; try discriminate.
    destruct (normalizeAuthors_array m l Ea) as (m' & E & H1 & H2).
    now exists m'. }
  exists out. split; [exact E|]. split; [exact Hlen|].
  apply Forall_map. eapply List.Forall_impl; [|exact Hout].
  intros m [H1 H2].
  rewrite !fillSubtitlePublisher_other by discriminate. now split.
Qed.

End HandlerMore.



Lemma normalizeAuthors_throws_on_a_string_witness :
  normalizeAuthors (rt := asciiRuntime) stringAuthors = None
  /\ mapM (normalizeAuthors (rt := asciiRuntime)) [resultA; stringAuthors]
     = None.
Proof.
  apply (normalizeAuthors_throws_on_a_string (rt := asciiRuntime)
           stringAuthors "Frank Herbert" [resultA; stringAuthors]).
  - reflexivity.
  - discriminate.
  - intros a H. vm_compute in H. discriminate.
  - right. left. reflexivity.
Defined.

Lemma response_authors_are_normalized_witness :
  exists out,
    mapM (normalizeAuthors (rt := asciiRuntime))
         (mergeStep (rt := asciiRuntime) defaultConfig [resultA; resultB])
    = Some out
    /\ length out
       = length (mergeStep (rt := asciiRuntime) defaultConfig
                   [resultA; resultB])
    /\ Forall (fun m =>
                 nonEmptyStrings (get m "authors")
                 /\ (get m "author" = JUndefined
                     \/ isString (get m "author") = true))
              (map fillSubtitlePublisher out).
Proof.
  apply (response_authors_are_normalized (rt := asciiRuntime) defaultConfig
           [resultA; resultB]).
  repeat constructor.
Defined.

(** ** The helpers of the providers *)

Lemma append_cons (c : ascii) (a b : string) :
  String c a +:+ b = String c (a +:+ b).
Proof. reflexivity. Qed.



Lemma nonEmpty_cons (c : ascii) (s : string) : nonEmpty (String c s) = true.
Proof. reflexivity. Qed.

















(** X25: [cleanCoverUrl] cuts a URL at its first question mark: the
    result is the part of the URL before it, holds no question mark, and
    is left as it is by a second call. *)
Theorem cleanCoverUrl_cuts_the_query (s : string) :
  exists t rest,
    cleanCoverUrl (JStr s) = Some (JStr t)
    /\ s = t +:+ rest
    /\ stopsAt (fun c => negb (Ascii.eqb c "?")) rest = true
    /\ allIn (fun c => negb (Ascii.eqb c "?")) t = true
    /\ cleanCoverUrl (JStr t) = Some (JStr t).
Proof.
  assert (H : exists rest,
             s = beforeQuestion s +:+ rest
             /\ stopsAt (fun c => negb (Ascii.eqb c "?")) rest = true
             /\ allIn (fun c => negb (Ascii.eqb c "?")) (beforeQuestion s)
                = true
             /\ beforeQuestion (beforeQuestion s) = beforeQuestion s).
  { induction s as [|c s (rest & E & Hr & Ha & Hi)]; simpl.
    - exists "". repeat split.
    - destruct (Ascii.eqb c "?") eqn:Hc.
      + exists (String c s). repeat split. simpl. now rewrite Hc.
      + exists rest. rewrite append_cons. simpl. rewrite Hc, Ha, Hi.
        repeat split; [now f_equal|exact Hr]. }
  destruct H as (rest & E & Hr & Ha & Hi).
  exists (beforeQuestion s), rest.
  assert (Hc : forall u,
            cleanCoverUrl (JStr u) = Some (JStr (beforeQuestion u))).
  { intros u. unfold cleanCoverUrl. simpl.
    destruct (String.eqb_spec u "") as [->|_]; reflexivity. }
  rewrite !Hc, Hi. repeat split; assumption.
Qed.

Lemma hasClose_stripFrom (inTag : bool) (s : string) :
  hasClose s = false -> hasClose (stripFrom inTag s) = false.
Proof.
  revert inTag. induction s as [|c s IH]; intros inTag H; simpl in *.
  - reflexivity.
  - apply orb_false_iff in H. destruct H as [Hc Hs].
    rewrite Hc, Hs, andb_false_r.
    destruct inTag; [now apply IH|].
    simpl. rewrite Hc. now apply IH.
Qed.

Lemma noTag_stripFrom (inTag : bool) (s : string) :
  noTag (stripFrom inTag s) = true.
Proof.
  revert inTag. induction s as [|c s IH]; intros inTag; simpl.
  - reflexivity.
  - destruct inTag.
    + destruct (Ascii.eqb c ">"); apply IH.
    + destruct (Ascii.eqb c "<" && hasClose s) eqn:E; [apply IH|].
      simpl. rewrite IH, andb_true_r.
      apply andb_false_iff in E. destruct E as [E|E].
      * now rewrite E.
      * rewrite (hasClose_stripFrom false s E). now rewrite andb_false_r.
Qed.

Lemma stripFrom_noTag (s : string) : noTag s = true -> stripFrom false s = s.
Proof.
  induction s as [|c s IH]; simpl; [reflexivity|].
  intros H. apply andb_true_iff in H. destruct H as [H1 H2].
  apply negb_true_iff in H1. rewrite H1. f_equal. now apply IH.
Qed.

(** X26: [stripHtmlTags] leaves no tag behind: in its result no [<] is
    followed by a [>], so a second pass changes nothing; and a text
    without tags (a lone [<] or [>] included) is returned as it is. *)
Theorem stripHtmlTags_leaves_no_tag (html : string) :
  noTag (stripHtmlTags html) = true
  /\ stripHtmlTags (stripHtmlTags html) = stripHtmlTags html
  /\ (noTag html = true -> stripHtmlTags html = html).
Proof.
  unfold stripHtmlTags. split; [apply noTag_stripFrom|].
  split; [|apply stripFrom_noTag].
  apply stripFrom_noTag, noTag_stripFrom.
Qed.

(** ** The ordering of the matches of the lubimyczytac provider *)

Lemma similarityOf_number (m : item) :
  hasSimilarity m -> get m "similarity" = JNum (similarityOf m).
Proof.
  unfold hasSimilarity, similarityOf.
  destruct (get m "similarity"); simpl; congruence.
Qed.

Lemma compareMatches_before (a b : item) :
  hasSimilarity a -> hasSimilarity b ->
  before compareMatches a b <-> matchBefore a b.
Proof.
  intros Ha Hb. unfold before, sortCompare, compareMatches, matchBefore.
  rewrite (similarityOf_number a Ha), (similarityOf_number b Hb). simpl.
  destruct (Qeq_bool (similarityOf b) (similarityOf a)) eqn:E; simpl.
  - apply Qeq_bool_iff in E.
    change 0%Q with (inject_Z 0).
    rewrite <- (Zle_Qle (typeValue b - typeValue a) 0).
    split.
    + intros H. right. split; [exact E|lia].
    + intros [H|[_ H]]; [rewrite E in H; lra|lia].
  - apply Qeq_bool_neq in E. split.
    + intros H. left. lra.
    + intros [H|[H _]]; [lra|contradiction].
Qed.

Lemma matchBefore_total (a b : item) : ~ matchBefore a b -> matchBefore b a.
Proof.
  unfold matchBefore. intros H.
  destruct (Qlt_le_dec (similarityOf a) (similarityOf b)) as [Hlt|Hle];
    [now left|].
  destruct (Qlt_le_dec (similarityOf b) (similarityOf a)) as [Hlt'|Hle'].
  - exfalso. apply H. now left.
  - assert (E : similarityOf b == similarityOf a) by lra.
    right. split; [now symmetry|].
    destruct (Z_le_gt_dec (typeValue a) (typeValue b)); [assumption|].
    exfalso. apply H. right. split; [exact E|lia].
Qed.

Lemma matchBefore_trans (a b c : item) :
  matchBefore a b -> matchBefore b c -> matchBefore a c.
Proof.
  unfold matchBefore. intros [H1|[E1 T1]] [H2|[E2 T2]].
  - left. lra.
  - left. lra.
  - left. lra.
  - right. split; [lra|lia].
Qed.

Lemma jsSort_matches_sorted (l : list item) :
  Forall hasSimilarity l ->
  StronglySorted matchBefore (jsSort compareMatches l).
Proof.
  intros Hl.
  assert (Hs : StronglySorted (before compareMatches)
                 (jsSort compareMatches l)).
  { apply (jsSort_sorted compareMatches hasSimilarity); [| |exact Hl].
    - intros a b Ha Hb. rewrite !compareMatches_before by assumption.
      apply matchBefore_total.
    - intros a b c Ha Hb Hc. rewrite !compareMatches_before by assumption.
      apply matchBefore_trans. }
  assert (Hok : Forall hasSimilarity (jsSort compareMatches l)).
  { eapply Permutation_Forall; [symmetry; apply jsSort_perm|exact Hl]. }
  induction Hs as [|a s Hs IH Ha]; constructor.
  - apply IH. now inversion Hok.
  - inversion Hok as [|? ? Oa Os]; subst.
    rewrite List.Forall_forall in *. intros b Hb.
    apply compareMatches_before; auto.
Qed.

(** X27: Of the scored matches the provider keeps the twenty best: the
    kept ones are in descending similarity with audiobooks first among
    equal similarities, there are twenty of them (all, when there are
    fewer), and every match left out ranks no higher than every match
    kept. *)
Theorem bestMatches_keeps_the_best (scoredMatches : list item) :
  Forall hasSimilarity scoredMatches ->
  exists rest,
    Permutation (bestMatches scoredMatches ++ rest) scoredMatches
    /\ length (bestMatches scoredMatches)
       = Nat.min 20 (length scoredMatches)
    /\ StronglySorted matchBefore (bestMatches scoredMatches)
    /\ forall a b, In a (bestMatches scoredMatches) -> In b rest ->
                   matchBefore a b.
Proof.
  intros Hl. exists (drop 20 (jsSort compareMatches scoredMatches)).
  unfold bestMatches.
  pose proof (jsSort_matches_sorted scoredMatches Hl) as Hs.
  rewrite <- (take_drop 20 (jsSort compareMatches scoredMatches)) in Hs.
  repeat split.
  - rewrite take_drop. apply jsSort_perm.
  - rewrite length_take, jsSort_length. reflexivity.
  - now apply StronglySorted_app_1_l in Hs.
  - intros a b Ha Hb.
    apply (StronglySorted_app_1_elem_of _ _ _ a b Hs);
      now apply list_elem_of_In.
Qed.

Lemma bestMatches_keeps_the_best_witness :
  exists rest,
    Permutation (bestMatches [candidateA1; candidateA2] ++ rest)
                [candidateA1; candidateA2]
    /\ length (bestMatches [candidateA1; candidateA2])
       = Nat.min 20 (length [candidateA1; candidateA2])
    /\ StronglySorted matchBefore (bestMatches [candidateA1; candidateA2])
    /\ forall a b, In a (bestMatches [candidateA1; candidateA2]) ->
                   In b rest -> matchBefore a b.
Proof.
  apply (bestMatches_keeps_the_best [candidateA1; candidateA2]).
  repeat constructor.
Defined.



